(** * Poisson-PDE: the sparse 5-point operator and its two CUDA evaluators

    A shallow embedding of [Poisson-PDE.ipynb]:
    - [discretise_poisson]      the CPU builder of the COO triplets and rhs,
    - [discretise_poisson_gpu]  the naive matrix-free kernel, with [eval_gpu],
    - [discretise_poisson_gpu_2] the shared-memory tiled kernel, with
      [eval_gpu_2],
    - [pad_with] / [interior]   the zero padding and slicing of the validation
      cell, and [pad_with_vector], the padder it hands to [np.pad].

    Numbers.  Grid indices and sizes are Python integers, here [Z].  The
    builder stores integers into [float32] arrays; [float32] below is the
    exact round-to-nearest-even of an integer to a 24-bit significand, so the
    builder is modelled without idealisation.  [eval_gpu] and [eval_gpu_2]
    take the field vector as exact integers and compute on it exactly: they
    are the evaluators without rounding.  [eval_gpu_f32] is the naive
    evaluator with the conversion of its input to single precision and the
    rounding of the kernel's arithmetic, for integer-valued inputs.

    Uninitialised memory.  [discretise_poisson] is the builder up to its
    return statement; [discretise_poisson_call] adds the return statement,
    where the sparse-matrix constructor reads the arrays and checks the
    indices against the shape.  What it reads from a slot that was never
    written is a parameter, [memory].

    Threads.  A kernel thread is a function on the device state: the output
    array, the shared array of the running block, and the trace of the
    accesses made so far.  A launch runs its blocks one after the other;
    within a block the threads run in the order [order], a parameter of the
    launch, and the tiled kernel runs every thread up to the barrier before
    any thread goes on.  The theorems hold for every [order] that is a
    permutation of the threads of a block and for every initial content of
    the shared arrays.

    The file has two parts: the code, then what is proved of it.  The
    definitions from "What the builder emits" on describe the code for the
    proofs; each is tied to the code by a lemma. *)

From Stdlib Require Import ZArith Lia.
From stdpp Require Import base tactics numbers option list strings gmap.

Local Open Scope Z_scope.

(** ** Results of fallible code *)

Inductive exn := IndexError | ValueError.

Inductive result (A : Type) : Type :=
  | Ok (a : A)
  | Raise (e : exn).
Arguments Ok {A} a.
Arguments Raise {A} e.

#[global] Instance result_ret : MRet result := fun A a => Ok a.
#[global] Instance result_bind : MBind result := fun A B k m =>
  match m with
  | Ok a => k a
  | Raise e => Raise e
  end.

(** [for x in xs: s = body x s], stopping at the first exception. *)
Fixpoint for_each {A S : Type} (xs : list A) (body : A -> S -> result S) (s : S)
  : result S :=
  match xs with
  | [] => Ok s
  | x :: xs' => s' ← body x s; for_each xs' body s'
  end.

(** Python's [range(n)]: empty when [n <= 0]. *)
Definition range (n : Z) : list Z := seqZ 0 n.

(** ** float32 storage of integers *)

(** The value an integer takes when it is stored into a [float32] slot:
    exact below [2^24], otherwise rounded to 24 significant bits, ties to the
    even significand.  (No overflow is modelled: every integer the theorems
    store is far below [2^127].) *)
Definition float32 (n : Z) : Z :=
  let a := Z.abs n in
  if a <? 2 ^ 24 then n
  else
    let e := Z.log2 a - 23 in
    let q := a / 2 ^ e in
    let r := a mod 2 ^ e in
    let half := 2 ^ (e - 1) in
    let q' := if r <? half then q
              else if half <? r then q + 1
              else if Z.even q then q else q + 1 in
    Z.sgn n * (q' * 2 ^ e).

(** ** numpy arrays *)

(** A one-dimensional array; [None] is a slot of [np.empty] that was never
    written. *)
Abbreviation ndarray := (list (option Z)).

Definition np_empty (n : Z) : result ndarray :=
  if n <? 0 then Raise ValueError else Ok (replicate (Z.to_nat n) None).

(** An integer subscript: negative subscripts count from the end, anything
    outside raises. *)
Definition py_index {A : Type} (a : list A) (k : Z) : result nat :=
  let len := Z.of_nat (length a) in
  let k' := if k <? 0 then k + len else k in
  if (0 <=? k') && (k' <? len) then Ok (Z.to_nat k') else Raise IndexError.

(** [a[k] = v] *)
Definition setitem (a : ndarray) (k v : Z) : result ndarray :=
  i ← py_index a k; Ok (<[i := Some v]> a).

(** [a[k]] on an array without unwritten slots *)
Definition getitem (a : list Z) (k : Z) : result Z :=
  i ← py_index a k;
  match a !! i with
  | Some v => Ok v
  | None => Raise IndexError
  end.

(** A bound of a slice [a[lo:hi]]: wrapped and clipped, never an error. *)
Definition slice_bound (len k : Z) : Z :=
  Z.max 0 (Z.min len (if k <? 0 then k + len else k)).

(** [a[lo:hi] = v] *)
Definition setslice (a : ndarray) (lo hi v : Z) : ndarray :=
  let len := Z.of_nat (length a) in
  let lo' := slice_bound len lo in
  let hi' := slice_bound len hi in
  imap (fun idx x =>
          if (lo' <=? Z.of_nat idx) && (Z.of_nat idx <? hi') then Some v else x) a.

(** ** The CPU builder: [discretise_poisson] *)

(** The local arrays of the builder and its running [count]. *)
Record coo_arrays := {
  row_ind : ndarray;
  col_ind : ndarray;
  data : ndarray;
  rhs : ndarray;        (* the source's [f] *)
  count : Z
}.

(** The body of the two nested loops, at column [i] of row [j]. *)
Definition poisson_cell (N j i : Z) (st : coo_arrays) : result coo_arrays :=
  if (i =? 0) || (i =? N - 1) || (j =? 0) || (j =? N - 1) then
    r ← setitem (row_ind st) (count st) (float32 (j * N + i));
    c ← setitem (col_ind st) (count st) (float32 (j * N + i));
    d ← setitem (data st) (count st) (float32 1);
    f ← setitem (rhs st) (j * N + i) (float32 0);
    Ok {| row_ind := r; col_ind := c; data := d; rhs := f;
          count := count st + 1 |}
  else
    let r := setslice (row_ind st) (count st) (count st + 5)
                      (float32 (j * N + i)) in
    c ← setitem (col_ind st) (count st) (float32 (j * N + i));
    c ← setitem c (count st + 1) (float32 (j * N + i + 1));
    c ← setitem c (count st + 2) (float32 (j * N + i - 1));
    c ← setitem c (count st + 3) (float32 ((j + 1) * N + i));
    c ← setitem c (count st + 4) (float32 ((j - 1) * N + i));
    d ← setitem (data st) (count st) (float32 (4 * (N - 1) ^ 2));
    let d := setslice d (count st + 1) (count st + 5)
                      (float32 (- (N - 1) ^ 2)) in
    f ← setitem (rhs st) (j * N + i) (float32 1);
    Ok {| row_ind := r; col_ind := c; data := d; rhs := f;
          count := count st + 5 |}.

(** Everything [discretise_poisson] does before it calls [coo_matrix]: the
    result holds the three arrays handed to the constructor and [f]. *)
Definition discretise_poisson (N : Z) : result coo_arrays :=
  let nelements := 5 * N ^ 2 - 16 * N + 16 in
  r ← np_empty nelements;
  c ← np_empty nelements;
  d ← np_empty nelements;
  f ← np_empty (N * N);
  for_each (range N)
    (fun j => for_each (range N) (fun i => poisson_cell N j i))
    {| row_ind := r; col_ind := c; data := d; rhs := f; count := 0 |}.

(** ** The sparse matrix handed to the solver *)

(** [coo_matrix((data, (row_ind, col_ind)), shape)]: the triplets
    [(row, col, value)].  The constructor casts the two index arrays to
    integers.  An array with an unwritten slot has no determined content. *)
Definition coo_matrix (st : coo_arrays) : option (list (Z * Z * Z)) :=
  r ← mapM id (row_ind st);
  c ← mapM id (col_ind st);
  d ← mapM id (data st);
  Some (zip (zip r c) d).

(** [.tocsr()] sums the triplets that share their coordinates, so the stored
    entries of the result are the distinct coordinates. *)
Definition nnz (A : list (Z * Z * Z)) : nat :=
  length (remove_dups (fst <$> A)).

(** ** The return statement of the builder *)

(** What [np.empty] left in the slots that the loops never wrote: the value
    that a reader finds at position [p] of each array.  For the two index
    arrays it is the index after the constructor's cast to an integer. *)
Record memory := {
  junk_row : nat -> Z;
  junk_col : nat -> Z;
  junk_data : nat -> Z;
  junk_f : nat -> Z
}.

(** An array as its reader finds it. *)
Definition read_array (junk : nat -> Z) (a : ndarray) : list Z :=
  imap (fun p x => default (junk p) x) a.

Definition in_shape (n x : Z) : bool := (0 <=? x) && (x <? n).

(** [coo_matrix((data, (row_ind, col_ind)), shape=(n, n))] with the check of
    the constructor: a negative index, or an index that is not below [n],
    raises [ValueError]. *)
Definition coo_matrix_checked (n : Z) (m : memory) (st : coo_arrays)
  : result (list (Z * Z * Z)) :=
  let r := read_array (junk_row m) (row_ind st) in
  let c := read_array (junk_col m) (col_ind st) in
  let d := read_array (junk_data m) (data st) in
  if forallb (in_shape n) r && forallb (in_shape n) c
  then Ok (zip (zip r c) d)
  else Raise ValueError.

(** [discretise_poisson(N)] to its end: the loops, then
    [return coo_matrix(..., shape=(N**2, N**2)).tocsr(), f].  The matrix is
    returned as its triplets; [nnz] counts what [tocsr] stores. *)
Definition discretise_poisson_call (m : memory) (N : Z)
  : result (list (Z * Z * Z) * list Z) :=
  st ← discretise_poisson N;
  A ← coo_matrix_checked (N ^ 2) m st;
  Ok (A, read_array (junk_f m) (rhs st)).

(** [u[c]] in a matrix-vector product. *)
Definition vec_get (u : list Z) (c : Z) : Z :=
  if c <? 0 then 0 else default 0 (u !! Z.to_nat c).

(** Row [r] of [A @ u]. *)
Definition row_dot (A : list (Z * Z * Z)) (u : list Z) (r : Z) : Z :=
  foldr (fun e acc =>
           (if fst (fst e) =? r then snd e * vec_get u (snd (fst e)) else 0) + acc)
        0 A.

(** [A @ u] for [A] of shape [(n, n)]. *)
Definition matvec (n : Z) (A : list (Z * Z * Z)) (u : list Z) : list Z :=
  row_dot A u <$> range n.

(** ** The validation cell: padding and slicing *)

(** [np.pad(x.reshape(N-2, N-2), 1, pad_with).flatten()]: the full-grid
    vector that is [x] in the interior and [0] on the boundary. *)
Definition pad_with (N : Z) (x : list Z) : list Z :=
  (fun k =>
     let i := k mod N in
     let j := k / N in
     if (0 <? i) && (i <? N - 1) && (0 <? j) && (j <? N - 1)
     then vec_get x ((j - 1) * (N - 2) + (i - 1))
     else 0) <$> range (N * N).

(** [u.reshape(N, N)[1:N-1, 1:N-1].flatten()] *)
Definition interior (N : Z) (u : list Z) : list Z :=
  (fun pk =>
     let pi := pk mod (N - 2) in
     let pj := pk / (N - 2) in
     vec_get u ((pj + 1) * N + (pi + 1))) <$> range ((N - 2) * (N - 2)).

(** [pad_with(vector, pad_width, iaxis, kwargs)], the function the validation
    cell hands to [np.pad].  It overwrites [vector] in place; here it returns
    the new content.  [vector[:a]] has no lower bound and [vector[-b:]] no
    upper bound. *)
Definition pad_with_vector (vector : ndarray) (pad_width : Z * Z) (iaxis : Z)
    (kwargs : gmap string Z) : ndarray :=
  let pad_value := default 0 (kwargs !! "padder"%string) in
  let vector := setslice vector 0 (fst pad_width) pad_value in
  setslice vector (- snd pad_width) (Z.of_nat (length vector)) pad_value.

(** ** The device *)

(** What a thread touches: the global input, the global output, the shared
    array of its block. *)
Inductive access :=
  | GRead (k : Z)
  | GWrite (k : Z)
  | SRead (a b : Z)
  | SWrite (a b : Z).

Record device := {
  out : ndarray;           (* the output array in global memory *)
  local_u : Z -> Z -> Z;   (* the shared array of the running block *)
  trace : list access      (* the accesses so far, oldest first *)
}.

Definition kernel (A : Type) : Type := device -> result (A * device).

#[global] Instance kernel_ret : MRet kernel := fun A a d => Ok (a, d).
#[global] Instance kernel_bind : MBind kernel := fun A B k m d =>
  match m d with
  | Ok (a, d') => k a d'
  | Raise e => Raise e
  end.

(** Run a thread for its effect on the device. *)
Definition exec (m : kernel unit) (d : device) : result device :=
  match m d with
  | Ok (_, d') => Ok d'
  | Raise e => Raise e
  end.

(** Global memory.  The device checks no bounds: an access outside the array
    is a fault of the model.  The trace records the subscript as computed. *)
Definition gread (a : list Z) (k : Z) : kernel Z := fun d =>
  v ← getitem a k;
  Ok (v, {| out := out d; local_u := local_u d; trace := trace d ++ [GRead k] |}).

Definition gwrite (k v : Z) : kernel unit := fun d =>
  o ← setitem (out d) k v;
  Ok (tt, {| out := o; local_u := local_u d; trace := trace d ++ [GWrite k] |}).

(** Thread block size of interior points, and with the halo. *)
Definition SX : Z := 32.
Definition SY : Z := 32.
Definition haloSX : Z := SX + 2.
Definition haloSY : Z := SY + 2.

(** A subscript of one axis of the shared array. *)
Definition sh_index (n k : Z) : result Z :=
  let k' := if k <? 0 then k + n else k in
  if (0 <=? k') && (k' <? n) then Ok k' else Raise IndexError.

Definition upd (m : Z -> Z -> Z) (a b v : Z) : Z -> Z -> Z :=
  fun a' b' => if (a' =? a) && (b' =? b) then v else m a' b'.

(** [local_u[a, b] = v]; the trace records the cell. *)
Definition swrite (a b v : Z) : kernel unit := fun d =>
  a' ← sh_index haloSX a;
  b' ← sh_index haloSY b;
  Ok (tt, {| out := out d; local_u := upd (local_u d) a' b' v;
             trace := trace d ++ [SWrite a' b'] |}).

(** [local_u[a, b]] *)
Definition sread (a b : Z) : kernel Z := fun d =>
  a' ← sh_index haloSX a;
  b' ← sh_index haloSY b;
  Ok (local_u d a' b',
      {| out := out d; local_u := local_u d; trace := trace d ++ [SRead a' b'] |}).

Definition when (c : bool) (m : kernel unit) : kernel unit :=
  if c then m else mret tt.

(** ** The naive kernel: [discretise_poisson_gpu] *)

(** One thread, at [i, j = cuda.grid(2)].  [N] is a global of the notebook. *)
Definition discretise_poisson_gpu (N : Z) (vec_in : list Z) (i j : Z)
  : kernel unit :=
  if N <=? i then mret tt
  else if N <=? j then mret tt
  else
    let k := j * N + i in
    if (i =? 0) || (i =? N - 1) || (j =? 0) || (j =? N - 1) then
      v ← gread vec_in k;
      gwrite k v
    else
      up ← gread vec_in ((j + 1) * N + i);
      down ← gread vec_in ((j - 1) * N + i);
      left ← gread vec_in (j * N + i - 1);
      right ← gread vec_in (j * N + i + 1);
      center ← gread vec_in k;
      gwrite k ((N - 1) ^ 2 * (4 * center - up - down - left - right)).

(** The blocks of a [(g, g)] grid and the threads of a [(32, 32)] block. *)
Definition blocks (g : Z) : list (Z * Z) :=
  by_ ← range g; bx ← range g; [(bx, by_)].

Definition block_threads : list (Z * Z) :=
  j ← range 32; i ← range 32; [(i, j)].

(** [eval_gpu(x)].  [order] is the order in which the threads of a block
    happen to run. *)
Definition eval_gpu (N : Z) (x : list Z) (order : list (Z * Z))
  : result ndarray :=
  res ← np_empty (N * N);
  let nblocks := (N + 31) / 32 in
  d ← for_each (blocks nblocks)
        (fun b => for_each order
           (fun t => exec (discretise_poisson_gpu N x
                             (fst b * 32 + fst t) (snd b * 32 + snd t))))
        {| out := res; local_u := fun _ _ => 0; trace := [] |};
  Ok (out d).

(** ** The naive evaluator in single precision *)

(** [x.astype('float32')] on a vector of integers. *)
Definition astype_float32 (x : list Z) : list Z := float32 <$> x.

(** [discretise_poisson_gpu] with the rounding of its arithmetic.  [vec_in]
    and [vec_out] are [float32] arrays.  [numba.float32(4) * center - up -
    down - left - right] is evaluated from left to right, each result rounded
    to single precision; the product with the integer [(N - 1)**2] is rounded
    when it is stored into [vec_out] (it is formed in double precision, so
    this is exact rounding of the product while the product stays below
    [2^53]).  A boundary slot is copied. *)
Definition discretise_poisson_gpu_f32 (N : Z) (vec_in : list Z) (i j : Z)
  : kernel unit :=
  if N <=? i then mret tt
  else if N <=? j then mret tt
  else
    let k := j * N + i in
    if (i =? 0) || (i =? N - 1) || (j =? 0) || (j =? N - 1) then
      v ← gread vec_in k;
      gwrite k v
    else
      up ← gread vec_in ((j + 1) * N + i);
      down ← gread vec_in ((j - 1) * N + i);
      left ← gread vec_in (j * N + i - 1);
      right ← gread vec_in (j * N + i + 1);
      center ← gread vec_in k;
      let s := float32 (float32 (float32 (float32 (float32 (4 * center) - up)
                                          - down) - left) - right) in
      gwrite k (float32 ((N - 1) ^ 2 * s)).

(** [eval_gpu(x)] with its two conversions: [x.astype('float32')] rounds the
    input, [res.astype('float64')] changes no value. *)
Definition eval_gpu_f32 (N : Z) (x : list Z) (order : list (Z * Z))
  : result ndarray :=
  res ← np_empty (N * N);
  let nblocks := (N + 31) / 32 in
  d ← for_each (blocks nblocks)
        (fun b => for_each order
           (fun t => exec (discretise_poisson_gpu_f32 N (astype_float32 x)
                             (fst b * 32 + fst t) (snd b * 32 + snd t))))
        {| out := res; local_u := fun _ _ => 0; trace := [] |};
  Ok (out d).

(** ** The tiled kernel: [discretise_poisson_gpu_2] *)

(** The kernel up to its first [cuda.syncthreads()], for the thread with
    [threadIdx = (i, j)] and [cuda.grid(2) = (pi, pj)]. *)
Definition discretise_poisson_gpu_2_load (N : Z) (u_tilda : list Z)
    (i j pi pj : Z) : kernel unit :=
  if N - 2 <=? pi then mret tt
  else if N - 2 <=? pj then mret tt
  else
    let pk := pj * (N - 2) + pi in
    (* Load interior points of each block *)
    v ← gread u_tilda pk;
    swrite (i + 1) (j + 1) v;;
    (* Load halo boundaries of each block *)
    when ((i =? 0) && negb (pi =? 0))
      (v ← gread u_tilda (pk - 1); swrite i (j + 1) v);;
    when ((j =? 0) && negb (pj =? 0))
      (v ← gread u_tilda (pk - (N - 2)); swrite (i + 1) j v);;
    when ((i =? SX - 1) && negb (pi =? (N - 2) - 1))
      (v ← gread u_tilda (pk + 1); swrite (-1) (j + 1) v);;
    when ((j =? SY - 1) && negb (pj =? (N - 2) - 1))
      (v ← gread u_tilda (pk + (N - 2)); swrite (i + 1) (-1) v);;
    (* Load global boundary conditions *)
    when (pi =? 0) (swrite i (j + 1) 0);;
    when (pj =? 0) (swrite (i + 1) j 0);;
    when (pi =? (N - 2) - 1) (swrite (i + 2) (j + 1) 0);;
    when (pj =? (N - 2) - 1) (swrite (i + 1) (j + 2) 0).

(** The kernel after the barrier.  A thread that returned before the barrier
    does nothing.  The second [cuda.syncthreads()] stands between the reads
    of [local_u] and the write of [f], which touch different arrays. *)
Definition discretise_poisson_gpu_2_compute (N omega : Z) (i j pi pj : Z)
  : kernel unit :=
  if N - 2 <=? pi then mret tt
  else if N - 2 <=? pj then mret tt
  else
    let pk := pj * (N - 2) + pi in
    up ← sread (i + 2) (j + 1);
    down ← sread i (j + 1);
    left ← sread (i + 1) j;
    right ← sread (i + 1) (j + 2);
    center ← sread (i + 1) (j + 1);
    gwrite pk ((N - 1) ^ 2 * (4 * center - up - down - left - right)
               + omega ^ 2 * center).

(** A block starts with a shared array of unspecified content. *)
Definition enter_block (garbage : Z -> Z -> Z) (d : device) : device :=
  {| out := out d; local_u := garbage; trace := trace d |}.

(** The threads of block [b] up to the barrier. *)
Definition load_phase (N : Z) (u_tilda : list Z) (order : list (Z * Z))
    (b : Z * Z) (d : device) : result device :=
  for_each order
    (fun t => exec (discretise_poisson_gpu_2_load N u_tilda (fst t) (snd t)
                      (fst b * 32 + fst t) (snd b * 32 + snd t)))
    d.

(** One block of the tiled kernel: every thread runs to the barrier, then
    every thread runs the rest. *)
Definition run_block_2 (N omega : Z) (u_tilda : list Z)
    (garbage : Z -> Z -> Z) (order : list (Z * Z)) (b : Z * Z) (d : device)
  : result device :=
  d ← load_phase N u_tilda order b (enter_block garbage d);
  for_each order
    (fun t => exec (discretise_poisson_gpu_2_compute N omega (fst t) (snd t)
                      (fst b * 32 + fst t) (snd b * 32 + snd t)))
    d.

(** [eval_gpu_2(u_tilda)], with the globals [N] and [omega] as arguments.
    [garbage b] is what the shared array of block [b] holds when the block
    starts; [order] is the order in which the threads of a block run in each
    phase. *)
Definition eval_gpu_2 (N omega : Z) (u_tilda : list Z)
    (garbage : Z * Z -> Z -> Z -> Z) (order : list (Z * Z)) : result ndarray :=
  f ← np_empty ((N - 2) ^ 2);
  let nblocks := ((N - 2) + 31) / 32 in
  d ← for_each (blocks nblocks)
        (fun b => run_block_2 N omega u_tilda (garbage b) order b)
        {| out := f; local_u := fun _ _ => 0; trace := [] |};
  Ok (out d).

(** ** What the builder emits, cell by cell *)

(** The triplets the loop body writes at column [i] of row [j], in the order
    of the slots, and the value it writes into [f]. *)
Definition cell_entries (N j i : Z) : list (Z * Z * Z) :=
  let k := j * N + i in
  if (i =? 0) || (i =? N - 1) || (j =? 0) || (j =? N - 1) then
    [(float32 k, float32 k, float32 1)]
  else
    [(float32 k, float32 k, float32 (4 * (N - 1) ^ 2));
     (float32 k, float32 (k + 1), float32 (- (N - 1) ^ 2));
     (float32 k, float32 (k - 1), float32 (- (N - 1) ^ 2));
     (float32 k, float32 ((j + 1) * N + i), float32 (- (N - 1) ^ 2));
     (float32 k, float32 ((j - 1) * N + i), float32 (- (N - 1) ^ 2))].

Definition cell_rhs (N j i : Z) : Z :=
  if (i =? 0) || (i =? N - 1) || (j =? 0) || (j =? N - 1)
  then float32 0 else float32 1.

Definition emitted (N : Z) : list (Z * Z * Z) :=
  j ← range N; i ← range N; cell_entries N j i.

Definition emitted_rhs (N : Z) : list Z :=
  j ← range N; cell_rhs N j <$> range N.

(** An array whose first slots hold [w] and whose last [n] slots are
    unwritten. *)
Definition filled (w : list Z) (n : nat) : ndarray :=
  (Some <$> w) ++ replicate n None.

(** The builder's state once it has emitted [es] and [fs]. *)
Definition builder_state (es : list (Z * Z * Z)) (fs : list Z) (n m : nat)
  : coo_arrays :=
  {| row_ind := filled ((fun e => fst (fst e)) <$> es) n;
     col_ind := filled ((fun e => snd (fst e)) <$> es) n;
     data := filled (snd <$> es) n;
     rhs := filled fs m;
     count := Z.of_nat (length es) |}.

(** The triplets of the five-point stencil at column [i] of row [j], as
    exact integers. *)
Definition stencil_entries (N j i : Z) : list (Z * Z * Z) :=
  let k := j * N + i in
  if (i =? 0) || (i =? N - 1) || (j =? 0) || (j =? N - 1) then
    [(k, k, 1)]
  else
    [(k, k, 4 * (N - 1) ^ 2);
     (k, k + 1, - (N - 1) ^ 2);
     (k, k - 1, - (N - 1) ^ 2);
     (k, k + N, - (N - 1) ^ 2);
     (k, k - N, - (N - 1) ^ 2)].

Definition stencil (N : Z) : list (Z * Z * Z) :=
  j ← range N; i ← range N; stencil_entries N j i.

(** The triplets of [A] in row [k], in the order of the arrays. *)
Definition row_entries (A : list (Z * Z * Z)) (k : Z) : list (Z * Z * Z) :=
  filter (fun e => fst (fst e) = k) A.

(** ** What the kernels compute, slot by slot *)

(** The value the naive kernel writes into slot [k]. *)
Definition naive_out (N : Z) (u : list Z) (k : Z) : Z :=
  let i := k mod N in
  let j := k / N in
  if (i =? 0) || (i =? N - 1) || (j =? 0) || (j =? N - 1) then vec_get u k
  else (N - 1) ^ 2 * (4 * vec_get u k - vec_get u (k + N) - vec_get u (k - N)
                      - vec_get u (k - 1) - vec_get u (k + 1)).

(** The value the naive kernel writes into slot [k] in single precision. *)
Definition naive_out_f32 (N : Z) (u : list Z) (k : Z) : Z :=
  let i := k mod N in
  let j := k / N in
  if (i =? 0) || (i =? N - 1) || (j =? 0) || (j =? N - 1) then vec_get u k
  else
    float32 ((N - 1) ^ 2
             * float32 (float32 (float32 (float32 (float32 (4 * vec_get u k)
                                                   - vec_get u (k + N))
                                          - vec_get u (k - N))
                                 - vec_get u (k - 1))
                        - vec_get u (k + 1))).

(** Weakest precondition of a thread: it runs without a fault and ends in a
    state that satisfies [Q]. *)
Definition wp {A : Type} (m : kernel A) (Q : A -> device -> Prop) (d : device)
  : Prop :=
  exists x d', m d = Ok (x, d') /\ Q x d'.

(** The slots in [K] of the output hold what [spec] says. *)
Definition slots_ok (spec : Z -> Z) (K : Z -> Prop) (o : ndarray) : Prop :=
  forall k, K k -> 0 <= k /\ o !! Z.to_nat k = Some (Some (spec k)).

(** Slot [k] of a [W] x [W] grid belongs to a thread of block [b]. *)
Definition in_block (W : Z) (b : Z * Z) (k : Z) : Prop :=
  exists t, t ∈ block_threads /\
    fst b * 32 + fst t < W /\ snd b * 32 + snd t < W /\
    k = (snd b * 32 + snd t) * W + (fst b * 32 + fst t).

(** The interior grid with its zero boundary: the value at column [x] of row
    [y] of the [n] x [n] interior, and [0] around it. *)
Definition padded (n : Z) (u : list Z) (x y : Z) : Z :=
  if (0 <=? x) && (x <? n) && (0 <=? y) && (y <? n)
  then vec_get u (y * n + x) else 0.

(** The value the tiled kernel writes into slot [pk]. *)
Definition tiled_out (N omega : Z) (u : list Z) (pk : Z) : Z :=
  let pi := pk mod (N - 2) in
  let pj := pk / (N - 2) in
  (N - 1) ^ 2 * (4 * padded (N - 2) u pi pj
                 - padded (N - 2) u (pi + 1) pj - padded (N - 2) u (pi - 1) pj
                 - padded (N - 2) u pi (pj - 1) - padded (N - 2) u pi (pj + 1))
  + omega ^ 2 * padded (N - 2) u pi pj.

(** What cell [(a, c)] of the shared array of block [b] stands for. *)
Definition target (N : Z) (u : list Z) (b : Z * Z) (a c : Z) : Z :=
  padded (N - 2) u (fst b * 32 + a - 1) (snd b * 32 + c - 1).

(** The cells in [G] hold what they stand for. *)
Definition cells_ok (N : Z) (u : list Z) (b : Z * Z) (G : Z -> Z -> Prop)
    (l : Z -> Z -> Z) : Prop :=
  forall a c, G a c -> l a c = target N u b a c.

(** Every global access of a trace lies within an array of [len] slots. *)
Definition in_range (len : Z) (tr : list access) : Prop :=
  Forall (fun acc => match acc with
                     | GRead k | GWrite k => 0 <= k < len
                     | _ => True
                     end) tr.

(** The state of a block while its threads load: [d0] is an earlier state,
    [tr] the accesses since then. *)
Definition loading (N : Z) (u : list Z) (b : Z * Z) (d0 : device)
    (G : Z -> Z -> Prop) (tr : list access) (d : device) : Prop :=
  out d = out d0 /\ cells_ok N u b G (local_u d) /\
  trace d = trace d0 ++ tr /\ in_range ((N - 2) * (N - 2)) tr.

(** The accesses of one thread before the barrier, in program order. *)
Definition load_trace (N i j pi pj : Z) : list access :=
  if (N - 2 <=? pi) || (N - 2 <=? pj) then []
  else
    let pk := pj * (N - 2) + pi in
    [GRead pk; SWrite (i + 1) (j + 1)]
    ++ (if (i =? 0) && negb (pi =? 0)
        then [GRead (pk - 1); SWrite i (j + 1)] else [])
    ++ (if (j =? 0) && negb (pj =? 0)
        then [GRead (pk - (N - 2)); SWrite (i + 1) j] else [])
    ++ (if (i =? SX - 1) && negb (pi =? (N - 2) - 1)
        then [GRead (pk + 1); SWrite (haloSX - 1) (j + 1)] else [])
    ++ (if (j =? SY - 1) && negb (pj =? (N - 2) - 1)
        then [GRead (pk + (N - 2)); SWrite (i + 1) (haloSY - 1)] else [])
    ++ (if pi =? 0 then [SWrite i (j + 1)] else [])
    ++ (if pj =? 0 then [SWrite (i + 1) j] else [])
    ++ (if pi =? (N - 2) - 1 then [SWrite (i + 2) (j + 1)] else [])
    ++ (if pj =? (N - 2) - 1 then [SWrite (i + 1) (j + 2)] else []).

(** The cells that the thread [t] of block [b] writes before the barrier. *)
Definition loads (N : Z) (b t : Z * Z) (a c : Z) : Prop :=
  let i := fst t in
  let j := snd t in
  let pi := fst b * 32 + i in
  let pj := snd b * 32 + j in
  pi < N - 2 /\ pj < N - 2 /\
  ((a = i + 1 /\ c = j + 1) \/
   (i = 0 /\ a = 0 /\ c = j + 1) \/
   (j = 0 /\ a = i + 1 /\ c = 0) \/
   ((i = 31 \/ pi = N - 3) /\ a = i + 2 /\ c = j + 1) \/
   ((j = 31 \/ pj = N - 3) /\ a = i + 1 /\ c = j + 2)).

(** The number of reads of global memory in a trace. *)
Definition global_reads (tr : list access) : Z :=
  foldr (fun acc n => match acc with GRead _ => n + 1 | _ => n end) 0 tr.


(** Run from [d], the thread [m] writes slot [k] of the output. *)
Definition writes_slot (m : kernel unit) (d : device) (k : Z) : Prop :=
  exists d' tr, exec m d = Ok d' /\ trace d' = trace d ++ tr /\ GWrite k ∈ tr.

(** The four corner cells of the shared array. *)
Definition corner (a c : Z) : bool :=
  ((a =? 0) || (a =? haloSX - 1)) && ((c =? 0) || (c =? haloSY - 1)).

(** The vector of length [len] that is [1] at index [k] and [0] elsewhere. *)
Definition unit_vec (len k : Z) : list Z :=
  (fun idx => if idx =? k then 1 else 0) <$> range len.

(** ** Vectors *)

(** Slot [k] of the [N] x [N] grid lies on the boundary. *)
Definition on_boundary (N k : Z) : bool :=
  let i := k mod N in
  let j := k / N in
  (i =? 0) || (i =? N - 1) || (j =? 0) || (j =? N - 1).

(** [a * u + b * v], entry by entry. *)
Definition lin (a b : Z) (u v : list Z) : list Z :=
  zip_with (fun x y => a * x + b * y) u v.

(** The dot product of [u] and [v]. *)
Definition dot (u v : list Z) : Z := foldr Z.add 0 (zip_with Z.mul u v).

(** The sum of [f k] over [k] in [range(n)], and the sum of [F i j] over the
    nodes of an [n] x [n] grid, in the order of the flat index. *)
Definition sum_range (f : Z -> Z) (n : Z) : Z := foldr Z.add 0 (f <$> range n).

Definition grid_sum (n : Z) (F : Z -> Z -> Z) : Z :=
  sum_range (fun k => F (k mod n) (k / n)) (n * n).

(** * Properties *)

Example discretise_poisson_3 :
  discretise_poisson 3 = Ok {|
    row_ind := Some <$> [0; 1; 2; 3; 4; 4; 4; 4; 4; 5; 6; 7; 8];
    col_ind := Some <$> [0; 1; 2; 3; 4; 5; 3; 7; 1; 5; 6; 7; 8];
    data := Some <$> [1; 1; 1; 1; 16; -4; -4; -4; -4; 1; 1; 1; 1];
    rhs := Some <$> [0; 0; 0; 0; 1; 0; 0; 0; 0];
    count := 13 |}.
Proof. reflexivity. Qed.

Example float32_ties :
  float32 16777215 = 16777215 /\ float32 16777217 = 16777216 /\
  float32 16777219 = 16777220 /\ float32 16781313 = 16781312 /\
  float32 (-33554435) = -33554436.
Proof. repeat split; reflexivity. Qed.

Example eval_gpu_3 :
  eval_gpu 3 [1; 2; 3; 4; 5; 6; 7; 8; 9] block_threads
  = Ok (Some <$> [1; 2; 3; 4; 0; 6; 7; 8; 9]).
Proof. vm_compute. reflexivity. Qed.

Example eval_gpu_2_4 :
  eval_gpu_2 4 2 [1; 2; 3; 4] (fun _ a b => a + 100 * b) block_threads
  = Ok (Some <$> [-5; 35; 75; 115]).
Proof. vm_compute. reflexivity. Qed.

(** ** The builder fills its arrays front to back *)

Lemma length_filled w n : length (filled w n) = (length w + n)%nat.
Proof. unfold filled. by rewrite length_app, length_fmap, length_replicate. Qed.

Lemma filled_snoc w n v :
  <[length w := Some v]> (filled w (S n)) = filled (w ++ [v]) n.
Proof.
  unfold filled.
  replace (length w) with (length (Some <$> w) + 0)%nat
    by (rewrite length_fmap; lia).
  rewrite insert_app_r, fmap_app, <- app_assoc. reflexivity.
Qed.

Lemma setitem_filled w n k v :
  k = Z.of_nat (length w) ->
  setitem (filled w (S n)) k v = Ok (filled (w ++ [v]) n).
Proof.
  intros ->. unfold setitem, py_index. rewrite length_filled.
  destruct (Z.ltb_spec (Z.of_nat (length w)) 0); [lia|].
  destruct (Z.leb_spec 0 (Z.of_nat (length w))); [|lia].
  destruct (Z.ltb_spec (Z.of_nat (length w)) (Z.of_nat (length w + S n)));
    [|lia].
  simpl. rewrite Nat2Z.id, filled_snoc. reflexivity.
Qed.

Lemma setslice_filled w n m k v :
  k = Z.of_nat (length w) ->
  setslice (filled w (m + n)) k (k + Z.of_nat m) v
  = filled (w ++ replicate m v) n.
Proof.
  intros ->. unfold setslice, slice_bound. rewrite length_filled.
  destruct (Z.ltb_spec (Z.of_nat (length w)) 0); [lia|].
  destruct (Z.ltb_spec (Z.of_nat (length w) + Z.of_nat m) 0); [lia|].
  apply list_eq. intros idx. rewrite list_lookup_imap. unfold filled.
  rewrite fmap_app, <- app_assoc, fmap_replicate.
  destruct (decide (idx < length w)%nat) as [Hlt|Hge].
  - rewrite !lookup_app_l by (rewrite length_fmap; lia).
    destruct ((Some <$> w) !! idx) eqn:E; simpl; [|done].
    destruct (Z.leb_spec
      (0 `max` ((Z.of_nat (length w + (m + n))) `min` Z.of_nat (length w)))
      (Z.of_nat idx)); [lia|done].
  - rewrite !lookup_app_r by (rewrite length_fmap; lia).
    rewrite length_fmap.
    destruct (decide (idx - length w < m)%nat) as [Hm|Hm].
    + rewrite lookup_app_l by (rewrite length_replicate; lia).
      rewrite !lookup_replicate_2 by lia. simpl.
      destruct (Z.leb_spec
        (0 `max` ((Z.of_nat (length w + (m + n))) `min` Z.of_nat (length w)))
        (Z.of_nat idx)); [|lia].
      destruct (Z.ltb_spec (Z.of_nat idx)
        (0 `max` ((Z.of_nat (length w + (m + n)))
                  `min` (Z.of_nat (length w) + Z.of_nat m)))); [done|lia].
    + rewrite lookup_app_r by (rewrite length_replicate; lia).
      rewrite length_replicate.
      destruct (decide (idx - length w - m < n)%nat) as [Hn|Hn].
      * rewrite !lookup_replicate_2 by lia. simpl.
        destruct (Z.ltb_spec (Z.of_nat idx)
          (0 `max` ((Z.of_nat (length w + (m + n)))
                    `min` (Z.of_nat (length w) + Z.of_nat m)))); [lia|].
        by rewrite andb_false_r.
      * assert (replicate (m + n) (@None Z) !! (idx - length w)%nat = None)
          as -> by (apply lookup_replicate_None; lia).
        assert (replicate n (@None Z) !! (idx - length w - m)%nat = None)
          as -> by (apply lookup_replicate_None; lia).
        done.
Qed.

Ltac setitem_step :=
  rewrite setitem_filled
    by (rewrite ?length_app, ?length_fmap; cbn [length]; lia);
  cbn [mbind result_bind].

Lemma poisson_cell_step N j i es fs n m :
  j * N + i = Z.of_nat (length fs) ->
  poisson_cell N j i
    (builder_state es fs (length (cell_entries N j i) + n) (S m))
  = Ok (builder_state (es ++ cell_entries N j i) (fs ++ [cell_rhs N j i]) n m).
Proof.
  intros Hk. unfold poisson_cell, cell_entries, cell_rhs.
  destruct ((i =? 0) || (i =? N - 1) || (j =? 0) || (j =? N - 1)).
  - cbn [length Nat.add builder_state row_ind col_ind data rhs count].
    do 4 setitem_step. unfold builder_state.
    rewrite !fmap_app, length_app. cbn [length fmap list_fmap fst snd].
    do 2 f_equal. lia.
  - cbn [length Nat.add builder_state row_ind col_ind data rhs count].
    do 7 setitem_step.
    replace (Z.of_nat (length es) + 5)
      with (Z.of_nat (length es) + Z.of_nat 5) by lia.
    rewrite (setslice_filled _ n 5) by (rewrite ?length_fmap; lia).
    replace (Z.of_nat (length es) + Z.of_nat 5)
      with (Z.of_nat (length es) + 1 + Z.of_nat 4) by lia.
    rewrite (setslice_filled _ n 4)
      by (rewrite length_app, length_fmap; simpl; lia).
    unfold builder_state.
    rewrite !fmap_app, length_app, <- !app_assoc.
    cbn [length fmap list_fmap fst snd replicate app].
    do 2 f_equal. lia.
Qed.

Lemma row_loop N j (len : nat) : forall a es fs n m,
  j * N + a = Z.of_nat (length fs) ->
  for_each (seqZ a (Z.of_nat len)) (poisson_cell N j)
    (builder_state es fs
       (length (seqZ a (Z.of_nat len) ≫= cell_entries N j) + n) (len + m))
  = Ok (builder_state (es ++ (seqZ a (Z.of_nat len) ≫= cell_entries N j))
          (fs ++ (cell_rhs N j <$> seqZ a (Z.of_nat len))) n m).
Proof.
  induction len as [|len IH]; intros a es fs n m Ha.
  - rewrite seqZ_nil by lia. simpl. by rewrite !app_nil_r.
  - rewrite seqZ_cons by lia.
    replace (Z.pred (Z.of_nat (S len))) with (Z.of_nat len) by lia.
    rewrite bind_cons, fmap_cons, length_app.
    cbn [for_each]. rewrite <- Nat.add_assoc. cbn [Nat.add].
    rewrite poisson_cell_step by done. cbn [mbind result_bind].
    rewrite IH by (rewrite length_app; simpl; lia).
    by rewrite <- !app_assoc.
Qed.

Lemma grid_loop N (len : nat) : 0 <= N -> forall b es fs n m,
  b * N = Z.of_nat (length fs) ->
  for_each (seqZ b (Z.of_nat len))
    (fun j => for_each (range N) (fun i => poisson_cell N j i))
    (builder_state es fs
       (length (seqZ b (Z.of_nat len) ≫= fun j => range N ≫= cell_entries N j)
        + n)
       (len * Z.to_nat N + m))
  = Ok (builder_state
          (es ++ (seqZ b (Z.of_nat len) ≫= fun j => range N ≫= cell_entries N j))
          (fs ++ (seqZ b (Z.of_nat len) ≫= fun j => cell_rhs N j <$> range N))
          n m).
Proof.
  intros HN. induction len as [|len IH]; intros b es fs n m Hb.
  - rewrite seqZ_nil by lia. simpl. by rewrite !app_nil_r.
  - rewrite seqZ_cons by lia.
    replace (Z.pred (Z.of_nat (S len))) with (Z.of_nat len) by lia.
    rewrite !bind_cons, length_app.
    cbn [for_each]. rewrite <- !Nat.add_assoc.
    replace (S len * Z.to_nat N + m)%nat
      with (Z.to_nat N + (len * Z.to_nat N + m))%nat by lia.
    unfold range at 1 2 3. rewrite <- (Z2Nat.id N) at 1 5 9 by done.
    pose proof (row_loop N b (Z.to_nat N) 0 es fs) as Hrow.
    rewrite (Z2Nat.id N) in Hrow by done.
    rewrite !(Z2Nat.id N) by done.
    change (λ i : Z, poisson_cell N b i) with (poisson_cell N b).
    rewrite Hrow by lia. cbn [mbind result_bind]. fold (range N).
    rewrite IH.
    + by rewrite <- !app_assoc.
    + rewrite length_app, length_fmap. unfold range.
      rewrite length_seqZ. lia.
Qed.

Lemma length_bind_const {A B : Type} (g : A -> list B) (l : list A) (c : nat) :
  (forall x, x ∈ l -> length (g x) = c) ->
  length (l ≫= g) = (c * length l)%nat.
Proof.
  induction l as [|x l IH]; intros Hc.
  - simpl. lia.
  - rewrite bind_cons, length_app, IH, Hc; [simpl; lia|left|].
    intros y Hy. apply Hc. by right.
Qed.

Lemma seqZ_one a : seqZ a 1 = [a].
Proof. rewrite seqZ_cons by lia. by rewrite seqZ_nil by lia. Qed.

Lemma range_ends N : 2 <= N -> range N = 0 :: seqZ 1 (N - 2) ++ [N - 1].
Proof.
  intros HN. unfold range. rewrite seqZ_cons by lia. f_equal.
  replace (Z.pred N) with ((N - 2) + 1) by lia.
  rewrite seqZ_app by lia. rewrite seqZ_one. do 2 f_equal. lia.
Qed.

Lemma length_cell_boundary N j i :
  (i =? 0) || (i =? N - 1) || (j =? 0) || (j =? N - 1) = true ->
  length (cell_entries N j i) = 1%nat.
Proof. intros H. unfold cell_entries. by rewrite H. Qed.

Lemma length_cell_interior N j i :
  (i =? 0) || (i =? N - 1) || (j =? 0) || (j =? N - 1) = false ->
  length (cell_entries N j i) = 5%nat.
Proof. intros H. unfold cell_entries. by rewrite H. Qed.

Lemma length_row N j :
  2 <= N ->
  Z.of_nat (length (range N ≫= cell_entries N j))
  = if (j =? 0) || (j =? N - 1) then N else 5 * N - 8.
Proof.
  intros HN. rewrite range_ends by done.
  rewrite bind_cons, bind_app, !length_app, bind_cons, length_app.
  rewrite !length_cell_boundary by (rewrite ?Z.eqb_refl, ?orb_true_r; done).
  destruct ((j =? 0) || (j =? N - 1)) eqn:Hj.
  - rewrite (length_bind_const _ _ 1).
    + rewrite length_seqZ. simpl. lia.
    + intros i _. apply length_cell_boundary.
      rewrite <- !orb_assoc in *. rewrite Hj. by rewrite !orb_true_r.
  - rewrite (length_bind_const _ _ 5).
    + rewrite length_seqZ. simpl. lia.
    + intros i Hi%elem_of_seqZ. apply length_cell_interior.
      apply orb_false_elim in Hj as [-> ->]. rewrite !orb_false_r.
      apply orb_false_intro; lia.
Qed.

Lemma length_emitted N :
  2 <= N -> Z.of_nat (length (emitted N)) = 5 * N ^ 2 - 16 * N + 16.
Proof.
  intros HN. unfold emitted. rewrite range_ends at 1 by done.
  rewrite bind_cons, bind_app, !length_app, bind_cons, length_app.
  simpl (length ([] ≫= _)).
  rewrite (length_bind_const _ (seqZ 1 (N - 2)) (Z.to_nat (5 * N - 8))).
  - rewrite length_seqZ. rewrite !Nat2Z.inj_add, Nat2Z.inj_mul.
    rewrite !length_row by done.
    rewrite !Z.eqb_refl, orb_true_r. cbn [orb].
    rewrite !Z2Nat.id by lia. change (Z.of_nat 0) with 0. ring.
  - intros j Hj%elem_of_seqZ. apply Nat2Z.inj. rewrite length_row by done.
    destruct (Z.eqb_spec j 0); [lia|]. destruct (Z.eqb_spec j (N - 1)); [lia|].
    simpl. lia.
Qed.

Lemma length_emitted_rhs N :
  length (emitted_rhs N) = (Z.to_nat N * Z.to_nat N)%nat.
Proof.
  unfold emitted_rhs. rewrite (length_bind_const _ _ (Z.to_nat N)).
  - unfold range. rewrite length_seqZ. lia.
  - intros j _. unfold range. by rewrite length_fmap, length_seqZ.
Qed.

Lemma nelements_pos N : 0 < 5 * N ^ 2 - 16 * N + 16.
Proof.
  rewrite Z.pow_2_r.
  destruct (Z.eq_dec N 0) as [->|Hne]; [lia|].
  assert (0 <= (2 * N - 4) * (2 * N - 4)) by apply Z.square_nonneg.
  assert (0 < N * N) by nia. lia.
Qed.

(** The builder never raises by itself, as long as the slots suffice. *)
Lemma discretise_poisson_run N :
  (length (emitted N) <= Z.to_nat (5 * N ^ 2 - 16 * N + 16))%nat ->
  discretise_poisson N
  = Ok (builder_state (emitted N) (emitted_rhs N)
          (Z.to_nat (5 * N ^ 2 - 16 * N + 16) - length (emitted N))
          (Z.to_nat (N * N) - length (emitted_rhs N))).
Proof.
  intros Hroom. unfold discretise_poisson, np_empty.
  pose proof (nelements_pos N) as Hpos.
  destruct (Z.ltb_spec (5 * N ^ 2 - 16 * N + 16) 0); [lia|].
  destruct (Z.ltb_spec (N * N) 0); [nia|].
  cbn [mbind result_bind].
  change {| row_ind := replicate (Z.to_nat (5 * N ^ 2 - 16 * N + 16)) None;
            col_ind := replicate (Z.to_nat (5 * N ^ 2 - 16 * N + 16)) None;
            data := replicate (Z.to_nat (5 * N ^ 2 - 16 * N + 16)) None;
            rhs := replicate (Z.to_nat (N * N)) None;
            count := 0 |}
    with (builder_state [] [] (Z.to_nat (5 * N ^ 2 - 16 * N + 16))
            (Z.to_nat (N * N))).
  destruct (Z.le_gt_cases 0 N) as [HN|HN].
  - pose proof (grid_loop N (Z.to_nat N) HN 0 [] []
      (Z.to_nat (5 * N ^ 2 - 16 * N + 16) - length (emitted N))
      (Z.to_nat (N * N) - length (emitted_rhs N))) as Hloop.
    rewrite (Z2Nat.id N) in Hloop by done. fold (range N) in Hloop.
    change (range N ≫= λ j : Z, range N ≫= cell_entries N j)
      with (emitted N) in Hloop.
    fold (emitted_rhs N) in Hloop.
    replace (length (emitted N)
             + (Z.to_nat (5 * N ^ 2 - 16 * N + 16) - length (emitted N)))%nat
      with (Z.to_nat (5 * N ^ 2 - 16 * N + 16)) in Hloop by lia.
    replace (Z.to_nat N * Z.to_nat N
             + (Z.to_nat (N * N) - length (emitted_rhs N)))%nat
      with (Z.to_nat (N * N)) in Hloop
      by (rewrite length_emitted_rhs; nia).
    apply Hloop. simpl. lia.
  - unfold emitted, emitted_rhs, range. rewrite !seqZ_nil by lia. simpl.
    by rewrite !Nat.sub_0_r.
Qed.

Lemma discretise_poisson_full N :
  2 <= N -> discretise_poisson N = Ok (builder_state (emitted N) (emitted_rhs N) 0 0).
Proof.
  intros HN. pose proof (length_emitted N HN) as Hlen.
  rewrite discretise_poisson_run by lia.
  do 2 f_equal; [lia|]. rewrite length_emitted_rhs. nia.
Qed.

Lemma mapM_id_Some (w : list Z) : mapM id (Some <$> w) = Some w.
Proof. apply mapM_Some. induction w; constructor; done. Qed.

Lemma zip3_proj (es : list (Z * Z * Z)) :
  zip (zip ((fun e => fst (fst e)) <$> es) ((fun e => snd (fst e)) <$> es))
      (snd <$> es) = es.
Proof. induction es as [|[[r c] v] es IH]; simpl; by f_equal. Qed.

Lemma coo_matrix_full es fs m :
  coo_matrix (builder_state es fs 0 m) = Some es.
Proof.
  unfold coo_matrix, builder_state, filled. cbn [row_ind col_ind data replicate].
  rewrite !app_nil_r, !mapM_id_Some. simpl. by rewrite zip3_proj.
Qed.

(** ** float32 is exact on the integers a grid of at most 4096 x 4096 needs *)

Lemma float32_exact n : Z.abs n < 2 ^ 24 -> float32 n = n.
Proof.
  intros H. unfold float32. by destruct (Z.ltb_spec (Z.abs n) (2 ^ 24)); [|lia].
Qed.

Lemma float32_exact_4 m : Z.abs m < 2 ^ 24 -> float32 (4 * m) = 4 * m.
Proof.
  intros Hm. unfold float32.
  destruct (Z.ltb_spec (Z.abs (4 * m)) (2 ^ 24)) as [|Hbig]; [done|].
  assert (Z.abs (4 * m) = 4 * Z.abs m) as Ha by lia.
  assert (0 < Z.abs (4 * m)) as Hpos by lia.
  assert (24 <= Z.log2 (Z.abs (4 * m))) as Hlo
    by (apply Z.log2_le_pow2; lia).
  assert (Z.log2 (Z.abs (4 * m)) < 26) as Hhi
    by (apply Z.log2_lt_pow2; lia).
  assert (Z.log2 (Z.abs (4 * m)) = 24 \/ Z.log2 (Z.abs (4 * m)) = 25)
    as [-> | ->] by lia.
  - change (2 ^ (24 - 23)) with 2. change (2 ^ (24 - 23 - 1)) with 1.
    assert (Z.abs (4 * m) mod 2 = 0) as ->
      by (Z.to_euclidean_division_equations; lia).
    cbn [Z.ltb Z.compare].
    assert (Z.abs (4 * m) / 2 * 2 = Z.abs (4 * m)) as ->
      by (Z.to_euclidean_division_equations; lia).
    lia.
  - change (2 ^ (25 - 23)) with 4. change (2 ^ (25 - 23 - 1)) with 2.
    assert (Z.abs (4 * m) mod 4 = 0) as ->
      by (Z.to_euclidean_division_equations; lia).
    cbn [Z.ltb Z.compare].
    assert (Z.abs (4 * m) / 4 * 4 = Z.abs (4 * m)) as ->
      by (Z.to_euclidean_division_equations; lia).
    lia.
Qed.

Lemma flat_index_bound N j i :
  0 <= i < N -> 0 <= j < N -> 0 <= j * N + i < N * N.
Proof. nia. Qed.

Lemma cell_entries_exact N j i :
  2 <= N <= 4096 -> 0 <= i < N -> 0 <= j < N ->
  cell_entries N j i = stencil_entries N j i.
Proof.
  intros HN Hi Hj. unfold cell_entries, stencil_entries.
  pose proof (flat_index_bound N j i Hi Hj) as Hk.
  assert (N * N <= 2 ^ 24) as HNN by (change (2 ^ 24) with (4096 * 4096); nia).
  assert (0 <= (N - 1) ^ 2 < 2 ^ 24) as Hh
    by (rewrite Z.pow_2_r; change (2 ^ 24) with (4096 * 4096); nia).
  destruct ((i =? 0) || (i =? N - 1) || (j =? 0) || (j =? N - 1)) eqn:Hb.
  - rewrite !float32_exact by lia. reflexivity.
  - apply orb_false_elim in Hb as [Hb Hj1].
    apply orb_false_elim in Hb as [Hb Hj0].
    apply orb_false_elim in Hb as [Hi0 Hi1].
    apply Z.eqb_neq in Hi0, Hi1, Hj0, Hj1.
    assert (0 <= (j - 1) * N + i /\ (j + 1) * N + i < N * N) by nia.
    replace ((j + 1) * N + i) with (j * N + i + N) in * by ring.
    replace ((j - 1) * N + i) with (j * N + i - N) in * by ring.
    rewrite float32_exact_4 by lia.
    rewrite !float32_exact by lia.
    reflexivity.
Qed.

Lemma emitted_exact N : 2 <= N <= 4096 -> emitted N = stencil N.
Proof.
  intros HN. unfold emitted, stencil. apply Forall_bind_ext, Forall_forall.
  intros j Hj%elem_of_seqZ. apply Forall_bind_ext, Forall_forall.
  intros i Hi%elem_of_seqZ. apply cell_entries_exact; lia.
Qed.

(** ** Rows of the matrix *)

Section filter_bind.
Context {A B : Type} (P : B -> Prop) `{!forall y, Decision (P y)}.
Context (g : A -> list B).

Lemma filter_bind_none (l : list A) :
  (forall x, x ∈ l -> Forall (fun y => ~ P y) (g x)) ->
  filter P (l ≫= g) = [].
Proof.
  induction l as [|x l IH]; intros Hl; [done|].
  rewrite bind_cons, filter_app, IH.
  - rewrite app_nil_r. specialize (Hl x (list_elem_of_here _ _)).
    induction Hl as [|y ys Hy _ IHys]; [done|].
    by rewrite filter_cons_False.
  - intros y Hy. apply Hl. by right.
Qed.

Lemma filter_bind_single (l : list A) (x0 : A) :
  NoDup l -> x0 ∈ l ->
  (forall x, x ∈ l -> x <> x0 -> Forall (fun y => ~ P y) (g x)) ->
  filter P (l ≫= g) = filter P (g x0).
Proof.
  induction 1 as [|x l Hx Hnd IH]; intros Hin Hother.
  - by apply elem_of_nil in Hin.
  - rewrite bind_cons, filter_app.
    apply elem_of_cons in Hin as [<-|Hin].
    + rewrite filter_bind_none; [by rewrite app_nil_r|].
      intros y Hy. apply Hother; [by right|]. intros ->. done.
    + rewrite IH; [|done|].
      * assert (filter P (g x) = []) as ->; [|done].
        assert (x <> x0) as Hne by (intros ->; done).
        specialize (Hother x (list_elem_of_here _ _) Hne).
        induction Hother as [|y ys Hy _ IHys]; [done|].
        by rewrite filter_cons_False.
      * intros y Hy. apply Hother. by right.
Qed.

Lemma filter_all (l : list B) : Forall P l -> filter P l = l.
Proof.
  induction 1 as [|y ys Hy _ IH]; [done|].
  by rewrite filter_cons_True, IH.
Qed.
End filter_bind.

Lemma stencil_entries_row N j i :
  Forall (fun e => fst (fst e) = j * N + i) (stencil_entries N j i).
Proof.
  unfold stencil_entries.
  destruct ((i =? 0) || (i =? N - 1) || (j =? 0) || (j =? N - 1));
    repeat constructor.
Qed.

Lemma flat_index_inj N j i j' i' :
  0 <= i < N -> 0 <= i' < N -> j * N + i = j' * N + i' -> j = j' /\ i = i'.
Proof. intros Hi Hi' Heq. assert (j = j') by nia. subst. lia. Qed.

Lemma row_entries_stencil N j i :
  0 <= i < N -> 0 <= j < N ->
  row_entries (stencil N) (j * N + i) = stencil_entries N j i.
Proof.
  intros Hi Hj. unfold row_entries, stencil.
  rewrite (filter_bind_single _ _ _ j).
  - rewrite (filter_bind_single _ _ _ i).
    + apply filter_all, stencil_entries_row.
    + apply NoDup_seqZ.
    + apply elem_of_seqZ. lia.
    + intros i' Hi'%elem_of_seqZ Hne.
      eapply Forall_impl; [apply stencil_entries_row|].
      intros e -> Heq. apply flat_index_inj in Heq; lia.
  - apply NoDup_seqZ.
  - apply elem_of_seqZ. lia.
  - intros j' Hj'%elem_of_seqZ Hne. apply Forall_bind.
    apply Forall_forall. intros i' Hi'%elem_of_seqZ.
    eapply Forall_impl; [apply stencil_entries_row|].
    intros e -> Heq. apply flat_index_inj in Heq; lia.
Qed.

Lemma row_dot_row_entries A u r :
  row_dot A u r = row_dot (row_entries A r) u r.
Proof.
  unfold row_entries. induction A as [|e A IH]; [done|].
  rewrite filter_cons. destruct (decide (fst (fst e) = r)) as [He|He].
  - cbn [row_dot foldr]. fold (row_dot A u r). by rewrite IH.
  - cbn [row_dot foldr]. fold (row_dot A u r).
    destruct (Z.eqb_spec (fst (fst e)) r); [done|]. by rewrite IH.
Qed.

Section lookup_bind.
Context {A B : Type} (g : A -> list B) (c : nat).

Lemma lookup_bind_const (l : list A) : forall (a b : nat) (x : A),
  (forall y, y ∈ l -> length (g y) = c) ->
  l !! a = Some x -> (b < c)%nat ->
  (l ≫= g) !! (a * c + b)%nat = g x !! b.
Proof.
  induction l as [|y l IH]; intros a b x Hc Ha Hb; [done|].
  rewrite bind_cons. destruct a as [|a].
  - injection Ha as ->. simpl.
    apply lookup_app_l. rewrite Hc; [done|left].
  - rewrite lookup_app_r by (rewrite Hc; [simpl; lia|left]).
    rewrite Hc by left.
    replace (S a * c + b - c)%nat with (a * c + b)%nat by (simpl; lia).
    apply IH; [|done..]. intros z Hz. apply Hc. by right.
Qed.
End lookup_bind.

Lemma lookup_range n k : 0 <= k < n -> range n !! Z.to_nat k = Some k.
Proof.
  intros Hk. unfold range. rewrite lookup_seqZ_lt by lia. f_equal. lia.
Qed.

Lemma lookup_emitted_rhs N j i :
  0 <= i < N -> 0 <= j < N ->
  emitted_rhs N !! Z.to_nat (j * N + i) = Some (cell_rhs N j i).
Proof.
  intros Hi Hj. unfold emitted_rhs.
  replace (Z.to_nat (j * N + i))
    with (Z.to_nat j * Z.to_nat N + Z.to_nat i)%nat by nia.
  rewrite (lookup_bind_const _ (Z.to_nat N) _ _ _ j).
  - by rewrite list_lookup_fmap, lookup_range.
  - intros y _. unfold range. by rewrite length_fmap, length_seqZ.
  - by apply lookup_range.
  - lia.
Qed.

(** ** Loops and threads *)

Lemma for_each_prefix {A S : Type} (I : list A -> S -> Prop)
    (body : A -> S -> result S) (xs : list A) (s : S) :
  I [] s ->
  (forall pre x s, I pre s -> x ∈ xs ->
     exists s', body x s = Ok s' /\ I (pre ++ [x]) s') ->
  exists s', for_each xs body s = Ok s' /\ I xs s'.
Proof.
  intros H0 Hstep.
  enough (forall ys pre s, I pre s -> (forall y, y ∈ ys -> y ∈ xs) ->
            exists s', for_each ys body s = Ok s' /\ I (pre ++ ys) s') as Hgen.
  { apply (Hgen xs [] s); auto. }
  clear s H0. induction ys as [|y ys IH]; intros pre s Hpre Hsub.
  - exists s. rewrite app_nil_r. auto.
  - destruct (Hstep pre y s Hpre) as (s1 & Hy & H1); [apply Hsub; left|].
    destruct (IH (pre ++ [y]) s1 H1) as (s2 & Hys & H2).
    { intros z Hz. apply Hsub. by right. }
    exists s2. cbn [for_each]. rewrite Hy. cbn [mbind result_bind].
    split; [done|]. by rewrite <- app_assoc in H2.
Qed.

Lemma elem_of_block_threads i j :
  (i, j) ∈ block_threads <-> 0 <= i < 32 /\ 0 <= j < 32.
Proof.
  unfold block_threads, range. rewrite list_elem_of_bind. split.
  - intros (j' & (i' & Hij & Hi%elem_of_seqZ)%list_elem_of_bind
              & Hj%elem_of_seqZ).
    apply list_elem_of_singleton in Hij. injection Hij as -> ->. lia.
  - intros [Hi Hj]. exists j. split; [|apply elem_of_seqZ; lia].
    apply list_elem_of_bind. exists i. split; [by left|apply elem_of_seqZ; lia].
Qed.

Lemma elem_of_blocks g bx by_ :
  (bx, by_) ∈ blocks g <-> 0 <= bx < g /\ 0 <= by_ < g.
Proof.
  unfold blocks, range. rewrite list_elem_of_bind. split.
  - intros (j' & (i' & Hij & Hi%elem_of_seqZ)%list_elem_of_bind
              & Hj%elem_of_seqZ).
    apply list_elem_of_singleton in Hij. injection Hij as -> ->. lia.
  - intros [Hi Hj]. exists by_. split; [|apply elem_of_seqZ; lia].
    apply list_elem_of_bind. exists bx. split; [by left|apply elem_of_seqZ; lia].
Qed.

Lemma getitem_ok (a : list Z) k :
  0 <= k < Z.of_nat (length a) -> getitem a k = Ok (vec_get a k).
Proof.
  intros Hk. unfold getitem, py_index, vec_get.
  destruct (Z.ltb_spec k 0); [lia|].
  destruct (Z.leb_spec 0 k); [|lia].
  destruct (Z.ltb_spec k (Z.of_nat (length a))); [|lia].
  cbn [andb mbind result_bind].
  destruct (lookup_lt_is_Some_2 a (Z.to_nat k)) as [v Hv]; [lia|].
  by rewrite Hv.
Qed.

Lemma setitem_ok (a : ndarray) k v :
  0 <= k < Z.of_nat (length a) ->
  setitem a k v = Ok (<[Z.to_nat k := Some v]> a).
Proof.
  intros Hk. unfold setitem, py_index.
  destruct (Z.ltb_spec k 0); [lia|].
  destruct (Z.leb_spec 0 k); [|lia].
  by destruct (Z.ltb_spec k (Z.of_nat (length a))); [|lia].
Qed.

Lemma sh_index_ok n k : 0 <= k < n -> sh_index n k = Ok k.
Proof.
  intros Hk. unfold sh_index.
  destruct (Z.ltb_spec k 0); [lia|].
  destruct (Z.leb_spec 0 k); [|lia].
  by destruct (Z.ltb_spec k n); [|lia].
Qed.

Section wp_rules.
Context {A B : Type}.

Lemma wp_ret (x : A) (Q : A -> device -> Prop) d : Q x d -> wp (mret x) Q d.
Proof. intros HQ. by exists x, d. Qed.

Lemma wp_bind (m : kernel A) (k : A -> kernel B) (Q : B -> device -> Prop) d :
  wp m (fun x d' => wp (k x) Q d') d -> wp (m ≫= k) Q d.
Proof.
  intros (x & d1 & Hm & y & d2 & Hk & HQ). exists y, d2. split; [|done].
  unfold mbind, kernel_bind. by rewrite Hm.
Qed.

Lemma wp_mono (m : kernel A) (Q Q' : A -> device -> Prop) d :
  wp m Q d -> (forall x d', Q x d' -> Q' x d') -> wp m Q' d.
Proof. intros (x & d' & Hm & HQ) HQQ. exists x, d'. auto. Qed.
End wp_rules.

Lemma wp_when (c : bool) (m : kernel unit) (Q : unit -> device -> Prop) d :
  (c = true -> wp m Q d) -> (c = false -> Q tt d) -> wp (when c m) Q d.
Proof.
  intros Ht Hf. unfold when. destruct c; [auto|]. apply wp_ret. auto.
Qed.

Lemma wp_gread (a : list Z) k (Q : Z -> device -> Prop) d :
  0 <= k < Z.of_nat (length a) ->
  Q (vec_get a k)
    {| out := out d; local_u := local_u d; trace := trace d ++ [GRead k] |} ->
  wp (gread a k) Q d.
Proof.
  intros Hk HQ. eexists _, _. split; [|exact HQ].
  unfold gread. by rewrite getitem_ok.
Qed.

Lemma wp_swrite a b a' b' v (Q : unit -> device -> Prop) d :
  sh_index haloSX a = Ok a' -> sh_index haloSY b = Ok b' ->
  Q tt {| out := out d; local_u := upd (local_u d) a' b' v;
          trace := trace d ++ [SWrite a' b'] |} ->
  wp (swrite a b v) Q d.
Proof.
  intros Ha Hb HQ. eexists _, _. split; [|exact HQ].
  unfold swrite. by rewrite Ha, Hb.
Qed.

Lemma wp_exec (m : kernel unit) (Q : device -> Prop) d :
  wp m (fun _ d' => Q d') d -> exists d', exec m d = Ok d' /\ Q d'.
Proof.
  intros ([] & d' & Hm & HQ). exists d'. unfold exec. by rewrite Hm.
Qed.

(** ** Filling the output, block by block *)

Lemma slots_ok_insert spec K (o : ndarray) k0 :
  slots_ok spec K o -> 0 <= k0 < Z.of_nat (length o) ->
  slots_ok spec (fun k => K k \/ k = k0) (<[Z.to_nat k0 := Some (spec k0)]> o).
Proof.
  intros HK Hk0 k [Hk| ->].
  - destruct (HK k Hk) as [Hpos Hlook]. split; [done|].
    destruct (decide (k = k0)) as [->|Hne].
    + apply list_lookup_insert_eq. lia.
    + rewrite list_lookup_insert_ne by lia. done.
  - split; [lia|]. apply list_lookup_insert_eq. lia.
Qed.

Lemma slots_ok_weaken spec (K K' : Z -> Prop) o :
  slots_ok spec K o -> (forall k, K' k -> K k) -> slots_ok spec K' o.
Proof. intros HK Hsub k Hk. apply HK, Hsub, Hk. Qed.

Lemma slots_ok_all spec (K : Z -> Prop) (o : ndarray) n :
  Z.of_nat (length o) = n -> slots_ok spec K o ->
  (forall k, 0 <= k < n -> K k) ->
  o = Some <$> (spec <$> range n).
Proof.
  intros Hlen HK Hall. apply list_eq. intros idx.
  rewrite !list_lookup_fmap. unfold range.
  destruct (decide (Z.of_nat idx < n)) as [Hlt|Hge].
  - rewrite lookup_seqZ_lt by done. simpl.
    destruct (HK (Z.of_nat idx)) as [_ Hlook]; [apply Hall; lia|].
    by rewrite Nat2Z.id in Hlook.
  - rewrite lookup_seqZ_ge by lia. simpl. apply lookup_ge_None. lia.
Qed.

Lemma launch_covers W k :
  0 <= W -> 0 <= k < W * W ->
  exists b, b ∈ blocks ((W + 31) / 32) /\ in_block W b k.
Proof.
  intros HW0 Hk. assert (0 < W) as HW by nia.
  assert (0 <= k mod W < W) as Hi by (apply Z.mod_pos_bound; lia).
  assert (0 <= k / W < W) as Hj
    by (split; [apply Z.div_pos; lia|apply Z.div_lt_upper_bound; lia]).
  pose proof (Z.div_mod k W ltac:(lia)) as Hdm.
  exists ((k mod W) / 32, (k / W) / 32). split.
  - apply elem_of_blocks. Z.to_euclidean_division_equations. lia.
  - exists ((k mod W) mod 32, (k / W) mod 32). cbn [fst snd]. split.
    + apply elem_of_block_threads. Z.to_euclidean_division_equations. lia.
    + assert (k mod W / 32 * 32 + k mod W mod 32 = k mod W) as ->
        by (Z.to_euclidean_division_equations; lia).
      assert (k / W / 32 * 32 + k / W mod 32 = k / W) as ->
        by (Z.to_euclidean_division_equations; lia).
      lia.
Qed.

Section launch.
Context (spec : Z -> Z) (W : Z).

(** A loop over the threads of block [b] in which every thread of the grid
    writes its own slot, and a thread off the grid writes nothing. *)
Lemma block_slots (b : Z * Z) (order : list (Z * Z))
    (body : Z * Z -> device -> result device) (Inv : device -> Prop)
    (K : Z -> Prop) (d : device) :
  0 <= fst b -> 0 <= snd b ->
  (forall t, t ∈ order <-> t ∈ block_threads) ->
  (forall t d, t ∈ block_threads -> Inv d ->
     Z.of_nat (length (out d)) = W * W ->
     exists d', body t d = Ok d' /\ Inv d' /\
       out d' =
         if (fst b * 32 + fst t <? W) && (snd b * 32 + snd t <? W)
         then <[Z.to_nat ((snd b * 32 + snd t) * W + (fst b * 32 + fst t))
                := Some (spec ((snd b * 32 + snd t) * W
                               + (fst b * 32 + fst t)))]> (out d)
         else out d) ->
  Inv d -> Z.of_nat (length (out d)) = W * W -> slots_ok spec K (out d) ->
  exists d', for_each order body d = Ok d' /\ Inv d' /\
    Z.of_nat (length (out d')) = W * W /\
    slots_ok spec (fun k => K k \/ in_block W b k) (out d').
Proof.
  intros Hbx Hby Horder Hbody HInv Hlen HK.
  destruct (for_each_prefix
    (fun pre d' => Inv d' /\ Z.of_nat (length (out d')) = W * W /\
       slots_ok spec (fun k => K k \/ exists t, t ∈ pre /\
           t ∈ block_threads /\
           fst b * 32 + fst t < W /\ snd b * 32 + snd t < W /\
           k = (snd b * 32 + snd t) * W + (fst b * 32 + fst t)) (out d'))
    body order d) as (d' & Hrun & HInv' & Hlen' & HK').
  - split_and!; [done..|]. eapply slots_ok_weaken; [exact HK|].
    intros k [Hk|(t & Ht%elem_of_nil & _)]; done.
  - intros pre t d1 (HInv1 & Hlen1 & HK1) Ht.
    apply Horder in Ht.
    destruct (Hbody t d1 Ht HInv1 Hlen1) as (d2 & Hrun2 & HInv2 & Hout2).
    exists d2. split; [done|]. split; [done|]. rewrite Hout2.
    destruct t as [i j]. cbn [fst snd] in *.
    pose proof Ht as Hij%elem_of_block_threads.
    destruct (Z.ltb_spec (fst b * 32 + i) W) as [Hx|Hx];
      [destruct (Z.ltb_spec (snd b * 32 + j) W) as [Hy|Hy]|];
      cbn [andb].
    + split; [rewrite length_insert; done|].
      eapply slots_ok_weaken; [apply slots_ok_insert; [exact HK1|nia]|].
      cbn beta. intros k [Hk|(t' & [Ht'|Ht']%elem_of_app & Hrest)].
      * left. by left.
      * left. right. exists t'. done.
      * apply list_elem_of_singleton in Ht' as ->. right.
        cbn [fst snd] in Hrest. lia.
    + split; [done|]. eapply slots_ok_weaken; [exact HK1|].
      cbn beta. intros k [Hk|(t' & [Ht'|Ht']%elem_of_app & Hrest)].
      * by left.
      * right. exists t'. done.
      * apply list_elem_of_singleton in Ht' as ->.
        cbn [fst snd] in Hrest. lia.
    + split; [done|]. eapply slots_ok_weaken; [exact HK1|].
      cbn beta. intros k [Hk|(t' & [Ht'|Ht']%elem_of_app & Hrest)].
      * by left.
      * right. exists t'. done.
      * apply list_elem_of_singleton in Ht' as ->.
        cbn [fst snd] in Hrest. lia.
  - exists d'. split_and!; [done..|].
    eapply slots_ok_weaken; [exact HK'|].
    intros k [Hk|(t & Ht & Hrest)]; [by left|]. right.
    exists t. split; [|done]. by apply Horder.
Qed.

(** A launch in which every block fills the slots of its threads fills the
    output. *)
Lemma launch_slots (run : Z * Z -> device -> result device) (d : device) :
  0 <= W ->
  (forall b d K, b ∈ blocks ((W + 31) / 32) ->
     Z.of_nat (length (out d)) = W * W -> slots_ok spec K (out d) ->
     exists d', run b d = Ok d' /\ Z.of_nat (length (out d')) = W * W /\
       slots_ok spec (fun k => K k \/ in_block W b k) (out d')) ->
  Z.of_nat (length (out d)) = W * W ->
  exists d', for_each (blocks ((W + 31) / 32)) run d = Ok d' /\
    out d' = Some <$> (spec <$> range (W * W)).
Proof.
  intros HW Hrun Hlen.
  destruct (for_each_prefix
    (fun pre d' => Z.of_nat (length (out d')) = W * W /\
       slots_ok spec (fun k => exists b, b ∈ pre /\ in_block W b k) (out d'))
    run (blocks ((W + 31) / 32)) d) as (d' & Hfor & Hlen' & HK').
  - split; [done|]. intros k (b & Hb%elem_of_nil & _). done.
  - intros pre b d1 [Hlen1 HK1] Hb.
    destruct (Hrun b d1 _ Hb Hlen1 HK1) as (d2 & Hrun2 & Hlen2 & HK2).
    exists d2. split_and!; [done..|].
    eapply slots_ok_weaken; [exact HK2|]. cbn beta.
    intros k (b' & [Hb'|Hb']%elem_of_app & Hk).
    + left. eauto.
    + apply list_elem_of_singleton in Hb' as ->. by right.
  - exists d'. split; [done|].
    eapply slots_ok_all; [exact Hlen'|exact HK'|].
    intros k Hk. by apply launch_covers.
Qed.
End launch.

(** ** The naive kernel *)

Lemma flat_div_mod N j i :
  0 <= i < N -> (j * N + i) / N = j /\ (j * N + i) mod N = i.
Proof.
  intros Hi. split.
  - symmetry. apply (Z.div_unique _ _ j i); lia.
  - symmetry. apply (Z.mod_unique _ _ j i); lia.
Qed.

Lemma kernel_bind_eq {A B : Type} (m : kernel A) (k : A -> kernel B) d x d' :
  m d = Ok (x, d') -> (m ≫= k) d = k x d'.
Proof. intros Hm. unfold mbind, kernel_bind. by rewrite Hm. Qed.

Lemma gread_eq (a : list Z) k d :
  0 <= k < Z.of_nat (length a) ->
  gread a k d
  = Ok (vec_get a k,
        {| out := out d; local_u := local_u d; trace := trace d ++ [GRead k] |}).
Proof. intros Hk. unfold gread. by rewrite getitem_ok. Qed.

Lemma gwrite_eq k v d :
  0 <= k < Z.of_nat (length (out d)) ->
  gwrite k v d
  = Ok (tt, {| out := <[Z.to_nat k := Some v]> (out d); local_u := local_u d;
               trace := trace d ++ [GWrite k] |}).
Proof. intros Hk. unfold gwrite. by rewrite setitem_ok. Qed.

Lemma sread_eq a b d :
  0 <= a < haloSX -> 0 <= b < haloSY ->
  sread a b d
  = Ok (local_u d a b,
        {| out := out d; local_u := local_u d;
           trace := trace d ++ [SRead a b] |}).
Proof. intros Ha Hb. unfold sread. by rewrite !sh_index_ok. Qed.

Ltac kernel_step :=
  first [ erewrite kernel_bind_eq by (apply gread_eq; nia)
        | erewrite kernel_bind_eq
            by (apply sread_eq; unfold haloSX, haloSY, SX, SY; lia)
        | rewrite gwrite_eq by (cbn [out]; nia) ];
  cbn [out local_u trace].

Lemma naive_thread_off N u i j d :
  N <= i \/ N <= j -> discretise_poisson_gpu N u i j d = Ok (tt, d).
Proof.
  intros Hoff. unfold discretise_poisson_gpu.
  destruct (Z.leb_spec N i); [done|].
  destruct (Z.leb_spec N j); [done|lia].
Qed.

Lemma naive_thread_boundary N u i j d :
  0 <= i < N -> 0 <= j < N ->
  i = 0 \/ i = N - 1 \/ j = 0 \/ j = N - 1 ->
  Z.of_nat (length u) = N * N -> Z.of_nat (length (out d)) = N * N ->
  discretise_poisson_gpu N u i j d
  = Ok (tt, {| out := <[Z.to_nat (j * N + i)
                        := Some (naive_out N u (j * N + i))]> (out d);
               local_u := local_u d;
               trace := trace d ++ [GRead (j * N + i); GWrite (j * N + i)] |}).
Proof.
  intros Hi Hj Hb Hu Ho. unfold discretise_poisson_gpu, naive_out.
  destruct (flat_div_mod N j i Hi) as [-> ->].
  destruct (Z.leb_spec N i); [lia|]. destruct (Z.leb_spec N j); [lia|].
  assert ((i =? 0) || (i =? N - 1) || (j =? 0) || (j =? N - 1) = true) as ->.
  { destruct Hb as [->| [->| [->| ->]]];
      rewrite !Z.eqb_refl, ?orb_true_r; done. }
  do 2 kernel_step. by rewrite <- app_assoc.
Qed.

Lemma naive_thread_interior N u i j d :
  0 < i < N - 1 -> 0 < j < N - 1 ->
  Z.of_nat (length u) = N * N -> Z.of_nat (length (out d)) = N * N ->
  discretise_poisson_gpu N u i j d
  = Ok (tt, {| out := <[Z.to_nat (j * N + i)
                        := Some (naive_out N u (j * N + i))]> (out d);
               local_u := local_u d;
               trace := trace d ++
                 [GRead ((j + 1) * N + i); GRead ((j - 1) * N + i);
                  GRead (j * N + i - 1); GRead (j * N + i + 1);
                  GRead (j * N + i); GWrite (j * N + i)] |}).
Proof.
  intros Hi Hj Hu Ho. unfold discretise_poisson_gpu, naive_out.
  destruct (flat_div_mod N j i ltac:(lia)) as [-> ->].
  destruct (Z.leb_spec N i); [lia|]. destruct (Z.leb_spec N j); [lia|].
  destruct (Z.eqb_spec i 0); [lia|]. destruct (Z.eqb_spec i (N - 1)); [lia|].
  destruct (Z.eqb_spec j 0); [lia|]. destruct (Z.eqb_spec j (N - 1)); [lia|].
  cbn [orb]. do 6 kernel_step. rewrite <- !app_assoc. cbn [app].
  replace ((j + 1) * N + i) with (j * N + i + N) by ring.
  replace ((j - 1) * N + i) with (j * N + i - N) by ring.
  reflexivity.
Qed.

Lemma exec_eq (m : kernel unit) d d' : m d = Ok (tt, d') -> exec m d = Ok d'.
Proof. intros Hm. unfold exec. by rewrite Hm. Qed.

Lemma np_empty_ok n :
  0 <= n -> np_empty n = Ok (replicate (Z.to_nat n) None).
Proof. intros Hn. unfold np_empty. by destruct (Z.ltb_spec n 0); [lia|]. Qed.

Lemma naive_thread_out N u i j d :
  0 <= i -> 0 <= j ->
  Z.of_nat (length u) = N * N -> Z.of_nat (length (out d)) = N * N ->
  exists d', exec (discretise_poisson_gpu N u i j) d = Ok d' /\
    out d' = if (i <? N) && (j <? N)
             then <[Z.to_nat (j * N + i) := Some (naive_out N u (j * N + i))]>
                    (out d)
             else out d.
Proof.
  intros Hi Hj Hu Ho.
  destruct (Z.ltb_spec i N) as [HiN|HiN];
    [destruct (Z.ltb_spec j N) as [HjN|HjN]|]; cbn [andb].
  - destruct (decide (i = 0 \/ i = N - 1 \/ j = 0 \/ j = N - 1)) as [Hb|Hb].
    + eexists. split;
        [apply exec_eq; rewrite naive_thread_boundary by (done || lia); done|].
      reflexivity.
    + eexists. split;
        [apply exec_eq; rewrite naive_thread_interior by (done || lia); done|].
      reflexivity.
  - exists d. split; [|done]. apply exec_eq, naive_thread_off. lia.
  - exists d. split; [|done]. apply exec_eq, naive_thread_off. lia.
Qed.

(** [eval_gpu] returns, and returns the stencil applied slot by slot,
    whatever the order of the threads. *)
Lemma eval_gpu_run N u order :
  0 <= N -> Z.of_nat (length u) = N * N -> order ≡ₚ block_threads ->
  eval_gpu N u order = Ok (Some <$> (naive_out N u <$> range (N * N))).
Proof.
  intros HN Hu Hperm. unfold eval_gpu.
  rewrite np_empty_ok by nia. cbn [mbind result_bind].
  destruct (launch_slots (naive_out N u) N
    (fun b => for_each order
       (fun t => exec (discretise_poisson_gpu N u
                         (fst b * 32 + fst t) (snd b * 32 + snd t))))
    {| out := replicate (Z.to_nat (N * N)) None;
       local_u := fun _ _ => 0; trace := [] |}) as (d' & Hrun & Hout).
  - done.
  - intros [bx by_] d K [Hbx Hby]%elem_of_blocks Hlen HK.
    destruct (block_slots (naive_out N u) N (bx, by_) order
      (fun t => exec (discretise_poisson_gpu N u
                        (bx * 32 + fst t) (by_ * 32 + snd t)))
      (fun _ => True) K d) as (d' & Hrun & _ & Hlen' & HK');
      cbn [fst snd]; try done; try lia.
    + intros t. by rewrite Hperm.
    + intros [i j] d1 [Hi Hj]%elem_of_block_threads _ Hlen1. cbn [fst snd].
      destruct (naive_thread_out N u (bx * 32 + i) (by_ * 32 + j) d1)
        as (d2 & Hexec & Hout2); [lia..|done|done|].
      exists d2. done.
    + exists d'. done.
  - cbn [out]. rewrite length_replicate. lia.
  - rewrite Hrun. cbn [mbind result_bind]. by rewrite Hout.
Qed.

(** ** The tiled kernel: loading a block *)

Lemma padded_eq_in n u x y k :
  0 <= x < n -> 0 <= y < n -> k = y * n + x -> vec_get u k = padded n u x y.
Proof.
  intros Hx Hy ->. unfold padded.
  destruct (Z.leb_spec 0 x); [|lia]. destruct (Z.ltb_spec x n); [|lia].
  destruct (Z.leb_spec 0 y); [|lia]. by destruct (Z.ltb_spec y n); [|lia].
Qed.

Lemma padded_eq_out n u x y :
  x < 0 \/ n <= x \/ y < 0 \/ n <= y -> 0 = padded n u x y.
Proof.
  intros Hout. unfold padded.
  destruct (Z.leb_spec 0 x); [|done]. destruct (Z.ltb_spec x n); [|done].
  destruct (Z.leb_spec 0 y); [|done]. by destruct (Z.ltb_spec y n); [lia|].
Qed.

Lemma in_range_snoc len tr acc :
  in_range len tr ->
  match acc with GRead k | GWrite k => 0 <= k < len | _ => True end ->
  in_range len (tr ++ [acc]).
Proof. intros Htr Hacc. apply Forall_app. split; [done|]. by constructor. Qed.

Section loading.
Context (N : Z) (u : list Z) (b : Z * Z) (d0 : device).

Lemma loading_weaken (G G' : Z -> Z -> Prop) tr d :
  loading N u b d0 G tr d -> (forall a c, G' a c -> G a c) ->
  loading N u b d0 G' tr d.
Proof.
  intros (Hout & Hcells & Htr & Hin) Hsub. split_and!; [done| |done..].
  intros a c Hac. apply Hcells, Hsub, Hac.
Qed.

Lemma loading_start G d :
  cells_ok N u b G (local_u d) -> loading N u b d G [] d.
Proof.
  intros Hcells. split_and!; [done..| |constructor]. by rewrite app_nil_r.
Qed.

Lemma loading_read G tr d k :
  loading N u b d0 G tr d -> 0 <= k < (N - 2) * (N - 2) ->
  loading N u b d0 G (tr ++ [GRead k])
    {| out := out d; local_u := local_u d; trace := trace d ++ [GRead k] |}.
Proof.
  intros (Hout & Hcells & Htr & Hin) Hk. split_and!; [done..| |].
  - cbn [trace]. by rewrite Htr, <- app_assoc.
  - by apply in_range_snoc.
Qed.

Lemma loading_write G tr d a c v :
  loading N u b d0 G tr d -> v = target N u b a c ->
  loading N u b d0 (fun x y => G x y \/ (x = a /\ y = c)) (tr ++ [SWrite a c])
    {| out := out d; local_u := upd (local_u d) a c v;
       trace := trace d ++ [SWrite a c] |}.
Proof.
  intros (Hout & Hcells & Htr & Hin) ->. split_and!; [done| | |].
  - intros x y Hxy. cbn [local_u]. unfold upd.
    destruct (Z.eqb_spec x a) as [->|Hx];
      [destruct (Z.eqb_spec y c) as [->|Hy]|]; cbn [andb]; [done|..];
      (destruct Hxy as [HG|[? ?]]; [by apply Hcells|lia]).
  - cbn [trace]. by rewrite Htr, <- app_assoc.
  - by apply in_range_snoc.
Qed.

(** [if c: local_u[a, e] = u_tilda[k]] *)
Lemma load_stmt_read (c : bool) k a a' e e' G tr d :
  (c = true -> 0 <= k < (N - 2) * (N - 2) /\
               sh_index haloSX a = Ok a' /\ sh_index haloSY e = Ok e' /\
               vec_get u k = target N u b a' e') ->
  Z.of_nat (length u) = (N - 2) * (N - 2) ->
  loading N u b d0 G tr d ->
  wp (when c (v ← gread u k; swrite a e v))
     (fun _ d' =>
        loading N u b d0
          (fun x y => G x y \/ (c = true /\ x = a' /\ y = e'))
          (tr ++ (if c then [GRead k; SWrite a' e'] else [])) d') d.
Proof.
  intros Hc Hu Hd. apply wp_when.
  - intros ->. destruct Hc as (Hk & Ha & He & Hv); [done|].
    apply wp_bind, wp_gread; [lia|].
    eapply wp_swrite; [done..|].
    eapply loading_weaken.
    + replace (tr ++ [GRead k; SWrite a' e'])
        with ((tr ++ [GRead k]) ++ [SWrite a' e'])
        by (by rewrite <- app_assoc).
      apply loading_write; [by apply loading_read|done].
    + cbn beta. tauto.
  - intros ->. rewrite app_nil_r. eapply loading_weaken; [exact Hd|].
    cbn beta. intros x y [HG|[? _]]; done.
Qed.

(** [if c: local_u[a, e] = 0] *)
Lemma load_stmt_zero (c : bool) a a' e e' G tr d :
  (c = true -> sh_index haloSX a = Ok a' /\ sh_index haloSY e = Ok e' /\
               0 = target N u b a' e') ->
  loading N u b d0 G tr d ->
  wp (when c (swrite a e 0))
     (fun _ d' =>
        loading N u b d0
          (fun x y => G x y \/ (c = true /\ x = a' /\ y = e'))
          (tr ++ (if c then [SWrite a' e'] else [])) d') d.
Proof.
  intros Hc Hd. apply wp_when.
  - intros ->. destruct Hc as (Ha & He & Hv); [done|].
    eapply wp_swrite; [done..|].
    eapply loading_weaken; [apply loading_write; [done|done]|].
    cbn beta. tauto.
  - intros ->. rewrite app_nil_r. eapply loading_weaken; [exact Hd|].
    cbn beta. intros x y [HG|[? _]]; done.
Qed.

End loading.

Ltac cond_true :=
  match goal with
  | |- (_ && _) = true => apply andb_true_iff; split; cond_true
  | |- negb (_ =? _) = true => apply negb_true_iff, Z.eqb_neq; lia
  | |- (_ =? _) = true => apply Z.eqb_eq; unfold SX, SY; lia
  end.

Ltac cond_hyp H :=
  repeat match type of H with
  | (_ && _) = true =>
      let H1 := fresh H in
      apply andb_true_iff in H as [H1 H]; cond_hyp H1
  | negb (_ =? _) = true => apply negb_true_iff, Z.eqb_neq in H
  | (_ =? _) = true => apply Z.eqb_eq in H
  end.

Ltac cell_in_halo :=
  first [ apply sh_index_ok; unfold haloSX, haloSY, SX, SY; lia
        | reflexivity ].

Ltac load_side :=
  split_and!; unfold haloSX, haloSY, SX, SY in *;
  lazymatch goal with
  | |- sh_index _ _ = _ => cell_in_halo
  | |- _ = target _ _ _ _ _ =>
      unfold target; cbn [fst snd];
      first [ apply padded_eq_in; [lia..|first [ring|nia]]
            | apply padded_eq_out; lia ]
  | |- _ => nia
  end.

(** One thread up to the barrier: no fault, the output untouched, each cell
    it writes holds what the cell stands for, and its accesses are those of
    [load_trace], all within the input. *)
Lemma load_thread_from N u bx by_ i j G d0 tr0 d :
  0 <= bx -> 0 <= by_ -> 0 <= i < 32 -> 0 <= j < 32 ->
  Z.of_nat (length u) = (N - 2) * (N - 2) ->
  loading N u (bx, by_) d0 G tr0 d ->
  exists d',
    exec (discretise_poisson_gpu_2_load N u i j (bx * 32 + i) (by_ * 32 + j)) d
    = Ok d' /\
    loading N u (bx, by_) d0
      (fun a c => G a c \/ loads N (bx, by_) (i, j) a c)
      (tr0 ++ load_trace N i j (bx * 32 + i) (by_ * 32 + j)) d'.
Proof.
  intros Hbx Hby Hi Hj Hu Hd. apply wp_exec.
  unfold discretise_poisson_gpu_2_load, load_trace.
  destruct (Z.leb_spec (N - 2) (bx * 32 + i)) as [Hpi|Hpi].
  { apply wp_ret. cbn [orb]. rewrite app_nil_r.
    eapply loading_weaken; [exact Hd|].
    unfold loads. cbn [fst snd]. intros a c [HG|(? & _)]; [done|lia]. }
  destruct (Z.leb_spec (N - 2) (by_ * 32 + j)) as [Hpj|Hpj].
  { apply wp_ret. cbn [orb]. rewrite app_nil_r.
    eapply loading_weaken; [exact Hd|].
    unfold loads. cbn [fst snd]. intros a c [HG|(_ & ? & _)]; [done|lia]. }
  cbn [orb]. cbv zeta.
  assert (0 <= (by_ * 32 + j) * (N - 2) + (bx * 32 + i)
          < (N - 2) * (N - 2)) as Hpk by nia.
  (* local_u[i + 1, j + 1] = u_tilda[pk] *)
  apply wp_bind, wp_gread; [lia|].
  apply wp_bind. eapply wp_swrite; [cell_in_halo..|].
  match goal with
  | |- wp _ _ ?dev =>
      assert (loading N u (bx, by_) d0
                (fun x y => G x y \/ (x = i + 1 /\ y = j + 1))
                ((tr0 ++ [GRead ((by_ * 32 + j) * (N - 2) + (bx * 32 + i))])
                 ++ [SWrite (i + 1) (j + 1)]) dev) as Hd1
  end.
  { apply loading_write.
    - apply loading_read; [exact Hd|lia].
    - unfold target. cbn [fst snd]. apply padded_eq_in; [lia..|ring]. }
  clear Hd. revert Hd1.
  match goal with |- _ -> wp _ _ ?dev => generalize dev end.
  clear d. intros d Hd.
  (* the four halo loads *)
  apply wp_bind. eapply wp_mono.
  { eapply (load_stmt_read _ _ _ _ _ _ _ i _ (j + 1)); [|done|exact Hd].
    intros Hc. cond_hyp Hc. load_side. }
  clear Hd. intros [] d2 Hd. cbn beta in Hd.
  apply wp_bind. eapply wp_mono.
  { eapply (load_stmt_read _ _ _ _ _ _ _ (i + 1) _ j); [|done|exact Hd].
    intros Hc. cond_hyp Hc. load_side. }
  clear Hd. intros [] d3 Hd. cbn beta in Hd.
  apply wp_bind. eapply wp_mono.
  { eapply (load_stmt_read _ _ _ _ _ _ _ (haloSX - 1) _ (j + 1));
      [|done|exact Hd].
    intros Hc. cond_hyp Hc. load_side. }
  clear Hd. intros [] d4 Hd. cbn beta in Hd.
  apply wp_bind. eapply wp_mono.
  { eapply (load_stmt_read _ _ _ _ _ _ _ (i + 1) _ (haloSY - 1));
      [|done|exact Hd].
    intros Hc. cond_hyp Hc. load_side. }
  clear Hd. intros [] d5 Hd. cbn beta in Hd.
  (* the four global boundary conditions *)
  apply wp_bind. eapply wp_mono.
  { eapply (load_stmt_zero _ _ _ _ _ _ i _ (j + 1)); [|exact Hd].
    intros Hc. cond_hyp Hc. load_side. }
  clear Hd. intros [] d6 Hd. cbn beta in Hd.
  apply wp_bind. eapply wp_mono.
  { eapply (load_stmt_zero _ _ _ _ _ _ (i + 1) _ j); [|exact Hd].
    intros Hc. cond_hyp Hc. load_side. }
  clear Hd. intros [] d7 Hd. cbn beta in Hd.
  apply wp_bind. eapply wp_mono.
  { eapply (load_stmt_zero _ _ _ _ _ _ (i + 2) _ (j + 1)); [|exact Hd].
    intros Hc. cond_hyp Hc. load_side. }
  clear Hd. intros [] d8 Hd. cbn beta in Hd.
  eapply wp_mono.
  { eapply (load_stmt_zero _ _ _ _ _ _ (i + 1) _ (j + 2)); [|exact Hd].
    intros Hc. cond_hyp Hc. load_side. }
  clear Hd. intros [] d9 Hd. cbn beta in Hd.
  rewrite <- !app_assoc in Hd. cbn [app] in Hd. cbn [app].
  eapply loading_weaken; [exact Hd|]. cbn beta. clear Hd.
  unfold loads. cbn [fst snd].
  intros a c [HG|(_ & _ & [[-> ->]|[(-> & -> & ->)|[(-> & -> & ->)|
                 [(Hright & -> & ->)|(Hbottom & -> & ->)]]]])].
  - do 9 left. done.
  - do 8 left. right. done.
  - destruct (decide (bx * 32 + 0 = 0)) as [H0|H0].
    + do 3 left. right. split; [cond_true|lia].
    + do 7 left. right. split; [cond_true|lia].
  - destruct (decide (by_ * 32 + 0 = 0)) as [H0|H0].
    + do 2 left. right. split; [cond_true|lia].
    + do 6 left. right. split; [cond_true|lia].
  - destruct (decide (bx * 32 + i = N - 3)) as [H0|H0].
    + do 1 left. right. split; [cond_true|unfold haloSX, SX; lia].
    + do 5 left. right. split; [cond_true|unfold haloSX, SX; lia].
  - destruct (decide (by_ * 32 + j = N - 3)) as [H0|H0].
    + right. split; [cond_true|unfold haloSY, SY; lia].
    + do 4 left. right. split; [cond_true|unfold haloSY, SY; lia].
Qed.

(** All threads of a block up to the barrier, in any order. *)
Lemma load_block N u bx by_ order d :
  0 <= bx -> 0 <= by_ ->
  (forall t, t ∈ order <-> t ∈ block_threads) ->
  Z.of_nat (length u) = (N - 2) * (N - 2) ->
  exists d' tr,
    load_phase N u order (bx, by_) d = Ok d' /\
    loading N u (bx, by_) d
      (fun a c => exists t, t ∈ block_threads /\ loads N (bx, by_) t a c)
      tr d'.
Proof.
  intros Hbx Hby Horder Hu. unfold load_phase. cbn [fst snd].
  destruct (for_each_prefix
    (fun pre d' => exists tr, loading N u (bx, by_) d
       (fun a c => exists t, t ∈ pre /\ loads N (bx, by_) t a c) tr d')
    (fun t => exec (discretise_poisson_gpu_2_load N u (fst t) (snd t)
                      (bx * 32 + fst t) (by_ * 32 + snd t)))
    order d) as (d' & Hrun & tr & Hd').
  - exists []. apply loading_start.
    intros a c (t & Ht%elem_of_nil & _). done.
  - intros pre [i j] d1 [tr1 Hd1] Ht. apply Horder in Ht.
    apply elem_of_block_threads in Ht as [Hi Hj]. cbn [fst snd].
    destruct (load_thread_from N u bx by_ i j _ d tr1 d1 Hbx Hby Hi Hj Hu Hd1)
      as (d2 & Hrun2 & Hd2).
    exists d2. split; [done|]. eexists.
    eapply loading_weaken; [exact Hd2|].
    cbn beta. intros a c (t & [Ht|Ht]%elem_of_app & Hl).
    + left. eauto.
    + apply list_elem_of_singleton in Ht as ->. by right.
  - exists d', tr. split; [done|]. eapply loading_weaken; [exact Hd'|].
    cbn beta. intros a c (t & Ht & Hl). exists t. split; [|done].
    by apply Horder.
Qed.

(** ** The tiled kernel: computing from the shared array *)

(** A thread of the grid reads five cells of the shared array and nothing
    else, and writes its slot. *)
Lemma compute_thread_eq N omega i j pi pj d :
  0 <= i < 32 -> 0 <= j < 32 -> 0 <= pi < N - 2 -> 0 <= pj < N - 2 ->
  Z.of_nat (length (out d)) = (N - 2) * (N - 2) ->
  discretise_poisson_gpu_2_compute N omega i j pi pj d
  = Ok (tt,
        {| out := <[Z.to_nat (pj * (N - 2) + pi)
                    := Some ((N - 1) ^ 2
                             * (4 * local_u d (i + 1) (j + 1)
                                - local_u d (i + 2) (j + 1)
                                - local_u d i (j + 1)
                                - local_u d (i + 1) j
                                - local_u d (i + 1) (j + 2))
                             + omega ^ 2 * local_u d (i + 1) (j + 1))]>
                  (out d);
           local_u := local_u d;
           trace := trace d ++
             [SRead (i + 2) (j + 1); SRead i (j + 1); SRead (i + 1) j;
              SRead (i + 1) (j + 2); SRead (i + 1) (j + 1);
              GWrite (pj * (N - 2) + pi)] |}).
Proof.
  intros Hi Hj Hpi Hpj Ho. unfold discretise_poisson_gpu_2_compute.
  destruct (Z.leb_spec (N - 2) pi); [lia|].
  destruct (Z.leb_spec (N - 2) pj); [lia|].
  do 6 kernel_step. by rewrite <- !app_assoc.
Qed.

Lemma compute_thread_off N omega i j pi pj d :
  N - 2 <= pi \/ N - 2 <= pj ->
  discretise_poisson_gpu_2_compute N omega i j pi pj d = Ok (tt, d).
Proof.
  intros Hoff. unfold discretise_poisson_gpu_2_compute.
  destruct (Z.leb_spec (N - 2) pi); [done|].
  destruct (Z.leb_spec (N - 2) pj); [done|lia].
Qed.

(** The five cells a thread of the grid reads were all written before the
    barrier, by the thread itself or by a neighbour in its block. *)
Lemma stencil_cells_loaded N bx by_ i j a c :
  0 <= bx -> 0 <= by_ -> 0 <= i < 32 -> 0 <= j < 32 ->
  bx * 32 + i < N - 2 -> by_ * 32 + j < N - 2 ->
  (a = i + 1 /\ c = j + 1) \/ (a = i + 2 /\ c = j + 1) \/
  (a = i /\ c = j + 1) \/ (a = i + 1 /\ c = j) \/ (a = i + 1 /\ c = j + 2) ->
  exists t, t ∈ block_threads /\ loads N (bx, by_) t a c.
Proof.
  intros Hbx Hby Hi Hj Hpi Hpj Hcell. unfold loads.
  destruct Hcell as [[-> ->]|[[-> ->]|[[-> ->]|[[-> ->]|[-> ->]]]]].
  - exists (i, j). rewrite elem_of_block_threads. cbn [fst snd]. lia.
  - destruct (decide (i = 31 \/ bx * 32 + i = N - 3)).
    + exists (i, j). rewrite elem_of_block_threads. cbn [fst snd]. lia.
    + exists (i + 1, j). rewrite elem_of_block_threads. cbn [fst snd]. lia.
  - destruct (decide (i = 0)).
    + exists (i, j). rewrite elem_of_block_threads. cbn [fst snd]. lia.
    + exists (i - 1, j). rewrite elem_of_block_threads. cbn [fst snd]. lia.
  - destruct (decide (j = 0)).
    + exists (i, j). rewrite elem_of_block_threads. cbn [fst snd]. lia.
    + exists (i, j - 1). rewrite elem_of_block_threads. cbn [fst snd]. lia.
  - destruct (decide (j = 31 \/ by_ * 32 + j = N - 3)).
    + exists (i, j). rewrite elem_of_block_threads. cbn [fst snd]. lia.
    + exists (i, j + 1). rewrite elem_of_block_threads. cbn [fst snd]. lia.
Qed.

Lemma compute_thread_out N omega u bx by_ i j d :
  0 <= bx -> 0 <= by_ -> 0 <= i < 32 -> 0 <= j < 32 ->
  Z.of_nat (length (out d)) = (N - 2) * (N - 2) ->
  cells_ok N u (bx, by_)
    (fun a c => exists t, t ∈ block_threads /\ loads N (bx, by_) t a c)
    (local_u d) ->
  exists d',
    exec (discretise_poisson_gpu_2_compute N omega i j
            (bx * 32 + i) (by_ * 32 + j)) d = Ok d' /\
    local_u d' = local_u d /\
    out d' =
      if (bx * 32 + i <? N - 2) && (by_ * 32 + j <? N - 2)
      then <[Z.to_nat ((by_ * 32 + j) * (N - 2) + (bx * 32 + i))
             := Some (tiled_out N omega u
                        ((by_ * 32 + j) * (N - 2) + (bx * 32 + i)))]> (out d)
      else out d.
Proof.
  intros Hbx Hby Hi Hj Ho Hcells.
  destruct (Z.ltb_spec (bx * 32 + i) (N - 2)) as [Hpi|Hpi];
    [destruct (Z.ltb_spec (by_ * 32 + j) (N - 2)) as [Hpj|Hpj]|]; cbn [andb].
  - eexists. split; [apply exec_eq, compute_thread_eq; lia|].
    cbn [out local_u]. split; [done|]. do 2 f_equal.
    rewrite (Hcells (i + 1) (j + 1)), (Hcells (i + 2) (j + 1)),
      (Hcells i (j + 1)), (Hcells (i + 1) j), (Hcells (i + 1) (j + 2))
      by (apply (stencil_cells_loaded N bx by_ i j); lia).
    unfold target, tiled_out. cbn [fst snd].
    destruct (flat_div_mod (N - 2) (by_ * 32 + j) (bx * 32 + i) ltac:(lia))
      as [-> ->].
    replace (bx * 32 + (i + 1) - 1) with (bx * 32 + i) by lia.
    replace (bx * 32 + (i + 2) - 1) with (bx * 32 + i + 1) by lia.
    replace (by_ * 32 + (j + 1) - 1) with (by_ * 32 + j) by lia.
    replace (by_ * 32 + (j + 2) - 1) with (by_ * 32 + j + 1) by lia.
    reflexivity.
  - exists d. split; [apply exec_eq, compute_thread_off; lia|done].
  - exists d. split; [apply exec_eq, compute_thread_off; lia|done].
Qed.

(** One block of the tiled kernel fills the slots of its threads. *)
Lemma run_block_2_slots N omega u garbage order bx by_ d K :
  0 <= bx -> 0 <= by_ ->
  (forall t, t ∈ order <-> t ∈ block_threads) ->
  Z.of_nat (length u) = (N - 2) * (N - 2) ->
  Z.of_nat (length (out d)) = (N - 2) * (N - 2) ->
  slots_ok (tiled_out N omega u) K (out d) ->
  exists d', run_block_2 N omega u garbage order (bx, by_) d = Ok d' /\
    Z.of_nat (length (out d')) = (N - 2) * (N - 2) /\
    slots_ok (tiled_out N omega u)
      (fun k => K k \/ in_block (N - 2) (bx, by_) k) (out d').
Proof.
  intros Hbx Hby Horder Hu Ho HK. unfold run_block_2. cbn [fst snd].
  destruct (load_block N u bx by_ order (enter_block garbage d))
    as (d1 & tr & Hload & Hout1 & Hcells1 & _); [done..|].
  rewrite Hload. cbn [mbind result_bind]. cbn [enter_block out] in Hout1.
  destruct (block_slots (tiled_out N omega u) (N - 2) (bx, by_) order
    (fun t => exec (discretise_poisson_gpu_2_compute N omega (fst t) (snd t)
                      (bx * 32 + fst t) (by_ * 32 + snd t)))
    (fun d' => cells_ok N u (bx, by_)
       (fun a c => exists t, t ∈ block_threads /\ loads N (bx, by_) t a c)
       (local_u d')) K d1) as (d2 & Hrun & _ & Hlen2 & HK2);
    cbn [fst snd]; try done; try (rewrite Hout1; done).
  - intros [i j] d' [Hi Hj]%elem_of_block_threads Hcells' Hlen'.
    cbn [fst snd].
    destruct (compute_thread_out N omega u bx by_ i j d')
      as (d'' & Hexec & Hloc & Hout''); [done..|].
    exists d''. split; [done|]. split; [by rewrite Hloc|done].
  - exists d2. done.
Qed.

(** [eval_gpu_2] returns, and returns the stencil over the zero-padded
    interior slot by slot, whatever the shared arrays held at the start and
    whatever the order of the threads. *)
Lemma eval_gpu_2_run N omega u garbage order :
  2 <= N -> Z.of_nat (length u) = (N - 2) * (N - 2) ->
  order ≡ₚ block_threads ->
  eval_gpu_2 N omega u garbage order
  = Ok (Some <$> (tiled_out N omega u <$> range ((N - 2) * (N - 2)))).
Proof.
  intros HN Hu Hperm. unfold eval_gpu_2. rewrite Z.pow_2_r.
  rewrite np_empty_ok by nia. cbn [mbind result_bind].
  destruct (launch_slots (tiled_out N omega u) (N - 2)
    (fun b => run_block_2 N omega u (garbage b) order b)
    {| out := replicate (Z.to_nat ((N - 2) * (N - 2))) None;
       local_u := fun _ _ => 0; trace := [] |}) as (d' & Hrun & Hout).
  - lia.
  - intros [bx by_] d K [Hbx Hby]%elem_of_blocks Hlen HK.
    apply run_block_2_slots; try done; try lia.
    intros t. by rewrite Hperm.
  - cbn [out]. rewrite length_replicate. lia.
  - rewrite Hrun. cbn [mbind result_bind]. by rewrite Hout.
Qed.

(** ** The sparse operator applied to a vector *)

(** Row [k] of the exact five-point matrix times [u] is what the naive
    kernel writes into slot [k]. *)
Lemma row_dot_stencil N u k :
  0 < N -> 0 <= k < N * N -> row_dot (stencil N) u k = naive_out N u k.
Proof.
  intros HN Hk.
  assert (0 <= k mod N < N) as Hi by (apply Z.mod_pos_bound; lia).
  assert (0 <= k / N < N) as Hj
    by (split; [apply Z.div_pos; lia|apply Z.div_lt_upper_bound; lia]).
  assert (k = k / N * N + k mod N) as Hdm
    by (rewrite (Z.mul_comm (k / N)); apply Z.div_mod; lia).
  rewrite row_dot_row_entries. rewrite Hdm at 1 2.
  rewrite row_entries_stencil by done.
  unfold stencil_entries, naive_out. rewrite <- Hdm.
  destruct ((k mod N =? 0) || (k mod N =? N - 1) || (k / N =? 0)
            || (k / N =? N - 1)).
  - cbn [row_dot foldr fst snd]. rewrite Z.eqb_refl. lia.
  - cbn [row_dot foldr fst snd]. rewrite Z.eqb_refl. ring.
Qed.

Lemma matvec_stencil N u :
  0 < N -> matvec (N * N) (stencil N) u = naive_out N u <$> range (N * N).
Proof.
  intros HN. unfold matvec. apply Forall_fmap_ext, Forall_forall.
  intros k Hk%elem_of_seqZ. apply row_dot_stencil; lia.
Qed.

(** For a grid of at most 4096 x 4096 the builder returns the exact
    five-point matrix. *)
Lemma discretise_poisson_small N :
  2 <= N <= 4096 ->
  discretise_poisson N = Ok (builder_state (stencil N) (emitted_rhs N) 0 0) /\
  coo_matrix (builder_state (stencil N) (emitted_rhs N) 0 0)
  = Some (stencil N).
Proof.
  intros HN. rewrite discretise_poisson_full by lia.
  rewrite emitted_exact by done. split; [done|apply coo_matrix_full].
Qed.

(** ** Padding, slicing, and the two kernels side by side *)

Lemma vec_get_fmap_range (g : Z -> Z) n k :
  0 <= k < n -> vec_get (g <$> range n) k = g k.
Proof.
  intros Hk. unfold vec_get. destruct (Z.ltb_spec k 0); [lia|].
  by rewrite list_lookup_fmap, lookup_range.
Qed.

Lemma vec_get_lookup (u : list Z) k :
  0 <= k < Z.of_nat (length u) -> u !! Z.to_nat k = Some (vec_get u k).
Proof.
  intros Hk. unfold vec_get. destruct (Z.ltb_spec k 0); [lia|].
  destruct (lookup_lt_is_Some_2 u (Z.to_nat k)) as [v Hv]; [lia|].
  by rewrite Hv.
Qed.

Lemma pad_with_padded N x px py :
  2 <= N -> -1 <= px <= N - 2 -> -1 <= py <= N - 2 ->
  vec_get (pad_with N x) ((py + 1) * N + (px + 1)) = padded (N - 2) x px py.
Proof.
  intros HN Hpx Hpy. unfold pad_with.
  rewrite vec_get_fmap_range by nia. cbv zeta.
  destruct (flat_div_mod N (py + 1) (px + 1) ltac:(lia)) as [-> ->].
  unfold padded.
  replace (py + 1 - 1) with py by lia. replace (px + 1 - 1) with px by lia.
  destruct (Z.ltb_spec 0 (px + 1)), (Z.ltb_spec (px + 1) (N - 1)),
    (Z.ltb_spec 0 (py + 1)), (Z.ltb_spec (py + 1) (N - 1)),
    (Z.leb_spec 0 px), (Z.ltb_spec px (N - 2)),
    (Z.leb_spec 0 py), (Z.ltb_spec py (N - 2)); cbn [andb]; (done || lia).
Qed.

(** The tiled kernel's value at an interior slot is the naive kernel's value
    at the same point of the zero-padded grid, plus the mass term. *)
Lemma tiled_out_naive N omega x pk :
  2 <= N -> 0 <= pk < (N - 2) * (N - 2) ->
  tiled_out N omega x pk
  = naive_out N (pad_with N x)
      ((pk / (N - 2) + 1) * N + (pk mod (N - 2) + 1))
    + omega ^ 2 * vec_get x pk.
Proof.
  intros HN Hpk. assert (0 < N - 2) as Hn by nia.
  assert (0 <= pk mod (N - 2) < N - 2) as Hi by (apply Z.mod_pos_bound; lia).
  assert (0 <= pk / (N - 2) < N - 2) as Hj
    by (split; [apply Z.div_pos; lia|apply Z.div_lt_upper_bound; lia]).
  assert (pk = pk / (N - 2) * (N - 2) + pk mod (N - 2)) as Hdm
    by (rewrite (Z.mul_comm (pk / (N - 2))); apply Z.div_mod; lia).
  unfold tiled_out, naive_out. cbv zeta.
  set (pi := pk mod (N - 2)) in *. set (pj := pk / (N - 2)) in *.
  destruct (flat_div_mod N (pj + 1) (pi + 1) ltac:(lia)) as [-> ->].
  destruct (Z.eqb_spec (pi + 1) 0); [lia|].
  destruct (Z.eqb_spec (pi + 1) (N - 1)); [lia|].
  destruct (Z.eqb_spec (pj + 1) 0); [lia|].
  destruct (Z.eqb_spec (pj + 1) (N - 1)); [lia|].
  cbn [orb].
  replace ((pj + 1) * N + (pi + 1) + N) with ((pj + 1 + 1) * N + (pi + 1))
    by ring.
  replace ((pj + 1) * N + (pi + 1) - N) with ((pj - 1 + 1) * N + (pi + 1))
    by ring.
  replace ((pj + 1) * N + (pi + 1) - 1) with ((pj + 1) * N + (pi - 1 + 1))
    by ring.
  replace ((pj + 1) * N + (pi + 1) + 1) with ((pj + 1) * N + (pi + 1 + 1))
    by ring.
  rewrite !pad_with_padded by lia.
  rewrite <- (padded_eq_in (N - 2) x pi pj pk) by (done || lia).
  ring.
Qed.

Lemma interior_matvec N A u :
  2 <= N ->
  interior N (matvec (N * N) A u)
  = (fun pk => row_dot A u ((pk / (N - 2) + 1) * N + (pk mod (N - 2) + 1)))
    <$> range ((N - 2) * (N - 2)).
Proof.
  intros HN. unfold interior. apply Forall_fmap_ext, Forall_forall.
  intros pk Hpk%elem_of_seqZ. cbv zeta. assert (0 < N - 2) as Hn by nia.
  assert (0 <= pk mod (N - 2) < N - 2) as Hi by (apply Z.mod_pos_bound; lia).
  assert (0 <= pk / (N - 2) < N - 2) as Hj
    by (split; [apply Z.div_pos; lia|apply Z.div_lt_upper_bound; lia]).
  unfold matvec. rewrite vec_get_fmap_range by nia. done.
Qed.

Lemma zip_with_fmap_range (g : Z -> Z -> Z) (h : Z -> Z) (u : list Z) n :
  Z.of_nat (length u) = n ->
  zip_with g (h <$> range n) u = (fun k => g (h k) (vec_get u k)) <$> range n.
Proof.
  intros Hu. apply list_eq. intros idx.
  rewrite lookup_zip_with, !list_lookup_fmap. unfold range.
  destruct (decide (Z.of_nat idx < n)) as [Hlt|Hge].
  - rewrite lookup_seqZ_lt by done. cbn [fmap option_fmap option_map mbind
      option_bind].
    replace idx with (Z.to_nat (0 + Z.of_nat idx)) at 1 by lia.
    rewrite vec_get_lookup by lia. done.
  - rewrite lookup_seqZ_ge by lia. done.
Qed.

(** * The claims *)

Lemma lookup_written (g : Z -> Z) n k :
  0 <= k < n ->
  (Some <$> (g <$> range n)) !! Z.to_nat k = Some (Some (g k)).
Proof. intros Hk. by rewrite !list_lookup_fmap, lookup_range. Qed.

Lemma naive_out_boundary N u i j :
  0 <= i < N -> i = 0 \/ i = N - 1 \/ j = 0 \/ j = N - 1 ->
  naive_out N u (j * N + i) = vec_get u (j * N + i).
Proof.
  intros Hi Hb. unfold naive_out.
  destruct (flat_div_mod N j i Hi) as [-> ->].
  assert ((i =? 0) || (i =? N - 1) || (j =? 0) || (j =? N - 1) = true) as ->;
    [|done].
  destruct Hb as [->| [->| [->| ->]]]; rewrite !Z.eqb_refl, ?orb_true_r; done.
Qed.

(** ** The naive evaluator in single precision *)

Lemma naive_f32_thread_out N u i j d :
  0 <= i -> 0 <= j ->
  Z.of_nat (length u) = N * N -> Z.of_nat (length (out d)) = N * N ->
  exists d', exec (discretise_poisson_gpu_f32 N u i j) d = Ok d' /\
    out d' = if (i <? N) && (j <? N)
             then <[Z.to_nat (j * N + i)
                    := Some (naive_out_f32 N u (j * N + i))]> (out d)
             else out d.
Proof.
  intros Hi Hj Hu Ho. unfold discretise_poisson_gpu_f32, naive_out_f32.
  destruct (Z.leb_spec N i), (Z.ltb_spec i N); try lia;
    [by eexists|]. cbn [andb].
  destruct (Z.leb_spec N j), (Z.ltb_spec j N); try lia; [by eexists|].
  destruct (flat_div_mod N j i ltac:(lia)) as [-> ->].
  destruct (Z.eqb_spec i 0), (Z.eqb_spec i (N - 1)), (Z.eqb_spec j 0),
    (Z.eqb_spec j (N - 1)); cbn [orb];
    eexists; (split; [apply exec_eq|]);
    try (do 2 kernel_step; reflexivity);
    try (do 6 kernel_step; reflexivity);
    cbn [out];
    try replace ((j + 1) * N + i) with (j * N + i + N) by ring;
    try replace ((j - 1) * N + i) with (j * N + i - N) by ring;
    reflexivity.
Qed.

Lemma length_astype_float32 x : length (astype_float32 x) = length x.
Proof. unfold astype_float32. by rewrite length_fmap. Qed.

Lemma eval_gpu_f32_run N x order :
  0 <= N -> Z.of_nat (length x) = N * N -> order ≡ₚ block_threads ->
  eval_gpu_f32 N x order
  = Ok (Some <$> (naive_out_f32 N (astype_float32 x) <$> range (N * N))).
Proof.
  intros HN Hx Hperm. unfold eval_gpu_f32.
  rewrite np_empty_ok by nia. cbn [mbind result_bind].
  destruct (launch_slots (naive_out_f32 N (astype_float32 x)) N
    (fun b => for_each order
       (fun t => exec (discretise_poisson_gpu_f32 N (astype_float32 x)
                         (fst b * 32 + fst t) (snd b * 32 + snd t))))
    {| out := replicate (Z.to_nat (N * N)) None;
       local_u := fun _ _ => 0; trace := [] |}) as (d' & Hrun & Hout).
  - done.
  - intros [bx by_] d K [Hbx Hby]%elem_of_blocks Hlen HK.
    destruct (block_slots (naive_out_f32 N (astype_float32 x)) N (bx, by_)
      order
      (fun t => exec (discretise_poisson_gpu_f32 N (astype_float32 x)
                        (bx * 32 + fst t) (by_ * 32 + snd t)))
      (fun _ => True) K d) as (d' & Hrun & _ & Hlen' & HK');
      cbn [fst snd]; try done; try lia.
    + intros t. by rewrite Hperm.
    + intros [i j] d1 [Hi Hj]%elem_of_block_threads _ Hlen1. cbn [fst snd].
      destruct (naive_f32_thread_out N (astype_float32 x) (bx * 32 + i)
                  (by_ * 32 + j) d1)
        as (d2 & Hexec & Hout2);
        [lia|lia|by rewrite length_astype_float32|done|].
      exists d2. done.
    + exists d'. done.
  - cbn [out]. rewrite length_replicate. lia.
  - rewrite Hrun. cbn [mbind result_bind]. by rewrite Hout.
Qed.

Lemma vec_get_astype_float32 x k :
  vec_get (astype_float32 x) k = float32 (vec_get x k).
Proof.
  unfold vec_get, astype_float32. destruct (k <? 0); [done|].
  rewrite list_lookup_fmap. by destruct (x !! Z.to_nat k).
Qed.

Example eval_gpu_f32_rounds :
  eval_gpu_f32 3 (replicate 9 16777215) block_threads
  = Ok (Some <$> [16777215; 16777215; 16777215; 16777215; -8;
                  16777215; 16777215; 16777215; 16777215]).
Proof. vm_compute. reflexivity. Qed.

(** C6, as stated, fails: [eval_gpu] hands [x.astype('float32')] to the
    kernel, so a boundary value that single precision cannot hold comes back
    rounded.  With [N = 2] every node is on the boundary, and [u[0] = 2^24 +
    1] comes back as [2^24]. *)
Lemma naive_boundary_rounds_input :
  eval_gpu_f32 2 [16777217; 0; 0; 0] block_threads
  = Ok [Some 16777216; Some 0; Some 0; Some 0] /\
  [16777217; 0; 0; 0] !! Z.to_nat (0 * 2 + 0) = Some 16777217 /\
  16777216 <> 16777217.
Proof. split; [vm_compute; reflexivity|]. split; [reflexivity|lia]. Qed.

(** C6, amended.  For every [N >= 2], every integer-valued full-grid vector
    [u] of length [N^2] within the range of single precision and every
    boundary point [(i, j)], the naive evaluator returns, and its output at
    the flat index [j * N + i] is [u[j * N + i]] rounded to single precision:
    the kernel copies the slot and applies no arithmetic to it.  The output
    is [u[j * N + i]] itself when single precision holds it, as it does
    every integer below [2^24] in magnitude. *)
Theorem naive_boundary_single_precision N u order i j :
  2 <= N -> Z.of_nat (length u) = N * N -> order ≡ₚ block_threads ->
  Forall (fun x => Z.abs x < 2 ^ 127) u ->
  0 <= i < N -> 0 <= j < N ->
  i = 0 \/ i = N - 1 \/ j = 0 \/ j = N - 1 ->
  exists res x,
    eval_gpu_f32 N u order = Ok res /\
    u !! Z.to_nat (j * N + i) = Some x /\
    res !! Z.to_nat (j * N + i) = Some (Some (float32 x)) /\
    (float32 x = x -> res !! Z.to_nat (j * N + i) = Some (Some x)) /\
    (Z.abs x < 2 ^ 24 -> res !! Z.to_nat (j * N + i) = Some (Some x)).
Proof.
  intros HN Hu Hperm _ Hi Hj Hb.
  assert (0 <= j * N + i < N * N) as Hk by nia.
  assert (res_at : (Some <$> (naive_out_f32 N (astype_float32 u)
                               <$> range (N * N))) !! Z.to_nat (j * N + i)
                   = Some (Some (float32 (vec_get u (j * N + i))))).
  { rewrite lookup_written by done. do 2 f_equal.
    unfold naive_out_f32. cbv zeta.
    destruct (flat_div_mod N j i ltac:(lia)) as [-> ->].
    assert ((i =? 0) || (i =? N - 1) || (j =? 0) || (j =? N - 1) = true)
      as ->.
    { destruct Hb as [->| [->| [->| ->]]];
        rewrite !Z.eqb_refl, ?orb_true_r; done. }
    apply vec_get_astype_float32. }
  exists (Some <$> (naive_out_f32 N (astype_float32 u) <$> range (N * N))),
    (vec_get u (j * N + i)).
  split; [apply eval_gpu_f32_run; (done || lia)|].
  split; [apply vec_get_lookup; lia|]. split; [exact res_at|]. split.
  - intros Hx. by rewrite res_at, Hx.
  - intros Hx. by rewrite res_at, float32_exact.
Qed.

Lemma naive_boundary_single_precision_witness :
  2 <= 3 /\ Z.of_nat (length [1; 2; 3; 4; 5; 6; 7; 8; 33554433]) = 3 * 3 /\
  Forall (fun x => Z.abs x < 2 ^ 127) [1; 2; 3; 4; 5; 6; 7; 8; 33554433] /\
  0 <= 2 < 3 /\
  exists res x,
    eval_gpu_f32 3 [1; 2; 3; 4; 5; 6; 7; 8; 33554433] block_threads = Ok res /\
    [1; 2; 3; 4; 5; 6; 7; 8; 33554433] !! Z.to_nat (2 * 3 + 2) = Some x /\
    res !! Z.to_nat (2 * 3 + 2) = Some (Some (float32 x)) /\
    (float32 x = x -> res !! Z.to_nat (2 * 3 + 2) = Some (Some x)) /\
    (Z.abs x < 2 ^ 24 -> res !! Z.to_nat (2 * 3 + 2) = Some (Some x)).
Proof.
  assert (Forall (fun x => Z.abs x < 2 ^ 127)
            [1; 2; 3; 4; 5; 6; 7; 8; 33554433]) as Hrange
    by (repeat constructor; cbn; lia).
  split; [lia|]. split; [reflexivity|]. split; [exact Hrange|].
  split; [lia|].
  apply (naive_boundary_single_precision 3 [1; 2; 3; 4; 5; 6; 7; 8; 33554433]
           block_threads 2 2); [lia|reflexivity|reflexivity|exact Hrange|lia|
                                lia|right; left; lia].
Defined.

Lemma tiled_out_zero N omega n pk :
  tiled_out N omega (replicate n 0) pk = 0.
Proof.
  assert (forall x y, padded (N - 2) (replicate n 0) x y = 0) as Hp.
  { intros x y. unfold padded, vec_get.
    destruct ((0 <=? x) && (x <? N - 2) && (0 <=? y) && (y <? N - 2));
      [|done].
    destruct (y * (N - 2) + x <? 0); [done|].
    destruct (replicate n 0 !! Z.to_nat (y * (N - 2) + x)) eqn:E; [|done].
    apply lookup_replicate in E as [-> _]. done. }
  unfold tiled_out. rewrite !Hp. lia.
Qed.

(** C7.  For every [N >= 2] and every [omega], the tiled evaluator applied to
    the all-zero interior vector of length [(N-2)^2] returns the all-zero
    vector of length [(N-2)^2], whatever the shared arrays held and whatever
    the order of the threads. *)
Theorem tiled_zero_in_zero_out N omega garbage order :
  2 <= N -> order ≡ₚ block_threads ->
  eval_gpu_2 N omega (replicate (Z.to_nat ((N - 2) ^ 2)) 0) garbage order
  = Ok (replicate (Z.to_nat ((N - 2) ^ 2)) (Some 0)).
Proof.
  intros HN Hperm. rewrite eval_gpu_2_run; [|done| |done].
  - f_equal. rewrite Z.pow_2_r. apply list_eq. intros idx.
    rewrite !list_lookup_fmap. unfold range.
    destruct (decide (Z.of_nat idx < (N - 2) * (N - 2))) as [Hlt|Hge].
    + rewrite lookup_seqZ_lt by done. cbn [fmap option_fmap option_map].
      rewrite tiled_out_zero. symmetry. apply lookup_replicate_2. lia.
    + rewrite lookup_seqZ_ge by lia. symmetry.
      apply lookup_replicate_None. lia.
  - rewrite length_replicate, Z.pow_2_r. nia.
Qed.

Lemma tiled_zero_in_zero_out_witness :
  2 <= 5 /\
  eval_gpu_2 5 3 (replicate (Z.to_nat ((5 - 2) ^ 2)) 0)
    (fun _ a b => a + 100 * b + 1) block_threads
  = Ok (replicate (Z.to_nat ((5 - 2) ^ 2)) (Some 0)).
Proof.
  split; [lia|].
  apply (tiled_zero_in_zero_out 5 3 (fun _ a b => a + 100 * b + 1)
           block_threads); [lia|reflexivity].
Defined.

(** C8.  In block [(bx, by_)] of the tiled kernel, whatever the shared array
    held when the block started and in whatever order its threads ran, every
    thread reaches the barrier, and there, for every thread of the grid on an
    edge of the interior grid ([pi = 0], [pj = 0], [pi = (N-2)-1] or
    [pj = (N-2)-1]), the halo cell next to it on that side holds [0]: no load
    of any thread leaves another value there, at the corners of the tile
    too. *)
Theorem halo_zero_at_barrier N u garbage order bx by_ d :
  0 <= bx -> 0 <= by_ -> order ≡ₚ block_threads ->
  Z.of_nat (length u) = (N - 2) * (N - 2) ->
  exists d',
    load_phase N u order (bx, by_) (enter_block garbage d) = Ok d' /\
    forall i j,
      0 <= i < 32 -> 0 <= j < 32 ->
      bx * 32 + i < N - 2 -> by_ * 32 + j < N - 2 ->
      (bx * 32 + i = 0 -> local_u d' i (j + 1) = 0) /\
      (by_ * 32 + j = 0 -> local_u d' (i + 1) j = 0) /\
      (bx * 32 + i = (N - 2) - 1 -> local_u d' (i + 2) (j + 1) = 0) /\
      (by_ * 32 + j = (N - 2) - 1 -> local_u d' (i + 1) (j + 2) = 0).
Proof.
  intros Hbx Hby Hperm Hu.
  destruct (load_block N u bx by_ order (enter_block garbage d))
    as (d' & tr & Hrun & _ & Hcells & _); [done..|by intros t; rewrite Hperm
                                          |done|].
  exists d'. split; [done|]. intros i j Hi Hj Hpi Hpj.
  assert (forall a c, loads N (bx, by_) (i, j) a c ->
            local_u d' a c = target N u (bx, by_) a c) as Hown.
  { intros a c Hl. apply Hcells. exists (i, j).
    by rewrite elem_of_block_threads. }
  unfold loads, target in Hown. cbn [fst snd] in Hown.
  split_and!; intros Hedge.
  - rewrite Hown by lia. symmetry. apply padded_eq_out. lia.
  - rewrite Hown by lia. symmetry. apply padded_eq_out. lia.
  - rewrite Hown by lia. symmetry. apply padded_eq_out. lia.
  - rewrite Hown by lia. symmetry. apply padded_eq_out. lia.
Qed.

Lemma halo_zero_at_barrier_witness :
  0 <= 0 /\ Z.of_nat (length [1; 2; 3; 4; 5; 6; 7; 8; 9]) = (5 - 2) * (5 - 2) /\
  exists d',
    load_phase 5 [1; 2; 3; 4; 5; 6; 7; 8; 9] block_threads (0, 0)
      (enter_block (fun a c => a + 100 * c + 7)
         {| out := replicate 9 None; local_u := fun _ _ => 0; trace := [] |})
    = Ok d' /\
    forall i j,
      0 <= i < 32 -> 0 <= j < 32 ->
      0 * 32 + i < 5 - 2 -> 0 * 32 + j < 5 - 2 ->
      (0 * 32 + i = 0 -> local_u d' i (j + 1) = 0) /\
      (0 * 32 + j = 0 -> local_u d' (i + 1) j = 0) /\
      (0 * 32 + i = (5 - 2) - 1 -> local_u d' (i + 2) (j + 1) = 0) /\
      (0 * 32 + j = (5 - 2) - 1 -> local_u d' (i + 1) (j + 2) = 0).
Proof.
  split; [lia|]. split; [reflexivity|].
  apply (halo_zero_at_barrier 5 [1; 2; 3; 4; 5; 6; 7; 8; 9]
           (fun a c => a + 100 * c + 7) block_threads 0 0);
    [lia|lia|reflexivity|reflexivity].
Defined.

(** C9.  For every [N >= 2]: a thread of the naive kernel at a point that is
    not on the boundary runs without a fault and reads exactly the slots
    [(j+1)N+i], [(j-1)N+i], [jN+i-1], [jN+i+1], [jN+i] of its input and
    writes slot [jN+i], all within [0, N^2); and every thread of the tiled
    kernel runs to the barrier without a fault, its global reads being those
    of [load_trace] ([pk], and [pk-1], [pk-(N-2)], [pk+1], [pk+(N-2)] under
    their guards), all within [0, (N-2)^2). *)
Theorem stencil_accesses_in_range N u i j d u' bx by_ ti tj d' :
  2 <= N ->
  Z.of_nat (length u) = N * N -> Z.of_nat (length (out d)) = N * N ->
  0 < i < N - 1 -> 0 < j < N - 1 ->
  Z.of_nat (length u') = (N - 2) * (N - 2) ->
  0 <= bx -> 0 <= by_ -> 0 <= ti < 32 -> 0 <= tj < 32 ->
  (exists d1 tr,
     discretise_poisson_gpu N u i j d = Ok (tt, d1) /\
     trace d1 = trace d ++ tr /\
     tr = [GRead ((j + 1) * N + i); GRead ((j - 1) * N + i);
           GRead (j * N + i - 1); GRead (j * N + i + 1);
           GRead (j * N + i); GWrite (j * N + i)] /\
     in_range (N * N) tr) /\
  (exists d2,
     exec (discretise_poisson_gpu_2_load N u' ti tj
             (bx * 32 + ti) (by_ * 32 + tj)) d' = Ok d2 /\
     trace d2
     = trace d' ++ load_trace N ti tj (bx * 32 + ti) (by_ * 32 + tj) /\
     in_range ((N - 2) * (N - 2))
       (load_trace N ti tj (bx * 32 + ti) (by_ * 32 + tj))).
Proof.
  intros HN Hu Ho Hi Hj Hu' Hbx Hby Hti Htj. split.
  - eexists _, _. split; [by apply naive_thread_interior|].
    cbn [trace]. split; [reflexivity|]. split; [reflexivity|].
    unfold in_range. repeat constructor; nia.
  - destruct (load_thread_from N u' bx by_ ti tj (fun _ _ => False) d' [] d')
      as (d2 & Hrun & _ & _ & Htr & Hin); [done..| |].
    + apply loading_start. intros a c [].
    + exists d2. done.
Qed.

Lemma stencil_accesses_in_range_witness :
  2 <= 35 /\ 0 < 7 < 35 - 1 /\ 0 <= 0 < 32 /\
  (exists d1 tr,
     discretise_poisson_gpu 35 (seqZ 0 1225) 7 3
       {| out := replicate 1225 None; local_u := fun _ _ => 0; trace := [] |}
     = Ok (tt, d1) /\
     trace d1 = [] ++ tr /\
     tr = [GRead ((3 + 1) * 35 + 7); GRead ((3 - 1) * 35 + 7);
           GRead (3 * 35 + 7 - 1); GRead (3 * 35 + 7 + 1);
           GRead (3 * 35 + 7); GWrite (3 * 35 + 7)] /\
     in_range (35 * 35) tr) /\
  (exists d2,
     exec (discretise_poisson_gpu_2_load 35 (seqZ 0 1089) 0 5
             (1 * 32 + 0) (0 * 32 + 5))
       {| out := replicate 1089 None; local_u := fun _ _ => 0; trace := [] |}
     = Ok d2 /\
     trace d2 = [] ++ load_trace 35 0 5 (1 * 32 + 0) (0 * 32 + 5) /\
     in_range ((35 - 2) * (35 - 2))
       (load_trace 35 0 5 (1 * 32 + 0) (0 * 32 + 5))).
Proof.
  split; [lia|]. split; [lia|]. split; [lia|].
  apply (stencil_accesses_in_range 35 (seqZ 0 1225) 7 3
           {| out := replicate 1225 None; local_u := fun _ _ => 0;
              trace := [] |}
           (seqZ 0 1089) 1 0 0 5
           {| out := replicate 1089 None; local_u := fun _ _ => 0;
              trace := [] |});
    [lia|vm_compute; reflexivity|vm_compute; reflexivity|lia|lia
    |vm_compute; reflexivity|lia|lia|lia|lia].
Defined.

Example load_trace_halo :
  load_trace 35 0 5 (1 * 32 + 0) (0 * 32 + 5)
  = [GRead 197; SWrite 1 6; GRead 196; SWrite 0 6; SWrite 2 6].
Proof. reflexivity. Qed.

Ltac not_corner :=
  unfold corner, haloSX, haloSY, SX, SY;
  repeat match goal with
  | |- context [?a =? ?b] => destruct (Z.eqb_spec a b); [lia|]
  end; reflexivity.


(** C10.  After the barrier a thread of the grid reads five cells of the
    shared array, [(i+2, j+1)], [(i, j+1)], [(i+1, j)], [(i+1, j+2)] and
    [(i+1, j+1)], and no other; none of them is a corner, so two states that
    differ in the corners only give the same output.  For the whole
    evaluator: two runs whose shared arrays start with arbitrary, different
    corner contents return the same vector. *)
Theorem corners_never_read N omega u order g1 g2 i j pi pj d1 d2 :
  2 <= N -> Z.of_nat (length u) = (N - 2) * (N - 2) ->
  order ≡ₚ block_threads ->
  (forall b a c, corner a c = false -> g1 b a c = g2 b a c) ->
  0 <= i < 32 -> 0 <= j < 32 -> 0 <= pi < N - 2 -> 0 <= pj < N - 2 ->
  Z.of_nat (length (out d1)) = (N - 2) * (N - 2) -> out d2 = out d1 ->
  (forall a c, corner a c = false -> local_u d1 a c = local_u d2 a c) ->
  (exists d1' d2' tr,
     discretise_poisson_gpu_2_compute N omega i j pi pj d1 = Ok (tt, d1') /\
     discretise_poisson_gpu_2_compute N omega i j pi pj d2 = Ok (tt, d2') /\
     out d1' = out d2' /\
     trace d1' = trace d1 ++ tr /\ trace d2' = trace d2 ++ tr /\
     tr = [SRead (i + 2) (j + 1); SRead i (j + 1); SRead (i + 1) j;
           SRead (i + 1) (j + 2); SRead (i + 1) (j + 1);
           GWrite (pj * (N - 2) + pi)] /\
     Forall (fun acc => match acc with
                        | SRead a c => corner a c = false
                        | _ => True
                        end) tr) /\
  eval_gpu_2 N omega u g1 order = eval_gpu_2 N omega u g2 order /\
  exists f, eval_gpu_2 N omega u g1 order = Ok f.
Proof.
  intros HN Hu Hperm Hg Hi Hj Hpi Hpj Ho1 Ho2 Hl. split.
  - eexists _, _, _.
    split; [apply compute_thread_eq; (done || lia)|].
    split; [apply compute_thread_eq; (done || lia || congruence)|].
    cbn [out trace]. split_and!; [|reflexivity..|].
    + rewrite Ho2.
      rewrite (Hl (i + 1) (j + 1)), (Hl (i + 2) (j + 1)), (Hl i (j + 1)),
        (Hl (i + 1) j), (Hl (i + 1) (j + 2)) by not_corner.
      reflexivity.
    + repeat constructor; not_corner.
  - rewrite !eval_gpu_2_run by done. split; [done|]. eexists. done.
Qed.

Lemma corners_never_read_witness :
  2 <= 4 /\ 0 <= 1 < 32 /\ 0 <= 1 < 4 - 2 /\
  (exists d1' d2' tr,
     discretise_poisson_gpu_2_compute 4 2 1 0 1 0
       {| out := replicate 4 None; local_u := fun _ _ => 5; trace := [] |}
     = Ok (tt, d1') /\
     discretise_poisson_gpu_2_compute 4 2 1 0 1 0
       {| out := replicate 4 None;
          local_u := fun a c => if corner a c then a + c else 5;
          trace := [] |}
     = Ok (tt, d2') /\
     out d1' = out d2' /\
     trace d1' = [] ++ tr /\ trace d2' = [] ++ tr /\
     tr = [SRead (1 + 2) (0 + 1); SRead 1 (0 + 1); SRead (1 + 1) 0;
           SRead (1 + 1) (0 + 2); SRead (1 + 1) (0 + 1);
           GWrite (0 * (4 - 2) + 1)] /\
     Forall (fun acc => match acc with
                        | SRead a c => corner a c = false
                        | _ => True
                        end) tr) /\
  eval_gpu_2 4 2 [1; 2; 3; 4] (fun _ _ _ => 0) block_threads
  = eval_gpu_2 4 2 [1; 2; 3; 4]
      (fun _ a c => if corner a c then 1000 + a else 0) block_threads /\
  exists f, eval_gpu_2 4 2 [1; 2; 3; 4] (fun _ _ _ => 0) block_threads = Ok f.
Proof.
  split; [lia|]. split; [lia|]. split; [lia|].
  apply (corners_never_read 4 2 [1; 2; 3; 4] block_threads
           (fun _ _ _ => 0) (fun _ a c => if corner a c then 1000 + a else 0)
           1 0 1 0
           {| out := replicate 4 None; local_u := fun _ _ => 5; trace := [] |}
           {| out := replicate 4 None;
              local_u := fun a c => if corner a c then a + c else 5;
              trace := [] |});
    [lia|reflexivity|reflexivity| |lia|lia|lia|lia|reflexivity|reflexivity|].
  - intros b a c Hc. simpl. rewrite Hc. reflexivity.
  - intros a c Hc. simpl. rewrite Hc. reflexivity.
Defined.

(** C1, as stated, fails: [discretise_poisson] takes [N] alone and builds the
    Poisson matrix, while the tiled kernel adds [omega^2 * center].  With
    [N = 3], [omega = 1] and [u = [1]] the kernel returns [17], the interior
    of [A @ u_padded] is [16]. *)
Lemma tiled_differs_from_sparse_when_omega_nonzero :
  exists st A,
    discretise_poisson 3 = Ok st /\ coo_matrix st = Some A /\
    eval_gpu_2 3 1 [1] (fun _ _ _ => 0) block_threads = Ok [Some 17] /\
    interior 3 (matvec (3 * 3) A (pad_with 3 [1])) = [16] /\
    eval_gpu_2 3 1 [1] (fun _ _ _ => 0) block_threads
    <> Ok (Some <$> interior 3 (matvec (3 * 3) A (pad_with 3 [1]))).
Proof.
  destruct (discretise_poisson_small 3 ltac:(lia)) as [Hrun Hcoo].
  eexists _, _. split; [exact Hrun|]. split; [exact Hcoo|].
  split; [vm_compute; reflexivity|]. split; [vm_compute; reflexivity|].
  vm_compute. intros H. discriminate H.
Qed.

(** C1, amended.  For every [N] from 2 to 4096, every [omega] and every
    interior vector [u] of length [(N-2)^2], the builder and the tiled
    evaluator both return, and the output of the tiled evaluator is, slot by
    slot, the interior of [A @ u_padded] plus [omega^2 * u], in exact
    arithmetic; [A] is built from [N] alone.  In particular the two agree
    when [omega = 0]. *)
Theorem tiled_matches_sparse_plus_mass N omega u garbage order :
  2 <= N <= 4096 -> Z.of_nat (length u) = (N - 2) * (N - 2) ->
  order ≡ₚ block_threads ->
  exists st A,
    discretise_poisson N = Ok st /\ coo_matrix st = Some A /\
    eval_gpu_2 N omega u garbage order
    = Ok (Some <$> zip_with (fun y x => y + omega ^ 2 * x)
                     (interior N (matvec (N * N) A (pad_with N u))) u).
Proof.
  intros HN Hu Hperm.
  destruct (discretise_poisson_small N HN) as [Hrun Hcoo].
  eexists _, _. split; [exact Hrun|]. split; [exact Hcoo|].
  rewrite eval_gpu_2_run by (done || lia). do 2 f_equal.
  rewrite interior_matvec by lia.
  rewrite zip_with_fmap_range by done.
  apply Forall_fmap_ext, Forall_forall. intros pk Hpk%elem_of_seqZ.
  rewrite tiled_out_naive by lia. f_equal.
  assert (0 < N - 2) as Hn by nia.
  assert (0 <= pk mod (N - 2) < N - 2) as Hi by (apply Z.mod_pos_bound; lia).
  assert (0 <= pk / (N - 2) < N - 2) as Hj
    by (split; [apply Z.div_pos; lia|apply Z.div_lt_upper_bound; lia]).
  symmetry. apply row_dot_stencil; nia.
Qed.

Lemma tiled_matches_sparse_plus_mass_witness :
  2 <= 4 <= 4096 /\
  exists st A,
    discretise_poisson 4 = Ok st /\ coo_matrix st = Some A /\
    eval_gpu_2 4 2 [1; 2; 3; 4] (fun _ a c => a + 100 * c) block_threads
    = Ok (Some <$> zip_with (fun y x => y + 2 ^ 2 * x)
                     (interior 4 (matvec (4 * 4) A (pad_with 4 [1; 2; 3; 4])))
                     [1; 2; 3; 4]).
Proof.
  split; [lia|].
  apply (tiled_matches_sparse_plus_mass 4 2 [1; 2; 3; 4]
           (fun _ a c => a + 100 * c) block_threads);
    [lia|reflexivity|reflexivity].
Defined.

(** C4, as stated, fails: the builder has no [omega], so the centre
    coefficient never carries [omega^2].  With [N = 3] the row of the one
    interior point, [k = 4], has centre coefficient [16], not
    [4 (N-1)^2 + omega^2 = 17] for [omega = 1]. *)
Lemma builder_centre_has_no_mass_term :
  exists st A,
    discretise_poisson 3 = Ok st /\ coo_matrix st = Some A /\
    row_entries A 4
    = [(4, 4, 16); (4, 5, -4); (4, 3, -4); (4, 7, -4); (4, 1, -4)] /\
    row_entries A 4
    <> [(4, 4, 4 * (3 - 1) ^ 2 + 1 ^ 2); (4, 5, -4); (4, 3, -4); (4, 7, -4);
        (4, 1, -4)].
Proof.
  destruct (discretise_poisson_small 3 ltac:(lia)) as [Hrun Hcoo].
  eexists _, _. split; [exact Hrun|]. split; [exact Hcoo|].
  split; [vm_compute; reflexivity|]. vm_compute. intros H. discriminate H.
Qed.

(** C4, amended.  For every [N] from 2 to 4096 the builder returns, and for
    every point [(i, j)] of the grid, with [k = j N + i]: if the point is on
    the boundary, the triplets of row [k] are the single [(k, k, 1)] and
    [f[k] = 0]; otherwise they are, in this order, [(k, k, 4 (N-1)^2)],
    [(k, k+1, -(N-1)^2)], [(k, k-1, -(N-1)^2)], [(k, k+N, -(N-1)^2)],
    [(k, k-N, -(N-1)^2)], and [f[k] = 1].  The builder takes no [omega]. *)
Theorem builder_rows N i j :
  2 <= N <= 4096 -> 0 <= i < N -> 0 <= j < N ->
  exists st A,
    discretise_poisson N = Ok st /\ coo_matrix st = Some A /\
    if (i =? 0) || (i =? N - 1) || (j =? 0) || (j =? N - 1)
    then
      row_entries A (j * N + i) = [(j * N + i, j * N + i, 1)] /\
      rhs st !! Z.to_nat (j * N + i) = Some (Some 0)
    else
      row_entries A (j * N + i)
      = [(j * N + i, j * N + i, 4 * (N - 1) ^ 2);
         (j * N + i, j * N + i + 1, - (N - 1) ^ 2);
         (j * N + i, j * N + i - 1, - (N - 1) ^ 2);
         (j * N + i, j * N + i + N, - (N - 1) ^ 2);
         (j * N + i, j * N + i - N, - (N - 1) ^ 2)] /\
      rhs st !! Z.to_nat (j * N + i) = Some (Some 1).
Proof.
  intros HN Hi Hj.
  destruct (discretise_poisson_small N HN) as [Hrun Hcoo].
  eexists _, _. split; [exact Hrun|]. split; [exact Hcoo|].
  rewrite row_entries_stencil by done.
  cbn [rhs builder_state]. unfold filled. cbn [replicate].
  rewrite app_nil_r, list_lookup_fmap, lookup_emitted_rhs by done.
  unfold stencil_entries, cell_rhs.
  destruct ((i =? 0) || (i =? N - 1) || (j =? 0) || (j =? N - 1)); done.
Qed.

Lemma builder_rows_witness :
  2 <= 5 <= 4096 /\ 0 <= 2 < 5 /\ 0 <= 1 < 5 /\
  exists st A,
    discretise_poisson 5 = Ok st /\ coo_matrix st = Some A /\
    if (2 =? 0) || (2 =? 5 - 1) || (1 =? 0) || (1 =? 5 - 1)
    then
      row_entries A (1 * 5 + 2) = [(1 * 5 + 2, 1 * 5 + 2, 1)] /\
      rhs st !! Z.to_nat (1 * 5 + 2) = Some (Some 0)
    else
      row_entries A (1 * 5 + 2)
      = [(1 * 5 + 2, 1 * 5 + 2, 4 * (5 - 1) ^ 2);
         (1 * 5 + 2, 1 * 5 + 2 + 1, - (5 - 1) ^ 2);
         (1 * 5 + 2, 1 * 5 + 2 - 1, - (5 - 1) ^ 2);
         (1 * 5 + 2, 1 * 5 + 2 + 5, - (5 - 1) ^ 2);
         (1 * 5 + 2, 1 * 5 + 2 - 5, - (5 - 1) ^ 2)] /\
      rhs st !! Z.to_nat (1 * 5 + 2) = Some (Some 1).
Proof.
  split; [lia|]. split; [lia|]. split; [lia|].
  apply (builder_rows 5 2 1); lia.
Defined.

(** ** The return statement of the builder *)

Lemma read_filled junk (w : list Z) k :
  read_array junk (filled w k) = w ++ (junk <$> seq (length w) k).
Proof.
  unfold read_array, filled. rewrite imap_app, imap_fmap, length_fmap. f_equal.
  - rewrite (imap_ext _ (const id)) by done. by rewrite imap_const, list_fmap_id.
  - rewrite (imap_ext _ (fun j _ => junk (length w + j)%nat)).
    + by rewrite imap_seq, length_replicate.
    + by intros j x [-> _]%lookup_replicate.
Qed.

Lemma in_shape_true n x : in_shape n x = true <-> 0 <= x < n.
Proof.
  unfold in_shape. rewrite andb_true_iff, Z.leb_le, Z.ltb_lt. done.
Qed.

Lemma forallb_fmap_seq (f : Z -> bool) (g : nat -> Z) a k :
  forallb f (g <$> seq a k) = true
  <-> forall p, (a <= p < a + k)%nat -> f (g p) = true.
Proof.
  rewrite <- Is_true_true, forallb_True, Forall_fmap, Forall_seq.
  split; intros H p Hp; apply Is_true_true, H, Hp.
Qed.

Lemma forallb_false {A : Type} (f : A -> bool) (l : list A) x :
  x ∈ l -> f x = false -> forallb f l = false.
Proof.
  intros Hx Hf. destruct (forallb f l) eqn:E; [|done].
  apply Is_true_true, forallb_True in E. rewrite Forall_forall in E.
  apply E, Is_true_true in Hx. congruence.
Qed.

(** The constructor returns exactly when every index it reads, written or
    not, lies within the shape. *)
Lemma checked_returns_iff n m es fs k kf :
  Forall (fun e => in_shape n (fst (fst e)) = true
                   /\ in_shape n (snd (fst e)) = true) es ->
  (exists A, coo_matrix_checked n m (builder_state es fs k kf) = Ok A)
  <-> forall p, (length es <= p < length es + k)%nat ->
                in_shape n (junk_row m p) = true
                /\ in_shape n (junk_col m p) = true.
Proof.
  intros Hes. unfold coo_matrix_checked, builder_state.
  cbn [row_ind col_ind data]. rewrite !read_filled, !forallb_app, !length_fmap.
  assert (forallb (in_shape n) ((fun e => fst (fst e)) <$> es) = true) as ->.
  { apply Is_true_true, forallb_True, Forall_fmap.
    eapply Forall_impl; [exact Hes|]. intros e [He _]. by apply Is_true_true. }
  assert (forallb (in_shape n) ((fun e => snd (fst e)) <$> es) = true) as ->.
  { apply Is_true_true, forallb_True, Forall_fmap.
    eapply Forall_impl; [exact Hes|]. intros e [_ He]. by apply Is_true_true. }
  cbn [andb].
  destruct (forallb (in_shape n) (junk_row m <$> seq (length es) k)) eqn:Er,
    (forallb (in_shape n) (junk_col m <$> seq (length es) k)) eqn:Ec;
    cbn [andb].
  - rewrite forallb_fmap_seq in Er, Ec. split; [|by eexists].
    intros _ p Hp. split; [by apply Er|by apply Ec].
  - split; [by intros [A HA]|]. intros H. exfalso.
    assert (forallb (in_shape n) (junk_col m <$> seq (length es) k) = true)
      as Ec'; [|congruence].
    apply forallb_fmap_seq. intros p Hp. by apply H.
  - split; [by intros [A HA]|]. intros H. exfalso.
    assert (forallb (in_shape n) (junk_row m <$> seq (length es) k) = true)
      as Er'; [|congruence].
    apply forallb_fmap_seq. intros p Hp. by apply H.
  - split; [by intros [A HA]|]. intros H. exfalso.
    assert (forallb (in_shape n) (junk_row m <$> seq (length es) k) = true)
      as Er'; [|congruence].
    apply forallb_fmap_seq. intros p Hp. by apply H.
Qed.

Lemma checked_cases n m st :
  coo_matrix_checked n m st = Raise ValueError
  \/ exists A, coo_matrix_checked n m st = Ok A.
Proof.
  unfold coo_matrix_checked. destruct (_ && _); [right; by eexists|by left].
Qed.

Lemma call_returns_iff m N st :
  discretise_poisson N = Ok st ->
  ((exists A f, discretise_poisson_call m N = Ok (A, f))
   <-> exists A, coo_matrix_checked (N ^ 2) m st = Ok A) /\
  ((forall A f, discretise_poisson_call m N <> Ok (A, f)) ->
   discretise_poisson_call m N = Raise ValueError).
Proof.
  intros Hst. unfold discretise_poisson_call. rewrite Hst.
  cbn [mbind result_bind].
  destruct (checked_cases (N ^ 2) m st) as [->|[A ->]]; cbn [mbind result_bind].
  - split; [|done]. split; [by intros (A & f & H)|by intros [A H]].
  - split; [split; intros _; [by eexists|by eexists _, _]|].
    intros H. by destruct (H _ _ eq_refl).
Qed.

Lemma emitted_below_two N :
  N < 2 -> emitted N = if N =? 1 then [(0, 0, 1)] else [].
Proof.
  intros HN. destruct (Z.eqb_spec N 1) as [->|Hne]; [reflexivity|].
  unfold emitted, range. by rewrite seqZ_nil by lia.
Qed.

(** C5, as stated, fails: the builder has no check of [N], and whether the
    call fails is decided by what [np.empty] left in the slots that the
    loops did not write.  With [N = 1] the loops write the triplet
    [(0, 0, 1)] into the first of five slots; when the eight unwritten index
    slots hold values that the constructor casts to the index [0] (every
    float below 1 in magnitude does), the call returns a matrix and [f]. *)
Lemma builder_returns_at_N_1 :
  discretise_poisson_call
    {| junk_row := fun _ => 0; junk_col := fun _ => 0;
       junk_data := fun p => 100 + Z.of_nat p; junk_f := fun _ => 0 |} 1
  = Ok ([(0, 0, 1); (0, 0, 101); (0, 0, 102); (0, 0, 103); (0, 0, 104)], [0]).
Proof. reflexivity. Qed.

(** C5, amended.  The builder does not validate [N].  For every [N < 2] the
    loops raise nothing: [5 N^2 - 16 N + 16] slots are allocated, the one
    triplet [(0, 0, 1)] is written when [N = 1] and none otherwise, and the
    arrays, which still hold unwritten slots, go to the sparse-matrix
    constructor at the return statement.  The call returns a result exactly
    when every unwritten row and column slot happens to hold an index within
    the shape [(N^2, N^2)]; otherwise it fails there, with the constructor's
    [ValueError].  With [N = 0] the shape is empty and the call always
    fails. *)
Theorem builder_below_two N m :
  N < 2 ->
  exists st,
    discretise_poisson N = Ok st /\
    count st = (if N =? 1 then 1 else 0) /\
    row_ind st = filled (if N =? 1 then [0] else [])
                   (Z.to_nat (5 * N ^ 2 - 16 * N + 16 - count st)) /\
    col_ind st = filled (if N =? 1 then [0] else [])
                   (Z.to_nat (5 * N ^ 2 - 16 * N + 16 - count st)) /\
    data st = filled (if N =? 1 then [1] else [])
                (Z.to_nat (5 * N ^ 2 - 16 * N + 16 - count st)) /\
    0 < 5 * N ^ 2 - 16 * N + 16 - count st /\
    ((exists A f, discretise_poisson_call m N = Ok (A, f)) <->
     forall p, count st <= Z.of_nat p < 5 * N ^ 2 - 16 * N + 16 ->
       0 <= junk_row m p < N ^ 2 /\ 0 <= junk_col m p < N ^ 2) /\
    ((forall A f, discretise_poisson_call m N <> Ok (A, f)) ->
     discretise_poisson_call m N = Raise ValueError) /\
    (N = 0 -> discretise_poisson_call m N = Raise ValueError).
Proof.
  intros HN. pose proof (nelements_pos N) as Hpos.
  pose proof (emitted_below_two N HN) as Hem.
  assert (Z.of_nat (length (emitted N)) = if N =? 1 then 1 else 0) as Hlen
    by (rewrite Hem; by destruct (N =? 1)).
  assert (Z.of_nat (length (emitted N)) < 5 * N ^ 2 - 16 * N + 16) as Hroom.
  { rewrite Hlen. destruct (Z.eqb_spec N 1) as [->|Hne]; lia. }
  pose proof (discretise_poisson_run N ltac:(lia)) as Hrun.
  set (k := (Z.to_nat (5 * N ^ 2 - 16 * N + 16) - length (emitted N))%nat)
    in Hrun.
  assert (Z.to_nat (5 * N ^ 2 - 16 * N + 16 - Z.of_nat (length (emitted N)))
          = k) as Hk by (unfold k; lia).
  destruct (call_returns_iff m N _ Hrun) as [Hiff Herr].
  assert ((exists A f, discretise_poisson_call m N = Ok (A, f)) <->
          forall p, Z.of_nat (length (emitted N)) <= Z.of_nat p
                    < 5 * N ^ 2 - 16 * N + 16 ->
            0 <= junk_row m p < N ^ 2 /\ 0 <= junk_col m p < N ^ 2) as Hret.
  { rewrite Hiff, checked_returns_iff.
    - split; intros H p Hp.
      + rewrite <- !in_shape_true. apply H. unfold k. lia.
      + rewrite !in_shape_true. apply H. unfold k in Hp. lia.
    - rewrite Hem. destruct (Z.eqb_spec N 1) as [->|Hne];
        [|apply Forall_nil_2]. by repeat constructor. }
  eexists. split; [exact Hrun|].
  cbn [count row_ind col_ind data builder_state]. rewrite Hk.
  split; [exact Hlen|].
  split; [rewrite Hem; by destruct (N =? 1)|].
  split; [rewrite Hem; by destruct (N =? 1)|].
  split; [rewrite Hem; by destruct (N =? 1)|].
  split; [lia|]. split; [exact Hret|]. split; [exact Herr|].
  intros ->. apply Herr. intros A f HA.
  pose proof (proj1 Hret (ex_intro _ A (ex_intro _ f HA)) 0%nat) as Hp.
  rewrite Hlen in Hp. cbn in Hp. lia.
Qed.

Lemma builder_below_two_witness :
  0 < 2 /\
  exists st,
    discretise_poisson 0 = Ok st /\
    count st = (if 0 =? 1 then 1 else 0) /\
    row_ind st = filled (if 0 =? 1 then [0] else [])
                   (Z.to_nat (5 * 0 ^ 2 - 16 * 0 + 16 - count st)) /\
    col_ind st = filled (if 0 =? 1 then [0] else [])
                   (Z.to_nat (5 * 0 ^ 2 - 16 * 0 + 16 - count st)) /\
    data st = filled (if 0 =? 1 then [1] else [])
                (Z.to_nat (5 * 0 ^ 2 - 16 * 0 + 16 - count st)) /\
    0 < 5 * 0 ^ 2 - 16 * 0 + 16 - count st /\
    ((exists A f,
        discretise_poisson_call
          {| junk_row := fun _ => 0; junk_col := fun _ => 0;
             junk_data := fun _ => 0; junk_f := fun _ => 0 |} 0 = Ok (A, f))
     <->
     forall p, count st <= Z.of_nat p < 5 * 0 ^ 2 - 16 * 0 + 16 ->
       0 <= 0 < 0 ^ 2 /\ 0 <= 0 < 0 ^ 2) /\
    ((forall A f,
        discretise_poisson_call
          {| junk_row := fun _ => 0; junk_col := fun _ => 0;
             junk_data := fun _ => 0; junk_f := fun _ => 0 |} 0
        <> Ok (A, f)) ->
     discretise_poisson_call
       {| junk_row := fun _ => 0; junk_col := fun _ => 0;
          junk_data := fun _ => 0; junk_f := fun _ => 0 |} 0
     = Raise ValueError) /\
    (0 = 0 ->
     discretise_poisson_call
       {| junk_row := fun _ => 0; junk_col := fun _ => 0;
          junk_data := fun _ => 0; junk_f := fun _ => 0 |} 0
     = Raise ValueError).
Proof.
  split; [lia|].
  apply (builder_below_two 0
           {| junk_row := fun _ => 0; junk_col := fun _ => 0;
              junk_data := fun _ => 0; junk_f := fun _ => 0 |}).
  lia.
Defined.

(** ** Beyond 4096 x 4096: float32 indices collide *)

(** No integer is stored as [2^24 + 1]: from [2^24] on, [float32] values are
    even. *)
Lemma float32_odd x : float32 x <> 16777217.
Proof.
  unfold float32. destruct (Z.ltb_spec (Z.abs x) (2 ^ 24)) as [Hlt|Hge].
  - change (2 ^ 24) with 16777216 in Hlt. lia.
  - assert (24 <= Z.log2 (Z.abs x)) as Hlog
      by (apply Z.log2_le_pow2; lia).
    set (e := Z.log2 (Z.abs x) - 23). assert (1 <= e) as He by (unfold e; lia).
    replace (2 ^ e) with (2 * 2 ^ (e - 1))
      by (rewrite <- Z.pow_succ_r by lia; f_equal; lia).
    set (q := if _ <? _ then _ else _). clearbody q.
    set (p := 2 ^ (e - 1)). clearbody p.
    destruct x; cbn [Z.sgn]; lia.
Qed.

Lemma emitted_columns N :
  Forall (fun e => exists x, snd (fst e) = float32 x) (emitted N).
Proof.
  unfold emitted. apply Forall_bind, Forall_forall. intros j _.
  apply Forall_bind, Forall_forall. intros i _.
  unfold compose, cell_entries. cbv beta zeta.
  destruct ((i =? 0) || (i =? N - 1) || (j =? 0) || (j =? N - 1));
    repeat (apply Forall_cons; split; [cbn [fst snd]; eexists; reflexivity|]);
    apply Forall_nil_2.
Qed.

Lemma vec_get_unit_vec_ne len K c : c <> K -> vec_get (unit_vec len K) c = 0.
Proof.
  intros Hne. unfold vec_get, unit_vec.
  destruct (Z.ltb_spec c 0); [done|]. rewrite list_lookup_fmap.
  destruct (range len !! Z.to_nat c) as [idx|] eqn:E; [|done].
  apply lookup_seqZ in E as [-> _]. cbn [fmap option_fmap option_map default].
  destruct (Z.eqb_spec (0 + Z.of_nat (Z.to_nat c)) K); [lia|done].
Qed.

Lemma vec_get_unit_vec_eq len K : 0 <= K < len -> vec_get (unit_vec len K) K = 1.
Proof.
  intros HK. unfold unit_vec. rewrite vec_get_fmap_range by done.
  by rewrite Z.eqb_refl.
Qed.

Lemma row_dot_zero A u r :
  Forall (fun e => vec_get u (snd (fst e)) = 0) A -> row_dot A u r = 0.
Proof.
  induction 1 as [|e A He _ IH]; [done|].
  cbn [row_dot foldr]. fold (row_dot A u r). rewrite IH, He.
  destruct (fst (fst e) =? r); lia.
Qed.

Lemma naive_out_interior N u i j :
  0 < i < N - 1 -> 0 < j < N - 1 ->
  naive_out N u (j * N + i)
  = (N - 1) ^ 2 * (4 * vec_get u (j * N + i) - vec_get u (j * N + i + N)
                   - vec_get u (j * N + i - N) - vec_get u (j * N + i - 1)
                   - vec_get u (j * N + i + 1)).
Proof.
  intros Hi Hj. unfold naive_out.
  destruct (flat_div_mod N j i ltac:(lia)) as [-> ->].
  destruct (Z.eqb_spec i 0); [lia|]. destruct (Z.eqb_spec i (N - 1)); [lia|].
  destruct (Z.eqb_spec j 0); [lia|]. by destruct (Z.eqb_spec j (N - 1)); [lia|].
Qed.

Lemma naive_out_unit_vec N i j :
  0 < i < N - 1 -> 0 < j < N - 1 ->
  naive_out N (unit_vec (N * N) (j * N + i + 1)) (j * N + i) = - (N - 1) ^ 2.
Proof.
  intros Hi Hj. rewrite naive_out_interior by done.
  rewrite !vec_get_unit_vec_ne by lia.
  rewrite vec_get_unit_vec_eq by nia. ring.
Qed.

Lemma remove_dups_length_le {A : Type} `{EqDecision A} (l : list A) :
  (length (remove_dups l) <= length l)%nat.
Proof.
  induction l as [|x l IH]; [done|]. cbn [remove_dups length].
  destruct (decide_rel elem_of x l); cbn [length]; lia.
Qed.

Lemma remove_dups_length_NoDup {A : Type} `{EqDecision A} (l : list A) :
  length (remove_dups l) = length l -> NoDup l.
Proof.
  induction l as [|x l IH]; [constructor|]. cbn [remove_dups length].
  pose proof (remove_dups_length_le l).
  destruct (decide_rel elem_of x l); cbn [length]; [lia|].
  intros Hlen. constructor; [done|]. apply IH. lia.
Qed.

(** Two triplets with the same coordinates are merged by [tocsr]. *)
Lemma nnz_merged (A : list (Z * Z * Z)) p q x y :
  A !! p = Some x -> A !! q = Some y -> p <> q -> fst x = fst y ->
  (nnz A < length A)%nat.
Proof.
  intros Hp Hq Hpq Hxy. unfold nnz.
  pose proof (remove_dups_length_le (fst <$> A)) as Hle.
  rewrite length_fmap in Hle.
  destruct (decide (length (remove_dups (fst <$> A)) = length A))
    as [Heq|Hne]; [|lia].
  exfalso. rewrite <- (length_fmap fst A) in Heq.
  apply remove_dups_length_NoDup in Heq.
  apply Hpq. eapply NoDup_lookup; [exact Heq|..].
  - by rewrite list_lookup_fmap, Hp.
  - by rewrite list_lookup_fmap, Hq, Hxy.
Qed.

Lemma lookup_bind_exists {A B : Type} (g : A -> list B) (l : list A) x :
  x ∈ l -> exists off, forall p y, g x !! p = Some y ->
                                   (l ≫= g) !! (off + p)%nat = Some y.
Proof.
  intros (l1 & l2 & ->)%list_elem_of_split.
  exists (length (l1 ≫= g)). intros p y Hp.
  rewrite bind_app, bind_cons, lookup_app_r by lia.
  replace (length (l1 ≫= g) + p - length (l1 ≫= g))%nat with p by lia.
  by apply lookup_app_l_Some.
Qed.

Lemma cell_entries_4097 :
  cell_entries 4097 4095 1
  = [(16777216, 16777216, 67108864); (16777216, 16777216, -16777216);
     (16777216, 16777215, -16777216); (16777216, 16781312, -16777216);
     (16777216, 16773119, -16777216)].
Proof. vm_compute. reflexivity. Qed.

(** C3 at [N = 4097].  The builder returns and emits [5 N^2 - 16 N + 16]
    triplets, but the column [2^24 + 1] of the right neighbour of the point
    [k = 2^24] is stored into the [float32] array [col_ind] as [2^24]: the
    coordinates [(2^24, 2^24)] are emitted twice in a row, so the matrix holds
    fewer than [5 N^2 - 16 N + 16] entries. *)
Theorem discretise_poisson_4097_nnz :
  exists st A,
    discretise_poisson 4097 = Ok st /\ coo_matrix st = Some A /\
    Z.of_nat (length A) = 5 * 4097 ^ 2 - 16 * 4097 + 16 /\
    Z.of_nat (length (rhs st)) = 4097 * 4097 /\
    (exists p, A !! p = Some (16777216, 16777216, 67108864) /\
               A !! S p = Some (16777216, 16777216, -16777216)) /\
    Z.of_nat (nnz A) < 5 * 4097 ^ 2 - 16 * 4097 + 16.
Proof.
  exists (builder_state (emitted 4097) (emitted_rhs 4097) 0 0), (emitted 4097).
  split; [apply discretise_poisson_full; lia|].
  split; [apply coo_matrix_full|].
  split; [apply length_emitted; lia|].
  split; [cbn [rhs builder_state];
          rewrite length_filled, length_emitted_rhs; lia|].
  destruct (lookup_bind_exists
              (fun j => range 4097 ≫= fun i => cell_entries 4097 j i)
              (range 4097) 4095) as [off1 Hoff1];
    [apply elem_of_seqZ; lia|].
  destruct (lookup_bind_exists (fun i => cell_entries 4097 4095 i)
              (range 4097) 1) as [off2 Hoff2];
    [apply elem_of_seqZ; lia|].
  assert (emitted 4097 !! (off1 + (off2 + 0))%nat
          = Some (16777216, 16777216, 67108864)) as H0.
  { apply Hoff1, Hoff2. by rewrite cell_entries_4097. }
  assert (emitted 4097 !! (off1 + (off2 + 1))%nat
          = Some (16777216, 16777216, -16777216)) as H1.
  { apply Hoff1, Hoff2. by rewrite cell_entries_4097. }
  split.
  - exists (off1 + (off2 + 0))%nat. split; [exact H0|].
    replace (S (off1 + (off2 + 0))) with (off1 + (off2 + 1))%nat by lia.
    exact H1.
  - rewrite <- (length_emitted 4097) by lia.
    apply inj_lt. eapply nnz_merged; [exact H0|exact H1|lia|reflexivity].
Qed.

(** C2 at [N = 4097].  No column index is stored as [2^24 + 1], so for the
    unit vector [u] at [2^24 + 1] the matrix the builder hands over gives
    [(A @ u)[2^24] = 0], while the naive evaluator returns
    [-(N-1)^2 * u[2^24 + 1] = -16777216] in slot [2^24]. *)
Theorem naive_differs_from_sparse_at_4097 :
  exists st A res,
    discretise_poisson 4097 = Ok st /\ coo_matrix st = Some A /\
    eval_gpu 4097 (unit_vec (4097 * 4097) 16777217) block_threads = Ok res /\
    res !! Z.to_nat 16777216 = Some (Some (-16777216)) /\
    matvec (4097 * 4097) A (unit_vec (4097 * 4097) 16777217)
      !! Z.to_nat 16777216 = Some 0.
Proof.
  exists (builder_state (emitted 4097) (emitted_rhs 4097) 0 0), (emitted 4097).
  eexists. split; [apply discretise_poisson_full; lia|].
  split; [apply coo_matrix_full|].
  split.
  { apply eval_gpu_run; [lia| |reflexivity].
    unfold unit_vec, range. rewrite length_fmap, length_seqZ. lia. }
  split.
  - pose proof (naive_out_unit_vec 4097 1 4095 ltac:(lia) ltac:(lia)) as Hout.
    change (4095 * 4097 + 1 + 1) with 16777217 in Hout.
    change (4095 * 4097 + 1) with 16777216 in Hout.
    change (- (4097 - 1) ^ 2) with (-16777216) in Hout.
    rewrite lookup_written by lia. rewrite Hout. reflexivity.
  - unfold matvec. rewrite list_lookup_fmap, lookup_range by lia.
    cbn [fmap option_fmap option_map]. rewrite row_dot_zero; [reflexivity|].
    eapply Forall_impl; [apply emitted_columns|].
    intros e [x ->]. apply vec_get_unit_vec_ne, float32_odd.
Qed.

(** ** Up to 4096 x 4096 the matrix is the exact one *)

(** For every [N] from 2 to 4096 and every full-grid vector [u] of length
    [N^2], the naive evaluator returns [A @ u], slot by slot and in exact
    arithmetic, whatever the order of the threads. *)
Lemma eval_gpu_matvec_small N u order :
  2 <= N <= 4096 -> Z.of_nat (length u) = N * N -> order ≡ₚ block_threads ->
  exists st A,
    discretise_poisson N = Ok st /\ coo_matrix st = Some A /\
    eval_gpu N u order = Ok (Some <$> matvec (N * N) A u).
Proof.
  intros HN Hu Hperm. destruct (discretise_poisson_small N HN) as [Hrun Hcoo].
  eexists _, _. split; [exact Hrun|]. split; [exact Hcoo|].
  rewrite eval_gpu_run by (done || lia). by rewrite matvec_stencil by lia.
Qed.

Lemma fmap_bind {A B C : Type} (f : B -> C) (g : A -> list B) (l : list A) :
  f <$> (l ≫= g) = l ≫= (fun x => f <$> g x).
Proof.
  induction l as [|x l IH]; [done|].
  by rewrite !bind_cons, fmap_app, IH.
Qed.

Lemma remove_dups_NoDup {A : Type} `{EqDecision A} (l : list A) :
  NoDup l -> remove_dups l = l.
Proof.
  induction 1 as [|x l Hx _ IH]; [done|]. cbn [remove_dups].
  destruct (decide_rel elem_of x l); [done|]. by rewrite IH.
Qed.

Lemma stencil_coords_row N j i c :
  c ∈ fst <$> stencil_entries N j i -> fst c = j * N + i.
Proof.
  intros (e & -> & He)%list_elem_of_fmap.
  pose proof (stencil_entries_row N j i) as Hrow.
  rewrite Forall_forall in Hrow. by apply Hrow.
Qed.

Lemma NoDup_stencil_cell N j i :
  2 <= N -> NoDup (fst <$> stencil_entries N j i).
Proof.
  intros HN. unfold stencil_entries.
  destruct ((i =? 0) || (i =? N - 1) || (j =? 0) || (j =? N - 1)).
  - cbn [fmap list_fmap fst]. apply NoDup_singleton.
  - cbn [fmap list_fmap fst].
    repeat (apply NoDup_cons; split;
            [rewrite ?elem_of_cons, elem_of_nil;
             intros H; repeat destruct H as [H|H];
             try (injection H as H); lia|]).
    apply NoDup_nil_2.
Qed.

Lemma NoDup_stencil_coords N : 2 <= N -> NoDup (fst <$> stencil N).
Proof.
  intros HN. unfold stencil. rewrite fmap_bind. apply NoDup_bind.
  - intros j1 j2 c Hj1%elem_of_seqZ Hj2%elem_of_seqZ Hc1 Hc2.
    rewrite fmap_bind in Hc1, Hc2.
    apply list_elem_of_bind in Hc1 as (i1 & Hc1 & Hi1%elem_of_seqZ).
    apply list_elem_of_bind in Hc2 as (i2 & Hc2 & Hi2%elem_of_seqZ).
    apply stencil_coords_row in Hc1, Hc2.
    assert (j1 * N + i1 = j2 * N + i2) as Heq by congruence.
    apply flat_index_inj in Heq; lia.
  - intros j Hj%elem_of_seqZ. rewrite fmap_bind. apply NoDup_bind.
    + intros i1 i2 c Hi1%elem_of_seqZ Hi2%elem_of_seqZ Hc1 Hc2.
      apply stencil_coords_row in Hc1, Hc2. lia.
    + intros i _. by apply NoDup_stencil_cell.
    + apply NoDup_seqZ.
  - apply NoDup_seqZ.
Qed.

(** For every [N] from 2 to 4096 the builder returns, no two triplets share
    their coordinates, the matrix holds exactly [5 N^2 - 16 N + 16] entries,
    and [f] has length [N^2]. *)
Lemma nnz_small N :
  2 <= N <= 4096 ->
  exists st A,
    discretise_poisson N = Ok st /\ coo_matrix st = Some A /\
    Z.of_nat (nnz A) = 5 * N ^ 2 - 16 * N + 16 /\
    Z.of_nat (length (rhs st)) = N * N.
Proof.
  intros HN. destruct (discretise_poisson_small N HN) as [Hrun Hcoo].
  eexists _, _. split; [exact Hrun|]. split; [exact Hcoo|]. split.
  - unfold nnz. rewrite remove_dups_NoDup by (apply NoDup_stencil_coords; lia).
    rewrite length_fmap, <- emitted_exact by done. apply length_emitted. lia.
  - cbn [rhs builder_state]. rewrite length_filled, length_emitted_rhs. nia.
Qed.

Lemma nnz_small_witness :
  2 <= 6 <= 4096 /\
  exists st A,
    discretise_poisson 6 = Ok st /\ coo_matrix st = Some A /\
    Z.of_nat (nnz A) = 5 * 6 ^ 2 - 16 * 6 + 16 /\
    Z.of_nat (length (rhs st)) = 6 * 6.
Proof. split; [lia|]. apply (nnz_small 6). lia. Defined.

Lemma eval_gpu_matvec_small_witness :
  2 <= 3 <= 4096 /\
  exists st A,
    discretise_poisson 3 = Ok st /\ coo_matrix st = Some A /\
    eval_gpu 3 [1; 2; 3; 4; 5; 6; 7; 8; 9] block_threads
    = Ok (Some <$> matvec (3 * 3) A [1; 2; 3; 4; 5; 6; 7; 8; 9]).
Proof.
  split; [lia|].
  apply (eval_gpu_matvec_small 3 [1; 2; 3; 4; 5; 6; 7; 8; 9] block_threads);
    [lia|reflexivity|reflexivity].
Defined.

Example load_trace_tile_corner :
  load_trace 66 31 0 31 0
  = [GRead 31; SWrite 32 1; GRead 32; SWrite 33 1; SWrite 32 0].
Proof. reflexivity. Qed.

(** * Further properties of the builder *)

Lemma emitted_rhs_indicator N :
  0 < N ->
  emitted_rhs N = (fun k => if on_boundary N k then 0 else 1) <$> range (N * N).
Proof.
  intros HN. apply list_eq. intros idx.
  destruct (decide (Z.of_nat idx < N * N)) as [Hlt|Hge].
  - set (k := Z.of_nat idx).
    assert (0 <= k mod N < N) as Hi by (apply Z.mod_pos_bound; lia).
    assert (0 <= k / N < N) as Hj
      by (split; [apply Z.div_pos; lia|apply Z.div_lt_upper_bound; lia]).
    assert (k = k / N * N + k mod N) as Hdm
      by (rewrite (Z.mul_comm (k / N)); apply Z.div_mod; lia).
    replace idx with (Z.to_nat k) by lia.
    rewrite list_lookup_fmap, lookup_range by lia.
    rewrite Hdm at 1. rewrite lookup_emitted_rhs by done.
    cbn [fmap option_fmap option_map]. unfold cell_rhs, on_boundary. cbv zeta.
    by destruct ((k mod N =? 0) || (k mod N =? N - 1) || (k / N =? 0)
                 || (k / N =? N - 1)).
  - rewrite !lookup_ge_None_2; [done| |].
    + unfold range. rewrite length_fmap, length_seqZ. lia.
    + rewrite length_emitted_rhs. nia.
Qed.

(** For every [N >= 2], above 4096 as well, the builder returns without an
    index error, [count] ends at [5 N^2 - 16 N + 16], which is the length of
    the three triplet arrays, no slot of them is left unwritten, and [f] is
    [1] at the interior nodes and [0] on the boundary. *)
Theorem builder_fills_arrays N :
  2 <= N ->
  exists st A,
    discretise_poisson N = Ok st /\
    count st = 5 * N ^ 2 - 16 * N + 16 /\
    Z.of_nat (length (row_ind st)) = count st /\
    Z.of_nat (length (col_ind st)) = count st /\
    Z.of_nat (length (data st)) = count st /\
    coo_matrix st = Some A /\ Z.of_nat (length A) = count st /\
    rhs st
    = Some <$> ((fun k => if on_boundary N k then 0 else 1) <$> range (N * N)).
Proof.
  intros HN. eexists _, _. split; [by apply discretise_poisson_full|].
  pose proof (length_emitted N HN) as Hlen.
  cbn [builder_state count row_ind col_ind data rhs].
  rewrite !length_filled, !length_fmap, !Nat.add_0_r.
  split; [done|]. split; [done|]. split; [done|]. split; [done|].
  split; [apply coo_matrix_full|]. split; [done|].
  unfold filled. cbn [replicate]. rewrite app_nil_r.
  by rewrite emitted_rhs_indicator by lia.
Qed.

Lemma builder_fills_arrays_witness :
  2 <= 6 /\
  exists st A,
    discretise_poisson 6 = Ok st /\
    count st = 5 * 6 ^ 2 - 16 * 6 + 16 /\
    Z.of_nat (length (row_ind st)) = count st /\
    Z.of_nat (length (col_ind st)) = count st /\
    Z.of_nat (length (data st)) = count st /\
    coo_matrix st = Some A /\ Z.of_nat (length A) = count st /\
    rhs st
    = Some <$> ((fun k => if on_boundary 6 k then 0 else 1)
                <$> range (6 * 6)).
Proof. split; [lia|]. apply (builder_fills_arrays 6). lia. Defined.

Lemma elem_of_row_entries (A : list (Z * Z * Z)) e :
  e ∈ A <-> e ∈ row_entries A (fst (fst e)).
Proof.
  unfold row_entries. rewrite list_elem_of_filter.
  split; [intros He; by split|intros [_ He]; exact He].
Qed.

(** For every [N] from 3 to 4096 the matrix of the builder is not symmetric:
    the row of the first interior node, [N + 1], holds the coefficient
    [-(N-1)^2] in the column of its boundary neighbour [N], and the row of
    that boundary node holds its diagonal entry only. *)
Theorem builder_not_symmetric N :
  3 <= N <= 4096 ->
  exists st A,
    discretise_poisson N = Ok st /\ coo_matrix st = Some A /\
    (N + 1, N, - (N - 1) ^ 2) ∈ A /\
    forall v, (N, N + 1, v) ∉ A.
Proof.
  intros HN.
  destruct (discretise_poisson_small N ltac:(lia)) as [Hrun Hcoo].
  eexists _, _. split; [exact Hrun|]. split; [exact Hcoo|]. split.
  - apply elem_of_row_entries. cbn [fst].
    replace (N + 1) with (1 * N + 1) by lia.
    rewrite row_entries_stencil by lia. unfold stencil_entries.
    destruct (Z.eqb_spec 1 0); [lia|]. destruct (Z.eqb_spec 1 (N - 1)); [lia|].
    cbn [orb]. replace (1 * N + 1 - 1) with N by lia.
    rewrite !elem_of_cons. right. right. by left.
  - intros v Hin. apply elem_of_row_entries in Hin. cbn [fst] in Hin.
    assert (row_entries (stencil N) N = stencil_entries N 1 0) as Hrow
      by (rewrite <- row_entries_stencil by lia; f_equal; lia).
    rewrite Hrow in Hin. unfold stencil_entries in Hin.
    cbn [Z.eqb orb] in Hin.
    apply list_elem_of_singleton in Hin. injection Hin as ? ? ?. lia.
Qed.

Lemma builder_not_symmetric_witness :
  3 <= 4 <= 4096 /\
  exists st A,
    discretise_poisson 4 = Ok st /\ coo_matrix st = Some A /\
    (4 + 1, 4, - (4 - 1) ^ 2) ∈ A /\
    forall v, (4, 4 + 1, v) ∉ A.
Proof. split; [lia|]. apply (builder_not_symmetric 4). lia. Defined.

Lemma stencil_entries_in_shape N j i :
  2 <= N -> 0 <= i < N -> 0 <= j < N ->
  Forall (fun e => 0 <= fst (fst e) < N * N /\ 0 <= snd (fst e) < N * N)
         (stencil_entries N j i).
Proof.
  intros HN Hi Hj. unfold stencil_entries.
  destruct (Z.eqb_spec i 0), (Z.eqb_spec i (N - 1)), (Z.eqb_spec j 0),
    (Z.eqb_spec j (N - 1)); cbn [orb];
    repeat (apply Forall_cons; split; [cbn [fst snd]; nia|]);
    apply Forall_nil_2.
Qed.

(** For every [N] from 2 to 4096 every row and column index the builder
    hands to the sparse-matrix constructor lies within the shape
    [(N^2, N^2)]. *)
Theorem builder_indices_in_shape N :
  2 <= N <= 4096 ->
  exists st A,
    discretise_poisson N = Ok st /\ coo_matrix st = Some A /\
    Forall (fun e => 0 <= fst (fst e) < N ^ 2 /\ 0 <= snd (fst e) < N ^ 2) A.
Proof.
  intros HN. destruct (discretise_poisson_small N HN) as [Hrun Hcoo].
  eexists _, _. split; [exact Hrun|]. split; [exact Hcoo|].
  rewrite Z.pow_2_r. unfold stencil.
  apply Forall_bind, Forall_forall. intros j Hj%elem_of_seqZ.
  apply Forall_bind, Forall_forall. intros i Hi%elem_of_seqZ.
  apply stencil_entries_in_shape; lia.
Qed.

Lemma builder_indices_in_shape_witness :
  2 <= 7 <= 4096 /\
  exists st A,
    discretise_poisson 7 = Ok st /\ coo_matrix st = Some A /\
    Forall (fun e => 0 <= fst (fst e) < 7 ^ 2 /\ 0 <= snd (fst e) < 7 ^ 2) A.
Proof. split; [lia|]. apply (builder_indices_in_shape 7). lia. Defined.

Lemma float32_last_index N :
  4098 <= N <= 5792 -> Z.even N = true -> float32 (N * N - 1) = N * N.
Proof.
  intros HN Heven. apply Z.even_spec in Heven as [m ->].
  assert (2 ^ 24 <= 2 * m * (2 * m) - 1 < 2 ^ 25) as Hb by (cbn; nia).
  unfold float32. rewrite Z.abs_eq by lia.
  destruct (Z.ltb_spec (2 * m * (2 * m) - 1) (2 ^ 24)); [lia|].
  assert (Z.log2 (2 * m * (2 * m) - 1) = 24) as ->
    by (apply Z.log2_unique; [lia|exact Hb]).
  cbv zeta. change (24 - 23) with 1. change (2 ^ 1) with 2.
  change (2 ^ (1 - 1)) with 1.
  assert ((2 * m * (2 * m) - 1) / 2 = 2 * m * m - 1) as Hq
    by (symmetry; apply Z.div_unique with 1; lia).
  assert ((2 * m * (2 * m) - 1) mod 2 = 1) as Hr
    by (symmetry; apply Z.mod_unique with (2 * m * m - 1); lia).
  rewrite Hq, Hr. cbn [Z.ltb Z.compare Pos.compare Pos.compare_cont].
  replace (2 * m * m - 1) with (1 + 2 * (m * m - 1)) by ring.
  rewrite Z.even_add_mul_2. cbn [Z.even].
  rewrite Z.sgn_pos by lia. ring.
Qed.

Lemma last_bind_snoc {A B : Type} (g : A -> list B) (l : list A) x y :
  last (g x) = Some y -> last ((l ++ [x]) ≫= g) = Some y.
Proof.
  intros Hy. rewrite bind_app, last_app.
  change ([x] ≫= g) with (g x ++ []). by rewrite app_nil_r, Hy.
Qed.

Lemma range_snoc n : 0 < n -> range n = range (n - 1) ++ [n - 1].
Proof.
  intros Hn. unfold range. replace n with ((n - 1) + 1) at 1 by lia.
  rewrite seqZ_app by lia. done.
Qed.

(** For every even [N] from 4098 to 5792 the last triplet the builder stores
    has the row and column index [N^2]: the index [N^2 - 1] of the last grid
    node does not fit a float32 and is stored as [N^2], one past the largest
    index of the shape [(N^2, N^2)]. *)
Theorem builder_last_index_out_of_shape N :
  4098 <= N <= 5792 -> Z.even N = true ->
  exists st A,
    discretise_poisson N = Ok st /\ coo_matrix st = Some A /\
    last A = Some (N ^ 2, N ^ 2, 1).
Proof.
  intros HN Heven. eexists _, _.
  split; [apply discretise_poisson_full; lia|].
  split; [apply coo_matrix_full|].
  unfold emitted. rewrite (range_snoc N) by lia.
  apply last_bind_snoc, last_bind_snoc. unfold cell_entries.
  rewrite Z.eqb_refl, orb_true_r. cbn [last].
  replace ((N - 1) * N + (N - 1)) with (N * N - 1) by ring.
  rewrite float32_last_index by done. by rewrite Z.pow_2_r.
Qed.

Lemma builder_last_index_out_of_shape_witness :
  4098 <= 4098 <= 5792 /\ Z.even 4098 = true /\
  exists st A,
    discretise_poisson 4098 = Ok st /\ coo_matrix st = Some A /\
    last A = Some (4098 ^ 2, 4098 ^ 2, 1).
Proof.
  split; [lia|]. split; [reflexivity|].
  apply (builder_last_index_out_of_shape 4098); [lia|reflexivity].
Defined.

(** ** The whole call of the builder *)

Lemma checked_full n m es fs kf :
  coo_matrix_checked n m (builder_state es fs 0 kf)
  = if forallb (in_shape n) ((fun e => fst (fst e)) <$> es)
       && forallb (in_shape n) ((fun e => snd (fst e)) <$> es)
    then Ok es else Raise ValueError.
Proof.
  unfold coo_matrix_checked, builder_state. cbn [row_ind col_ind data].
  rewrite !read_filled. cbn [seq fmap list_fmap]. rewrite !app_nil_r.
  by rewrite zip3_proj.
Qed.

Lemma stencil_in_shape N :
  2 <= N ->
  Forall (fun e => 0 <= fst (fst e) < N * N /\ 0 <= snd (fst e) < N * N)
         (stencil N).
Proof.
  intros HN. unfold stencil.
  apply Forall_bind, Forall_forall. intros j Hj%elem_of_seqZ.
  apply Forall_bind, Forall_forall. intros i Hi%elem_of_seqZ.
  apply stencil_entries_in_shape; lia.
Qed.

(** For every [N] from 2 to 4096 the whole call [discretise_poisson(N)]
    returns, whatever the uninitialised memory held: every slot is written
    and every index passes the constructor's check against the shape.  It
    returns the triplets and [f] of the arrays as the loops left them. *)
Theorem builder_call_returns N m :
  2 <= N <= 4096 ->
  exists st A f,
    discretise_poisson N = Ok st /\ coo_matrix st = Some A /\
    rhs st = Some <$> f /\
    discretise_poisson_call m N = Ok (A, f).
Proof.
  intros HN. destruct (discretise_poisson_small N HN) as [Hrun Hcoo].
  exists (builder_state (stencil N) (emitted_rhs N) 0 0), (stencil N),
    (emitted_rhs N).
  split; [exact Hrun|]. split; [exact Hcoo|].
  split; [cbn [rhs builder_state]; unfold filled; by rewrite app_nil_r|].
  unfold discretise_poisson_call. rewrite Hrun. cbn [mbind result_bind].
  rewrite checked_full. pose proof (stencil_in_shape N ltac:(lia)) as Hin.
  rewrite Z.pow_2_r.
  assert (forallb (in_shape (N * N)) ((fun e => fst (fst e)) <$> stencil N)
          = true) as ->.
  { apply Is_true_true, forallb_True, Forall_fmap.
    eapply Forall_impl; [exact Hin|]. intros e [He _].
    by apply Is_true_true, in_shape_true. }
  assert (forallb (in_shape (N * N)) ((fun e => snd (fst e)) <$> stencil N)
          = true) as ->.
  { apply Is_true_true, forallb_True, Forall_fmap.
    eapply Forall_impl; [exact Hin|]. intros e [_ He].
    by apply Is_true_true, in_shape_true. }
  cbn [andb mbind result_bind builder_state rhs].
  by rewrite read_filled, app_nil_r.
Qed.

Lemma builder_call_returns_witness :
  2 <= 3 <= 4096 /\
  exists st A f,
    discretise_poisson 3 = Ok st /\ coo_matrix st = Some A /\
    rhs st = Some <$> f /\
    discretise_poisson_call
      {| junk_row := fun p => Z.of_nat p - 7; junk_col := fun _ => 99;
         junk_data := fun _ => 5; junk_f := fun _ => 1 |} 3 = Ok (A, f).
Proof.
  split; [lia|].
  apply (builder_call_returns 3
           {| junk_row := fun p => Z.of_nat p - 7; junk_col := fun _ => 99;
              junk_data := fun _ => 5; junk_f := fun _ => 1 |}).
  lia.
Defined.

Lemma emitted_last N :
  4098 <= N <= 5792 -> Z.even N = true ->
  last (emitted N) = Some (N * N, N * N, 1).
Proof.
  intros HN Heven. unfold emitted. rewrite (range_snoc N) by lia.
  apply last_bind_snoc, last_bind_snoc. unfold cell_entries.
  rewrite Z.eqb_refl, orb_true_r. cbn [last].
  replace ((N - 1) * N + (N - 1)) with (N * N - 1) by ring.
  by rewrite float32_last_index.
Qed.

Lemma last_elem_of {A : Type} (l : list A) x : last l = Some x -> x ∈ l.
Proof.
  intros Hl. induction l as [|y l IH]; [done|].
  destruct l as [|z l]; [injection Hl as ->; apply list_elem_of_here|].
  apply list_elem_of_further, IH, Hl.
Qed.

(** For every even [N] from 4098 to 5792 the whole call
    [discretise_poisson(N)] fails at its return statement with the
    constructor's [ValueError]: the last row index is stored as [N^2], which
    is not below the shape [(N^2, N^2)]. *)
Theorem builder_call_raises N m :
  4098 <= N <= 5792 -> Z.even N = true ->
  discretise_poisson_call m N = Raise ValueError.
Proof.
  intros HN Heven. unfold discretise_poisson_call.
  rewrite discretise_poisson_full by lia. cbn [mbind result_bind].
  rewrite checked_full, Z.pow_2_r.
  rewrite (forallb_false _ _ (N * N)); [done| |].
  - apply list_elem_of_fmap. exists (N * N, N * N, 1). split; [done|].
    by apply last_elem_of, emitted_last.
  - unfold in_shape. destruct (Z.ltb_spec (N * N) (N * N)); [lia|].
    by rewrite andb_false_r.
Qed.

Lemma builder_call_raises_witness :
  4098 <= 4098 <= 5792 /\ Z.even 4098 = true /\
  discretise_poisson_call
    {| junk_row := fun _ => 0; junk_col := fun _ => 0;
       junk_data := fun _ => 0; junk_f := fun _ => 0 |} 4098
  = Raise ValueError.
Proof.
  split; [lia|]. split; [reflexivity|].
  apply (builder_call_raises 4098
           {| junk_row := fun _ => 0; junk_col := fun _ => 0;
              junk_data := fun _ => 0; junk_f := fun _ => 0 |});
    [lia|reflexivity].
Defined.

(** * Further properties of the naive evaluator *)

Lemma getitem_take (a : list Z) n k :
  0 <= k < Z.of_nat n -> (n <= length a)%nat ->
  getitem (take n a) k = getitem a k.
Proof.
  intros Hk Hn. rewrite !getitem_ok by (rewrite ?length_take; lia). f_equal.
  unfold vec_get. destruct (Z.ltb_spec k 0); [lia|].
  by rewrite lookup_take_lt by lia.
Qed.

Lemma for_each_ext {A S : Type} (xs : list A) (f g : A -> S -> result S) s :
  (forall x s, x ∈ xs -> f x s = g x s) -> for_each xs f s = for_each xs g s.
Proof.
  revert s. induction xs as [|x xs IH]; intros s Hfg; [done|].
  cbn [for_each]. rewrite Hfg by apply list_elem_of_here.
  destruct (g x s) as [s'|e]; [|done]. cbn [mbind result_bind].
  apply IH. intros y s1 Hy. apply Hfg. by apply list_elem_of_further.
Qed.

Lemma naive_thread_take N u i j d :
  0 <= i -> 0 <= j -> N * N <= Z.of_nat (length u) ->
  discretise_poisson_gpu N (take (Z.to_nat (N * N)) u) i j d
  = discretise_poisson_gpu N u i j d.
Proof.
  intros Hi Hj Hu. unfold discretise_poisson_gpu.
  destruct (Z.leb_spec N i); [done|]. destruct (Z.leb_spec N j); [done|].
  unfold gread.
  destruct (Z.eqb_spec i 0), (Z.eqb_spec i (N - 1)), (Z.eqb_spec j 0),
    (Z.eqb_spec j (N - 1)); cbn [orb];
    by rewrite !getitem_take by nia.
Qed.

Lemma eval_gpu_take N u order :
  0 <= N -> N * N <= Z.of_nat (length u) ->
  (forall t, t ∈ order -> t ∈ block_threads) ->
  eval_gpu N (take (Z.to_nat (N * N)) u) order = eval_gpu N u order.
Proof.
  intros HN Hu Horder. unfold eval_gpu.
  destruct (np_empty (N * N)) as [res|e]; [|done]. cbn [mbind result_bind].
  rewrite (for_each_ext (blocks ((N + 31) / 32)) _
    (fun b => for_each order
       (fun t => exec (discretise_poisson_gpu N u
                         (fst b * 32 + fst t) (snd b * 32 + snd t))))); [done|].
  intros [bx by_] d [Hbx Hby]%elem_of_blocks. apply for_each_ext.
  intros [i j] d1 [Hi Hj]%Horder%elem_of_block_threads. cbn [fst snd].
  unfold exec. by rewrite naive_thread_take by lia.
Qed.

(** For every [N >= 1], every input of at least [N^2] entries and every
    order of the threads, [eval_gpu] returns a vector of [N^2] entries, none
    left unwritten: the one it returns on the first [N^2] entries of the
    input with the threads in row-major order.  The entries past [N^2] are
    never read, and the order of the threads does not matter. *)
Theorem eval_gpu_reads_prefix N x order :
  1 <= N -> N * N <= Z.of_nat (length x) -> order ≡ₚ block_threads ->
  exists res,
    eval_gpu N x order = Ok (Some <$> res) /\
    Z.of_nat (length res) = N * N /\
    eval_gpu N (take (Z.to_nat (N * N)) x) block_threads = Ok (Some <$> res).
Proof.
  intros HN1 Hx Hperm. assert (0 <= N) as HN by lia.
  assert (Z.of_nat (length (take (Z.to_nat (N * N)) x)) = N * N) as Hlen
    by (rewrite length_take; lia).
  exists (naive_out N (take (Z.to_nat (N * N)) x) <$> range (N * N)).
  split; [|split].
  - rewrite <- eval_gpu_take by (done || intros t; by rewrite Hperm).
    by apply eval_gpu_run.
  - unfold range. rewrite length_fmap, length_seqZ. nia.
  - by apply eval_gpu_run.
Qed.

Lemma eval_gpu_reads_prefix_witness :
  1 <= 3 /\ 3 * 3 <= Z.of_nat (length [1; 2; 3; 4; 5; 6; 7; 8; 9; 10; 11]) /\
  exists res,
    eval_gpu 3 [1; 2; 3; 4; 5; 6; 7; 8; 9; 10; 11] (reverse block_threads)
    = Ok (Some <$> res) /\
    Z.of_nat (length res) = 3 * 3 /\
    eval_gpu 3 (take (Z.to_nat (3 * 3)) [1; 2; 3; 4; 5; 6; 7; 8; 9; 10; 11])
      block_threads = Ok (Some <$> res).
Proof.
  split; [lia|]. split; [simpl; lia|].
  apply (eval_gpu_reads_prefix 3 [1; 2; 3; 4; 5; 6; 7; 8; 9; 10; 11]
           (reverse block_threads)); [lia|simpl; lia|apply reverse_Permutation].
Defined.

Lemma getitem_cases (a : list Z) k :
  (exists v, getitem a k = Ok v) \/ getitem a k = Raise IndexError.
Proof.
  unfold getitem, py_index.
  destruct ((0 <=? _) && _); cbn [mbind result_bind]; [|by right].
  destruct (a !! _); [left; by eexists|by right].
Qed.

Lemma setitem_cases (a : ndarray) k v :
  (exists a', setitem a k v = Ok a') \/ setitem a k v = Raise IndexError.
Proof.
  unfold setitem, py_index.
  destruct ((0 <=? _) && _); cbn [mbind result_bind];
    [left; by eexists|by right].
Qed.

Lemma gread_cases (a : list Z) k d :
  (exists v, gread a k d
             = Ok (v, {| out := out d; local_u := local_u d;
                         trace := trace d ++ [GRead k] |}))
  \/ gread a k d = Raise IndexError.
Proof.
  unfold gread. destruct (getitem_cases a k) as [[v ->]| ->];
    [left; by eexists|by right].
Qed.

Lemma gwrite_cases k v d :
  (exists d', gwrite k v d = Ok (tt, d')) \/ gwrite k v d = Raise IndexError.
Proof.
  unfold gwrite. destruct (setitem_cases (out d) k v) as [[a' ->]| ->];
    [left; by eexists|by right].
Qed.

Lemma exec_cases (m : kernel unit) d :
  (exists r, m d = Ok r) \/ m d = Raise IndexError ->
  (exists d', exec m d = Ok d') \/ exec m d = Raise IndexError.
Proof.
  unfold exec. intros [[[[] d'] ->]| ->]; [left; by eexists|by right].
Qed.

Lemma bind_cases {A B : Type} (m : kernel A) (k : A -> kernel B) d :
  (exists r, m d = Ok r) \/ m d = Raise IndexError ->
  (forall x d', (exists r, k x d' = Ok r) \/ k x d' = Raise IndexError) ->
  (exists r, (m ≫= k) d = Ok r) \/ (m ≫= k) d = Raise IndexError.
Proof.
  intros Hm Hk. unfold mbind, kernel_bind.
  destruct Hm as [[[x d'] ->]| ->]; [apply Hk|by right].
Qed.

Lemma gread_cases' (a : list Z) k d :
  (exists r, gread a k d = Ok r) \/ gread a k d = Raise IndexError.
Proof.
  destruct (gread_cases a k d) as [[v ->]| ->]; [left; by eexists|by right].
Qed.

Lemma gwrite_cases' k v d :
  (exists r, gwrite k v d = Ok r) \/ gwrite k v d = Raise IndexError.
Proof.
  destruct (gwrite_cases k v d) as [[v' ->]| ->]; [left; by eexists|by right].
Qed.

Lemma naive_thread_cases N u i j d :
  (exists d', exec (discretise_poisson_gpu N u i j) d = Ok d')
  \/ exec (discretise_poisson_gpu N u i j) d = Raise IndexError.
Proof.
  apply exec_cases. unfold discretise_poisson_gpu.
  destruct (N <=? i); [left; by eexists|].
  destruct (N <=? j); [left; by eexists|].
  destruct ((i =? 0) || (i =? N - 1) || (j =? 0) || (j =? N - 1));
    repeat (apply bind_cases; [apply gread_cases'|intros ? ?]);
    apply gwrite_cases'.
Qed.

Lemma for_each_cases {A S : Type} (xs : list A) (body : A -> S -> result S)
    (e : exn) s :
  (forall x s, x ∈ xs -> (exists s', body x s = Ok s') \/ body x s = Raise e) ->
  (exists s', for_each xs body s = Ok s') \/ for_each xs body s = Raise e.
Proof.
  revert s. induction xs as [|x xs IH]; intros s Hb; [left; by eexists|].
  cbn [for_each]. destruct (Hb x s) as [[s' ->]| ->];
    [apply list_elem_of_here| |by right].
  cbn [mbind result_bind]. apply IH. intros y s1 Hy. apply Hb.
  by apply list_elem_of_further.
Qed.

Lemma for_each_raise {A S : Type} (xs : list A) (body : A -> S -> result S)
    (e : exn) x0 s :
  (forall x s, x ∈ xs -> (exists s', body x s = Ok s') \/ body x s = Raise e) ->
  x0 ∈ xs -> (forall s, body x0 s = Raise e) ->
  for_each xs body s = Raise e.
Proof.
  revert s. induction xs as [|x xs IH]; intros s Hb Hin Hx0.
  - by apply elem_of_nil in Hin.
  - cbn [for_each]. apply elem_of_cons in Hin as [<-|Hin].
    + by rewrite Hx0.
    + destruct (Hb x s) as [[s' ->]| ->]; [apply list_elem_of_here| |done].
      cbn [mbind result_bind]. apply IH; [|done|done].
      intros y s1 Hy. apply Hb. by apply list_elem_of_further.
Qed.

Lemma getitem_past_end (a : list Z) k :
  Z.of_nat (length a) <= k -> getitem a k = Raise IndexError.
Proof.
  intros Hk. unfold getitem, py_index.
  destruct (Z.ltb_spec k 0); [lia|].
  destruct (Z.ltb_spec k (Z.of_nat (length a))); [lia|].
  by rewrite andb_false_r.
Qed.

(** With fewer than [N^2] entries in the input, the thread of the last grid
    node reads [vec_in[N^2 - 1]], past the end. *)
Lemma eval_gpu_past_end N x order :
  0 < N -> Z.of_nat (length x) < N * N -> order ≡ₚ block_threads ->
  eval_gpu N x order = Raise IndexError.
Proof.
  intros HN Hx Hperm. unfold eval_gpu.
  rewrite np_empty_ok by nia. cbn [mbind result_bind].
  rewrite (for_each_raise _ _ IndexError ((N - 1) / 32, (N - 1) / 32)); [done| | |].
  - intros b d _. apply for_each_cases. intros t d1 _. apply naive_thread_cases.
  - apply elem_of_blocks. Z.to_euclidean_division_equations; lia.
  - intros d. cbn [fst snd].
    apply (for_each_raise _ _ IndexError ((N - 1) mod 32, (N - 1) mod 32)).
    + intros t d1 _. apply naive_thread_cases.
    + rewrite Hperm. apply elem_of_block_threads.
      Z.to_euclidean_division_equations; lia.
    + intros d1. cbn [fst snd].
      replace ((N - 1) / 32 * 32 + (N - 1) mod 32) with (N - 1)
        by (Z.to_euclidean_division_equations; lia).
      unfold exec, discretise_poisson_gpu.
      destruct (Z.leb_spec N (N - 1)); [lia|].
      rewrite Z.eqb_refl, orb_true_r. cbn [orb].
      unfold mbind, kernel_bind, gread.
      by rewrite getitem_past_end by nia.
Qed.

(** For every [N >= 1] and every order of the threads, [eval_gpu] returns a
    result exactly when the input has at least [N^2] entries.  With fewer,
    some thread reads past the end of the input: the kernel has no guard
    against it and the device checks no bounds; the model reports the access
    as an index error. *)
Theorem eval_gpu_returns_iff N x order :
  1 <= N -> order ≡ₚ block_threads ->
  (exists res, eval_gpu N x order = Ok res) <-> N * N <= Z.of_nat (length x).
Proof.
  intros HN Hperm. split.
  - intros [res Hres].
    destruct (decide (N * N <= Z.of_nat (length x))) as [|Hshort]; [done|].
    rewrite eval_gpu_past_end in Hres by (done || lia). done.
  - intros Hx. rewrite <- eval_gpu_take by (lia || intros t; by rewrite Hperm).
    rewrite eval_gpu_run; [by eexists|lia|rewrite length_take; lia|done].
Qed.

Lemma eval_gpu_returns_iff_witness :
  1 <= 3 /\
  ((exists res, eval_gpu 3 [5] block_threads = Ok res)
   <-> 3 * 3 <= Z.of_nat (length [5])).
Proof.
  split; [lia|]. apply (eval_gpu_returns_iff 3 [5] block_threads);
    [lia|reflexivity].
Defined.

(** The call of the validation cell, [eval_gpu(u_tilda)]: [u_tilda] is the
    interior of the padded grid and has [(N-2)^2] entries, fewer than the
    [N^2] the naive evaluator reads, so for every [N >= 2] some thread reads
    past its end. *)
Theorem validation_call_reads_past_end N r order :
  2 <= N -> order ≡ₚ block_threads ->
  eval_gpu N (interior N (pad_with N r)) order = Raise IndexError.
Proof.
  intros HN Hperm. apply eval_gpu_past_end; [lia| |done].
  unfold interior, range. rewrite length_fmap, length_seqZ. nia.
Qed.

Lemma validation_call_reads_past_end_witness :
  2 <= 4 /\
  eval_gpu 4 (interior 4 (pad_with 4 [1; 2; 3; 4])) block_threads
  = Raise IndexError.
Proof.
  split; [lia|].
  apply (validation_call_reads_past_end 4 [1; 2; 3; 4] block_threads);
    [lia|reflexivity].
Defined.

Lemma vec_get_replicate n c k :
  0 <= k < Z.of_nat n -> vec_get (replicate n c) k = c.
Proof.
  intros Hk. unfold vec_get. destruct (Z.ltb_spec k 0); [lia|].
  by rewrite lookup_replicate_2 by lia.
Qed.

(** On a constant vector [c] with [|c| < 2^22] the naive evaluator, the
    rounding of single precision included, returns [c] at the boundary nodes
    and [0] at the interior nodes: [4c], [3c], [2c], [c] and [0] are all held
    exactly.  (For a larger constant the rounding shows, as in
    [eval_gpu_f32_rounds].) *)
Theorem eval_gpu_constant N c order :
  1 <= N -> order ≡ₚ block_threads -> Z.abs c < 2 ^ 22 ->
  eval_gpu_f32 N (replicate (Z.to_nat (N * N)) c) order
  = Ok (Some <$> ((fun k => if on_boundary N k then c else 0)
                  <$> range (N * N))).
Proof.
  intros HN Hperm Hc.
  rewrite eval_gpu_f32_run by (done || lia || rewrite length_replicate; nia).
  do 2 f_equal. unfold astype_float32. rewrite fmap_replicate.
  assert (2 ^ 22 = 4194304 /\ 2 ^ 24 = 16777216) as [H22 H24] by done.
  rewrite (float32_exact c) by lia.
  apply Forall_fmap_ext, Forall_forall.
  intros k Hk%elem_of_seqZ.
  assert (0 <= k mod N < N) as Hi by (apply Z.mod_pos_bound; lia).
  assert (0 <= k / N < N) as Hj
    by (split; [apply Z.div_pos; lia|apply Z.div_lt_upper_bound; lia]).
  pose proof (Z.div_mod k N ltac:(lia)) as Hdm.
  unfold naive_out_f32, on_boundary. cbv zeta.
  destruct (Z.eqb_spec (k mod N) 0), (Z.eqb_spec (k mod N) (N - 1)),
    (Z.eqb_spec (k / N) 0), (Z.eqb_spec (k / N) (N - 1)); cbn [orb];
    rewrite ?vec_get_replicate by nia; try done.
  rewrite (float32_exact (4 * c)) by lia.
  replace (4 * c - c) with (3 * c) by ring.
  rewrite (float32_exact (3 * c)) by lia.
  replace (3 * c - c) with (2 * c) by ring.
  rewrite (float32_exact (2 * c)) by lia.
  replace (2 * c - c) with c by ring.
  rewrite (float32_exact c) by lia.
  by rewrite Z.sub_diag, Z.mul_0_r.
Qed.

Lemma eval_gpu_constant_witness :
  1 <= 4 /\ Z.abs 7 < 2 ^ 22 /\
  eval_gpu_f32 4 (replicate (Z.to_nat (4 * 4)) 7) block_threads
  = Ok (Some <$> ((fun k => if on_boundary 4 k then 7 else 0)
                  <$> range (4 * 4))).
Proof.
  split; [lia|]. split; [done|].
  apply (eval_gpu_constant 4 7 block_threads); [lia|reflexivity|done].
Defined.


(** * Further properties of the tiled evaluator *)

Lemma gread_bind_take {B : Type} (u : list Z) n k (f : Z -> kernel B) :
  0 <= k < n -> n <= Z.of_nat (length u) ->
  gread (take (Z.to_nat n) u) k ≫= f = gread u k ≫= f.
Proof. intros Hk Hn. unfold gread. by rewrite getitem_take by lia. Qed.

Lemma when_gread_swrite_take (u : list Z) n (c : bool) k a b :
  (c = true -> 0 <= k < n) -> n <= Z.of_nat (length u) ->
  when c (v ← gread (take (Z.to_nat n) u) k; swrite a b v)
  = when c (v ← gread u k; swrite a b v).
Proof.
  intros Hk Hn. destruct c; [|done]. cbn [when].
  apply gread_bind_take; [by apply Hk|done].
Qed.

Lemma load_thread_take N u i j pi pj d :
  0 <= pi -> 0 <= pj -> (N - 2) * (N - 2) <= Z.of_nat (length u) ->
  discretise_poisson_gpu_2_load N (take (Z.to_nat ((N - 2) * (N - 2))) u)
    i j pi pj d
  = discretise_poisson_gpu_2_load N u i j pi pj d.
Proof.
  intros Hpi Hpj Hu. unfold discretise_poisson_gpu_2_load.
  destruct (Z.leb_spec (N - 2) pi); [done|].
  destruct (Z.leb_spec (N - 2) pj); [done|].
  rewrite (gread_bind_take u _ (pj * (N - 2) + pi)) by (done || nia).
  rewrite !when_gread_swrite_take; [done|try done..].
  - intros [_ Hc%negb_true_iff%Z.eqb_neq]%andb_true_iff. nia.
  - intros [_ Hc%negb_true_iff%Z.eqb_neq]%andb_true_iff. nia.
  - intros [_ Hc%negb_true_iff%Z.eqb_neq]%andb_true_iff. nia.
  - intros [_ Hc%negb_true_iff%Z.eqb_neq]%andb_true_iff. nia.
Qed.

Lemma eval_gpu_2_take N omega u garbage order :
  (N - 2) * (N - 2) <= Z.of_nat (length u) ->
  (forall t, t ∈ order -> t ∈ block_threads) ->
  eval_gpu_2 N omega (take (Z.to_nat ((N - 2) * (N - 2))) u) garbage order
  = eval_gpu_2 N omega u garbage order.
Proof.
  intros Hu Horder. unfold eval_gpu_2.
  destruct (np_empty ((N - 2) ^ 2)) as [res|e]; [|done].
  cbn [mbind result_bind].
  rewrite (for_each_ext (blocks ((N - 2 + 31) / 32)) _
    (fun b => run_block_2 N omega u (garbage b) order b)); [done|].
  intros [bx by_] d [Hbx Hby]%elem_of_blocks. unfold run_block_2, load_phase.
  rewrite (for_each_ext order _
    (fun t => exec (discretise_poisson_gpu_2_load N u (fst t) (snd t)
                      ((bx, by_).1 * 32 + fst t) ((bx, by_).2 * 32 + snd t))));
    [done|].
  intros [i j] d1 [Hi Hj]%Horder%elem_of_block_threads. cbn [fst snd].
  unfold exec. by rewrite load_thread_take by lia.
Qed.

(** For every [N >= 3], every [omega], every input of at least [(N-2)^2]
    entries, every initial content of the shared arrays and every order of
    the threads, [eval_gpu_2] returns a vector of [(N-2)^2] entries, none
    left unwritten: the one it returns on the first [(N-2)^2] entries of the
    input, with shared arrays that start at zero and the threads in row-major
    order. *)
Theorem eval_gpu_2_reads_prefix N omega u garbage order :
  3 <= N -> (N - 2) * (N - 2) <= Z.of_nat (length u) ->
  order ≡ₚ block_threads ->
  exists f,
    eval_gpu_2 N omega u garbage order = Ok (Some <$> f) /\
    Z.of_nat (length f) = (N - 2) * (N - 2) /\
    eval_gpu_2 N omega (take (Z.to_nat ((N - 2) * (N - 2))) u)
      (fun _ _ _ => 0) block_threads = Ok (Some <$> f).
Proof.
  intros HN3 Hu Hperm. assert (2 <= N) as HN by lia.
  assert (0 <= (N - 2) * (N - 2)) as Hn by nia.
  assert (Z.of_nat (length (take (Z.to_nat ((N - 2) * (N - 2))) u))
          = (N - 2) * (N - 2)) as Hlen by (rewrite length_take; lia).
  exists (tiled_out N omega (take (Z.to_nat ((N - 2) * (N - 2))) u)
          <$> range ((N - 2) * (N - 2))).
  split; [|split].
  - rewrite <- eval_gpu_2_take by (done || intros t; by rewrite Hperm).
    by apply eval_gpu_2_run.
  - unfold range. rewrite length_fmap, length_seqZ. nia.
  - by apply eval_gpu_2_run.
Qed.

Lemma eval_gpu_2_reads_prefix_witness :
  3 <= 4 /\ (4 - 2) * (4 - 2) <= Z.of_nat (length [1; 2; 3; 4; 5; 6]) /\
  exists f,
    eval_gpu_2 4 2 [1; 2; 3; 4; 5; 6] (fun _ a c => a + 100 * c)
      (reverse block_threads) = Ok (Some <$> f) /\
    Z.of_nat (length f) = (4 - 2) * (4 - 2) /\
    eval_gpu_2 4 2 (take (Z.to_nat ((4 - 2) * (4 - 2))) [1; 2; 3; 4; 5; 6])
      (fun _ _ _ => 0) block_threads = Ok (Some <$> f).
Proof.
  split; [lia|]. split; [simpl; lia|].
  apply (eval_gpu_2_reads_prefix 4 2 [1; 2; 3; 4; 5; 6]
           (fun _ a c => a + 100 * c) (reverse block_threads));
    [lia|simpl; lia|apply reverse_Permutation].
Defined.

Lemma sh_index_cases n k :
  (exists k', sh_index n k = Ok k') \/ sh_index n k = Raise IndexError.
Proof.
  unfold sh_index. destruct ((0 <=? _) && _); [left; by eexists|by right].
Qed.

Lemma swrite_cases a b v d :
  (exists r, swrite a b v d = Ok r) \/ swrite a b v d = Raise IndexError.
Proof.
  unfold swrite. destruct (sh_index_cases haloSX a) as [[a' ->]| ->];
    [|by right]. cbn [mbind result_bind].
  destruct (sh_index_cases haloSY b) as [[b' ->]| ->];
    [left; by eexists|by right].
Qed.

Lemma sread_cases a b d :
  (exists r, sread a b d = Ok r) \/ sread a b d = Raise IndexError.
Proof.
  unfold sread. destruct (sh_index_cases haloSX a) as [[a' ->]| ->];
    [|by right]. cbn [mbind result_bind].
  destruct (sh_index_cases haloSY b) as [[b' ->]| ->];
    [left; by eexists|by right].
Qed.

Lemma when_cases (c : bool) (m : kernel unit) d :
  (exists r, m d = Ok r) \/ m d = Raise IndexError ->
  (exists r, when c m d = Ok r) \/ when c m d = Raise IndexError.
Proof. destruct c; [done|]. intros _. left. by eexists. Qed.

Ltac kernel_cases :=
  repeat first
    [ apply gread_cases' | apply gwrite_cases' | apply swrite_cases
    | apply sread_cases | apply when_cases
    | (apply bind_cases; [|intros ? ?]) ].

Lemma load_thread_cases N u i j pi pj d :
  (exists d', exec (discretise_poisson_gpu_2_load N u i j pi pj) d = Ok d')
  \/ exec (discretise_poisson_gpu_2_load N u i j pi pj) d = Raise IndexError.
Proof.
  apply exec_cases. unfold discretise_poisson_gpu_2_load.
  destruct (N - 2 <=? pi); [left; by eexists|].
  destruct (N - 2 <=? pj); [left; by eexists|].
  kernel_cases.
Qed.

Lemma compute_thread_cases N omega i j pi pj d :
  (exists d', exec (discretise_poisson_gpu_2_compute N omega i j pi pj) d
              = Ok d')
  \/ exec (discretise_poisson_gpu_2_compute N omega i j pi pj) d
     = Raise IndexError.
Proof.
  apply exec_cases. unfold discretise_poisson_gpu_2_compute.
  destruct (N - 2 <=? pi); [left; by eexists|].
  destruct (N - 2 <=? pj); [left; by eexists|].
  kernel_cases.
Qed.

Lemma run_block_2_cases N omega u garbage order b d :
  (exists d', run_block_2 N omega u garbage order b d = Ok d')
  \/ run_block_2 N omega u garbage order b d = Raise IndexError.
Proof.
  unfold run_block_2, load_phase.
  destruct (for_each_cases order
    (fun t => exec (discretise_poisson_gpu_2_load N u (fst t) (snd t)
                      (fst b * 32 + fst t) (snd b * 32 + snd t)))
    IndexError (enter_block garbage d)) as [[d1 ->]| ->]; [|  |by right].
  - intros t d1 _. apply load_thread_cases.
  - cbn [mbind result_bind]. apply for_each_cases.
    intros t d2 _. apply compute_thread_cases.
Qed.

(** With fewer than [(N-2)^2] entries in the input, the thread of the last
    interior node reads [u_tilda[(N-2)^2 - 1]], past the end. *)
Lemma eval_gpu_2_past_end N omega u garbage order :
  3 <= N -> Z.of_nat (length u) < (N - 2) * (N - 2) ->
  order ≡ₚ block_threads ->
  eval_gpu_2 N omega u garbage order = Raise IndexError.
Proof.
  intros HN Hu Hperm. unfold eval_gpu_2. rewrite Z.pow_2_r.
  rewrite np_empty_ok by nia. cbn [mbind result_bind].
  rewrite (for_each_raise _ _ IndexError ((N - 3) / 32, (N - 3) / 32));
    [done| | |].
  - intros b d _. apply run_block_2_cases.
  - apply elem_of_blocks. Z.to_euclidean_division_equations; lia.
  - intros d. unfold run_block_2, load_phase. cbn [fst snd].
    rewrite (for_each_raise _ _ IndexError ((N - 3) mod 32, (N - 3) mod 32));
      [done| | |].
    + intros t d1 _. apply load_thread_cases.
    + rewrite Hperm. apply elem_of_block_threads.
      Z.to_euclidean_division_equations; lia.
    + intros d1. cbn [fst snd].
      replace ((N - 3) / 32 * 32 + (N - 3) mod 32) with (N - 3)
        by (Z.to_euclidean_division_equations; lia).
      unfold exec, discretise_poisson_gpu_2_load.
      destruct (Z.leb_spec (N - 2) (N - 3)); [lia|].
      unfold mbind at 1. unfold kernel_bind at 1.
      unfold mbind at 1. unfold kernel_bind at 1. unfold gread at 1.
      by rewrite getitem_past_end by nia.
Qed.

(** For every [N >= 3], every [omega], every initial content of the shared
    arrays and every order of the threads, [eval_gpu_2] returns a result
    exactly when the input has at least [(N-2)^2] entries.  With fewer, some
    thread reads past the end of the input before the barrier: the kernel
    has no guard against it and the device checks no bounds; the model
    reports the access as an index error. *)
Theorem eval_gpu_2_returns_iff N omega u garbage order :
  3 <= N -> order ≡ₚ block_threads ->
  (exists f, eval_gpu_2 N omega u garbage order = Ok f)
  <-> (N - 2) * (N - 2) <= Z.of_nat (length u).
Proof.
  intros HN Hperm. split.
  - intros [f Hf].
    destruct (decide ((N - 2) * (N - 2) <= Z.of_nat (length u)))
      as [|Hshort]; [done|].
    rewrite eval_gpu_2_past_end in Hf by (done || lia). done.
  - intros Hu. assert (0 <= (N - 2) * (N - 2)) as Hn by nia.
    rewrite <- eval_gpu_2_take by (done || intros t; by rewrite Hperm).
    rewrite eval_gpu_2_run; [by eexists|lia|rewrite length_take; lia|done].
Qed.

Lemma eval_gpu_2_returns_iff_witness :
  3 <= 4 /\
  ((exists f, eval_gpu_2 4 0 [1; 2; 3] (fun _ _ _ => 0) block_threads = Ok f)
   <-> (4 - 2) * (4 - 2) <= Z.of_nat (length [1; 2; 3])).
Proof.
  split; [lia|].
  apply (eval_gpu_2_returns_iff 4 0 [1; 2; 3] (fun _ _ _ => 0) block_threads);
    [lia|reflexivity].
Defined.

Lemma length_pad_with N x : 0 <= N -> Z.of_nat (length (pad_with N x)) = N * N.
Proof.
  intros HN. unfold pad_with, range. rewrite length_fmap, length_seqZ. nia.
Qed.

(** The two evaluators agree: for every [N >= 3] the tiled evaluator on the
    interior vector [u] returns, slot by slot, what the naive evaluator
    returns at the interior nodes of the zero-padded vector, plus
    [omega^2 * u]. *)
Theorem tiled_agrees_with_naive N omega u garbage order order' :
  3 <= N -> Z.of_nat (length u) = (N - 2) * (N - 2) ->
  order ≡ₚ block_threads -> order' ≡ₚ block_threads ->
  exists full,
    eval_gpu N (pad_with N u) order' = Ok (Some <$> full) /\
    eval_gpu_2 N omega u garbage order
    = Ok (Some <$> zip_with (fun y x => y + omega ^ 2 * x) (interior N full) u).
Proof.
  intros HN3 Hu Hperm Hperm'. assert (2 <= N) as HN by lia.
  eexists. split.
  - apply eval_gpu_run; [lia|by apply length_pad_with; lia|done].
  - rewrite eval_gpu_2_run by done. do 2 f_equal.
    assert (interior N (naive_out N (pad_with N u) <$> range (N * N))
            = (fun pk => naive_out N (pad_with N u)
                           ((pk / (N - 2) + 1) * N + (pk mod (N - 2) + 1)))
              <$> range ((N - 2) * (N - 2))) as ->.
    { unfold interior. apply Forall_fmap_ext, Forall_forall.
      intros pk Hpk%elem_of_seqZ. cbv zeta. assert (0 < N - 2) as Hn by nia.
      assert (0 <= pk mod (N - 2) < N - 2) as Hi
        by (apply Z.mod_pos_bound; lia).
      assert (0 <= pk / (N - 2) < N - 2) as Hj
        by (split; [apply Z.div_pos; lia|apply Z.div_lt_upper_bound; lia]).
      by rewrite vec_get_fmap_range by nia. }
    rewrite zip_with_fmap_range by done.
    apply Forall_fmap_ext, Forall_forall. intros pk Hpk%elem_of_seqZ.
    by rewrite tiled_out_naive by lia.
Qed.

Lemma tiled_agrees_with_naive_witness :
  3 <= 4 /\ Z.of_nat (length [1; 2; 3; 4]) = (4 - 2) * (4 - 2) /\
  exists full,
    eval_gpu 4 (pad_with 4 [1; 2; 3; 4]) block_threads = Ok (Some <$> full) /\
    eval_gpu_2 4 3 [1; 2; 3; 4] (fun _ a c => a - c) block_threads
    = Ok (Some <$> zip_with (fun y x => y + 3 ^ 2 * x) (interior 4 full)
                     [1; 2; 3; 4]).
Proof.
  split; [lia|]. split; [reflexivity|].
  apply (tiled_agrees_with_naive 4 3 [1; 2; 3; 4] (fun _ a c => a - c)
           block_threads block_threads); [lia|reflexivity|reflexivity..].
Defined.

(** ** The tiled evaluator as a linear operator *)

Lemma vec_get_lin a b (u v : list Z) k :
  length u = length v ->
  vec_get (lin a b u v) k = a * vec_get u k + b * vec_get v k.
Proof.
  intros Hlen. unfold vec_get, lin. destruct (k <? 0); [lia|].
  rewrite lookup_zip_with.
  destruct (u !! Z.to_nat k) as [x|] eqn:Hx,
    (v !! Z.to_nat k) as [y|] eqn:Hy; cbn; try lia.
  - apply lookup_lt_Some in Hx. apply lookup_ge_None in Hy. lia.
  - apply lookup_lt_Some in Hy. apply lookup_ge_None in Hx. lia.
Qed.

Lemma padded_lin n a b (u v : list Z) x y :
  length u = length v ->
  padded n (lin a b u v) x y = a * padded n u x y + b * padded n v x y.
Proof.
  intros Hlen. unfold padded.
  destruct ((0 <=? x) && (x <? n) && (0 <=? y) && (y <? n)); [|lia].
  by apply vec_get_lin.
Qed.

Lemma tiled_out_lin N omega a b (u v : list Z) pk :
  length u = length v ->
  tiled_out N omega (lin a b u v) pk
  = a * tiled_out N omega u pk + b * tiled_out N omega v pk.
Proof.
  intros Hlen. unfold tiled_out. cbv zeta.
  rewrite !padded_lin by done. ring.
Qed.

(** The tiled evaluator is linear, in exact arithmetic: on [a * u + b * v] it
    returns [a] times what it returns on [u] plus [b] times what it returns
    on [v]. *)
Theorem eval_gpu_2_linear N omega a b u v garbage order :
  3 <= N ->
  Z.of_nat (length u) = (N - 2) * (N - 2) ->
  Z.of_nat (length v) = (N - 2) * (N - 2) ->
  order ≡ₚ block_threads ->
  exists fu fv,
    eval_gpu_2 N omega u garbage order = Ok (Some <$> fu) /\
    eval_gpu_2 N omega v garbage order = Ok (Some <$> fv) /\
    eval_gpu_2 N omega (lin a b u v) garbage order
    = Ok (Some <$> lin a b fu fv).
Proof.
  intros HN3 Hu Hv Hperm. assert (2 <= N) as HN by lia.
  eexists _, _.
  split; [by apply eval_gpu_2_run|]. split; [by apply eval_gpu_2_run|].
  assert (length u = length v) as Hlen by lia.
  rewrite eval_gpu_2_run; [|done| |done].
  - do 2 f_equal. unfold lin at 2.
    rewrite zip_with_fmap_l, zip_with_fmap_r, zip_with_diag.
    apply Forall_fmap_ext, Forall_forall. intros pk _.
    by apply tiled_out_lin.
  - unfold lin. rewrite length_zip_with. lia.
Qed.

Lemma eval_gpu_2_linear_witness :
  3 <= 4 /\ Z.of_nat (length [1; 2; 3; 4]) = (4 - 2) * (4 - 2) /\
  Z.of_nat (length [5; -1; 0; 2]) = (4 - 2) * (4 - 2) /\
  exists fu fv,
    eval_gpu_2 4 2 [1; 2; 3; 4] (fun _ _ _ => 9) block_threads
    = Ok (Some <$> fu) /\
    eval_gpu_2 4 2 [5; -1; 0; 2] (fun _ _ _ => 9) block_threads
    = Ok (Some <$> fv) /\
    eval_gpu_2 4 2 (lin 3 (-2) [1; 2; 3; 4] [5; -1; 0; 2]) (fun _ _ _ => 9)
      block_threads
    = Ok (Some <$> lin 3 (-2) fu fv).
Proof.
  split; [lia|]. split; [reflexivity|]. split; [reflexivity|].
  apply (eval_gpu_2_linear 4 2 3 (-2) [1; 2; 3; 4] [5; -1; 0; 2]
           (fun _ _ _ => 9) block_threads);
    [lia|reflexivity|reflexivity|reflexivity].
Defined.

(** ** Sums over the grid *)

Lemma sum_range_ext (f g : Z -> Z) n :
  (forall k, 0 <= k < n -> f k = g k) -> sum_range f n = sum_range g n.
Proof.
  intros Hfg. unfold sum_range. f_equal.
  apply Forall_fmap_ext, Forall_forall. intros k Hk%elem_of_seqZ.
  apply Hfg. lia.
Qed.

Lemma foldr_add_app (l1 l2 : list Z) :
  foldr Z.add 0 (l1 ++ l2) = foldr Z.add 0 l1 + foldr Z.add 0 l2.
Proof. induction l1 as [|x l1 IH]; cbn [foldr app]; lia. Qed.

Lemma sum_range_app (f : Z -> Z) a b :
  0 <= a -> 0 <= b ->
  sum_range f (a + b) = sum_range f a + sum_range (fun k => f (a + k)) b.
Proof.
  intros Ha Hb. unfold sum_range, range.
  rewrite seqZ_app, fmap_app, foldr_add_app by done. f_equal.
  replace (0 + a) with (a + 0) by lia.
  by rewrite <- fmap_add_seqZ, <- list_fmap_compose.
Qed.

Lemma sum_range_zero (f : Z -> Z) n :
  (forall k, 0 <= k < n -> f k = 0) -> sum_range f n = 0.
Proof.
  intros Hf. rewrite (sum_range_ext f (fun _ => 0)) by done.
  unfold sum_range. induction (range n) as [|x l IH]; cbn; lia.
Qed.

Lemma sum_range_stencil (c w : Z) (p xp xm yp ym : Z -> Z) n :
  sum_range (fun k => c * (4 * p k - xp k - xm k - ym k - yp k) + w * p k) n
  = c * (4 * sum_range p n - sum_range xp n - sum_range xm n
         - sum_range ym n - sum_range yp n) + w * sum_range p n.
Proof.
  unfold sum_range. induction (range n) as [|x l IH];
    cbn [fmap list_fmap foldr] in *; [ring|]. rewrite IH. ring.
Qed.

Lemma dot_fmap_range (v : list Z) (F : Z -> Z) n :
  Z.of_nat (length v) = n ->
  dot v (F <$> range n) = sum_range (fun k => vec_get v k * F k) n.
Proof.
  intros Hv. unfold dot, sum_range.
  rewrite <- (zip_with_flip Z.mul), zip_with_fmap_range by done. done.
Qed.

Section grid_shift.
Variable n : Z.
Hypothesis Hn : 0 < n.
Variables U V : Z -> Z -> Z.

Lemma grid_split k :
  0 <= k < n * n ->
  0 <= k mod n < n /\ 0 <= k / n < n /\ k = k / n * n + k mod n.
Proof.
  intros Hk. split; [apply Z.mod_pos_bound; lia|].
  split; [split; [apply Z.div_pos; lia|apply Z.div_lt_upper_bound; lia]|].
  rewrite (Z.mul_comm (k / n)). apply Z.div_mod. lia.
Qed.

(** Summation by parts along a row: the neighbour to the right of every
    node against the neighbour to the left of every node. *)
Lemma grid_sum_shift_x :
  (forall j, U n j = 0) -> (forall j, V (-1) j = 0) ->
  grid_sum n (fun i j => V i j * U (i + 1) j)
  = grid_sum n (fun i j => U i j * V (i - 1) j).
Proof.
  intros HU HV. unfold grid_sum.
  replace (n * n) with ((n * n - 1) + 1) at 1 by lia.
  rewrite sum_range_app by nia.
  rewrite (sum_range_zero _ 1).
  2:{ intros k Hk. replace k with 0 by lia. rewrite Z.add_0_r.
      destruct (flat_div_mod n (n - 1) (n - 1) ltac:(lia)) as [Hd Hm].
      replace ((n - 1) * n + (n - 1)) with (n * n - 1) in Hd, Hm by ring.
      rewrite Hm. replace (n - 1 + 1) with n by lia. rewrite HU. ring. }
  replace (n * n) with (1 + (n * n - 1)) at 2 by lia.
  rewrite (sum_range_app _ 1) by nia.
  rewrite (sum_range_zero _ 1).
  2:{ intros k Hk. replace k with 0 by lia.
      rewrite Z.mod_0_l, Z.div_0_l by lia. cbn [Z.sub Z.opp Z.add Z.pos_sub].
      rewrite HV. ring. }
  rewrite Z.add_0_r, Z.add_0_l. apply sum_range_ext. intros k Hk.
  destruct (grid_split k ltac:(lia)) as (Hi & Hj & Hdm).
  destruct (decide (k mod n = n - 1)) as [Hlast|Hin].
  - destruct (flat_div_mod n (k / n + 1) 0 ltac:(lia)) as [Hd Hm].
    replace ((k / n + 1) * n + 0) with (1 + k) in Hd, Hm by lia.
    rewrite Hd, Hm, Hlast. replace (n - 1 + 1) with n by lia.
    cbn [Z.sub Z.opp Z.add Z.pos_sub]. rewrite HU, HV. ring.
  - destruct (flat_div_mod n (k / n) (k mod n + 1) ltac:(lia)) as [Hd Hm].
    replace (k / n * n + (k mod n + 1)) with (1 + k) in Hd, Hm by lia.
    rewrite Hd, Hm. replace (k mod n + 1 - 1) with (k mod n) by lia. ring.
Qed.

(** Summation by parts along a column. *)
Lemma grid_sum_shift_y :
  (forall i, U i n = 0) -> (forall i, V i (-1) = 0) ->
  grid_sum n (fun i j => V i j * U i (j + 1))
  = grid_sum n (fun i j => U i j * V i (j - 1)).
Proof.
  intros HU HV. unfold grid_sum.
  replace (n * n) with ((n * n - n) + n) at 1 by lia.
  rewrite sum_range_app by nia.
  rewrite (sum_range_zero _ n).
  2:{ intros k Hk.
      destruct (flat_div_mod n (n - 1) k ltac:(lia)) as [Hd Hm].
      replace ((n - 1) * n + k) with (n * n - n + k) in Hd, Hm by ring.
      rewrite Hd. replace (n - 1 + 1) with n by lia. rewrite HU. ring. }
  replace (n * n) with (n + (n * n - n)) at 2 by lia.
  rewrite (sum_range_app _ n) by nia.
  rewrite (sum_range_zero _ n).
  2:{ intros k Hk. rewrite Z.div_small by lia.
      cbn [Z.sub Z.opp Z.add Z.pos_sub]. rewrite HV. ring. }
  rewrite Z.add_0_r, Z.add_0_l. apply sum_range_ext. intros k Hk.
  destruct (grid_split k ltac:(nia)) as (Hi & Hj & Hdm).
  destruct (flat_div_mod n (k / n + 1) (k mod n) ltac:(lia)) as [Hd Hm].
  replace ((k / n + 1) * n + k mod n) with (n + k) in Hd, Hm by lia.
  rewrite Hd, Hm. replace (k / n + 1 - 1) with (k / n) by lia. ring.
Qed.

End grid_shift.

Lemma padded_outside n (u : list Z) x y :
  x < 0 \/ n <= x \/ y < 0 \/ n <= y -> padded n u x y = 0.
Proof. intros H. symmetry. by apply padded_eq_out. Qed.

(** [v . (A~ u)] as sums over the grid. *)
Lemma dot_tiled_out N omega (u v : list Z) :
  2 < N -> Z.of_nat (length v) = (N - 2) * (N - 2) ->
  dot v (tiled_out N omega u <$> range ((N - 2) * (N - 2)))
  = (N - 1) ^ 2
    * (4 * grid_sum (N - 2)
             (fun i j => padded (N - 2) v i j * padded (N - 2) u i j)
       - grid_sum (N - 2)
           (fun i j => padded (N - 2) v i j * padded (N - 2) u (i + 1) j)
       - grid_sum (N - 2)
           (fun i j => padded (N - 2) v i j * padded (N - 2) u (i - 1) j)
       - grid_sum (N - 2)
           (fun i j => padded (N - 2) v i j * padded (N - 2) u i (j - 1))
       - grid_sum (N - 2)
           (fun i j => padded (N - 2) v i j * padded (N - 2) u i (j + 1)))
    + omega ^ 2
      * grid_sum (N - 2)
          (fun i j => padded (N - 2) v i j * padded (N - 2) u i j).
Proof.
  intros HN Hv. rewrite dot_fmap_range by done. unfold grid_sum.
  rewrite <- sum_range_stencil. apply sum_range_ext. intros k Hk.
  destruct (grid_split (N - 2) ltac:(lia) k Hk) as (Hi & Hj & Hdm).
  rewrite (padded_eq_in (N - 2) v (k mod (N - 2)) (k / (N - 2)) k) by done.
  unfold tiled_out. cbv zeta. ring.
Qed.

(** The tiled evaluator is symmetric, in exact arithmetic: for any two
    interior vectors [u] and [v], [v . (A~ u) = u . (A~ v)]. *)
Theorem eval_gpu_2_symmetric N omega u v garbage order :
  3 <= N ->
  Z.of_nat (length u) = (N - 2) * (N - 2) ->
  Z.of_nat (length v) = (N - 2) * (N - 2) ->
  order ≡ₚ block_threads ->
  exists fu fv,
    eval_gpu_2 N omega u garbage order = Ok (Some <$> fu) /\
    eval_gpu_2 N omega v garbage order = Ok (Some <$> fv) /\
    dot v fu = dot u fv.
Proof.
  intros HN3 Hu Hv Hperm. assert (2 <= N) as HN by lia.
  eexists _, _.
  split; [by apply eval_gpu_2_run|]. split; [by apply eval_gpu_2_run|].
  rewrite !dot_tiled_out by (done || lia).
  assert (forall a b : list Z,
    grid_sum (N - 2)
      (fun i j => padded (N - 2) a i j * padded (N - 2) b i j)
    = grid_sum (N - 2)
        (fun i j => padded (N - 2) b i j * padded (N - 2) a i j)) as Hc.
  { intros a b. apply sum_range_ext. intros k _. ring. }
  rewrite (Hc v u).
  rewrite (grid_sum_shift_x (N - 2) ltac:(lia) (padded (N - 2) u)
             (padded (N - 2) v))
    by (intros; apply padded_outside; lia).
  rewrite (grid_sum_shift_x (N - 2) ltac:(lia) (padded (N - 2) v)
             (padded (N - 2) u))
    by (intros; apply padded_outside; lia).
  rewrite (grid_sum_shift_y (N - 2) ltac:(lia) (padded (N - 2) u)
             (padded (N - 2) v))
    by (intros; apply padded_outside; lia).
  rewrite (grid_sum_shift_y (N - 2) ltac:(lia) (padded (N - 2) v)
             (padded (N - 2) u))
    by (intros; apply padded_outside; lia).
  ring.
Qed.

Lemma eval_gpu_2_symmetric_witness :
  3 <= 5 /\
  Z.of_nat (length [1; 2; 3; 4; 5; 6; 7; 8; 9]) = (5 - 2) * (5 - 2) /\
  Z.of_nat (length [2; 0; -1; 3; 1; 1; 0; 4; -2]) = (5 - 2) * (5 - 2) /\
  exists fu fv,
    eval_gpu_2 5 3 [1; 2; 3; 4; 5; 6; 7; 8; 9] (fun _ _ _ => 1) block_threads
    = Ok (Some <$> fu) /\
    eval_gpu_2 5 3 [2; 0; -1; 3; 1; 1; 0; 4; -2] (fun _ _ _ => 1) block_threads
    = Ok (Some <$> fv) /\
    dot [2; 0; -1; 3; 1; 1; 0; 4; -2] fu = dot [1; 2; 3; 4; 5; 6; 7; 8; 9] fv.
Proof.
  split; [lia|]. split; [reflexivity|]. split; [reflexivity|].
  apply (eval_gpu_2_symmetric 5 3 [1; 2; 3; 4; 5; 6; 7; 8; 9]
           [2; 0; -1; 3; 1; 1; 0; 4; -2] (fun _ _ _ => 1) block_threads);
    [lia|reflexivity|reflexivity|reflexivity].
Defined.

(** ** The tiled evaluator is positive semidefinite *)

Lemma sum_range_le (f g : Z -> Z) n :
  (forall k, 0 <= k < n -> f k <= g k) -> sum_range f n <= sum_range g n.
Proof.
  intros Hfg. unfold sum_range.
  assert (Forall (fun k => f k <= g k) (range n)) as Hall.
  { apply Forall_forall. intros k Hk%elem_of_seqZ. apply Hfg. lia. }
  induction Hall as [|k l Hk _ IH]; cbn [fmap list_fmap foldr] in *; lia.
Qed.

Lemma sum_range_add (f g : Z -> Z) n :
  sum_range (fun k => f k + g k) n = sum_range f n + sum_range g n.
Proof.
  unfold sum_range. induction (range n) as [|x l IH];
    cbn [fmap list_fmap foldr] in *; lia.
Qed.

Lemma sum_range_nonneg (f : Z -> Z) n :
  (forall k, 0 <= k < n -> 0 <= f k) -> 0 <= sum_range f n.
Proof.
  intros Hf. rewrite <- (sum_range_zero (fun _ => 0) n) by done.
  by apply sum_range_le.
Qed.

Section energy.
Variable n : Z.
Hypothesis Hn : 0 < n.
Variable U : Z -> Z -> Z.

(** The squares of the right neighbours sum to at most the squares of the
    nodes, and likewise for the neighbours below. *)
Lemma grid_sum_sq_shift_x :
  (forall j, U n j = 0) ->
  grid_sum n (fun i j => U (i + 1) j * U (i + 1) j)
  <= grid_sum n (fun i j => U i j * U i j).
Proof.
  intros HU.
  assert (grid_sum n (fun i j => U (i + 1) j * U (i + 1) j)
          = grid_sum n (fun i j => (if i <? 0 then 0 else 1)
                                   * (U (i + 1) j * U (i + 1) j))) as ->.
  { apply sum_range_ext. intros k Hk.
    destruct (grid_split n Hn k Hk) as (Hi & _ & _).
    destruct (Z.ltb_spec (k mod n) 0); lia. }
  rewrite (grid_sum_shift_x n Hn (fun i j => U i j * U i j)
             (fun i j => if i <? 0 then 0 else 1));
    [|intros j; rewrite HU; ring|done].
  apply sum_range_le. intros k Hk. cbv beta.
  pose proof (Z.square_nonneg (U (k mod n) (k / n))).
  destruct (k mod n - 1 <? 0); lia.
Qed.

Lemma grid_sum_sq_shift_y :
  (forall i, U i n = 0) ->
  grid_sum n (fun i j => U i (j + 1) * U i (j + 1))
  <= grid_sum n (fun i j => U i j * U i j).
Proof.
  intros HU.
  assert (grid_sum n (fun i j => U i (j + 1) * U i (j + 1))
          = grid_sum n (fun i j => (if j <? 0 then 0 else 1)
                                   * (U i (j + 1) * U i (j + 1)))) as ->.
  { apply sum_range_ext. intros k Hk.
    destruct (grid_split n Hn k Hk) as (_ & Hj & _).
    destruct (Z.ltb_spec (k / n) 0); lia. }
  rewrite (grid_sum_shift_y n Hn (fun i j => U i j * U i j)
             (fun i j => if j <? 0 then 0 else 1));
    [|intros i; rewrite HU; ring|done].
  apply sum_range_le. intros k Hk. cbv beta.
  pose proof (Z.square_nonneg (U (k mod n) (k / n))).
  destruct (k / n - 1 <? 0); lia.
Qed.

Lemma grid_sum_cross_x :
  (forall j, U n j = 0) ->
  grid_sum n (fun i j => U i j * U (i + 1) j)
  <= grid_sum n (fun i j => U i j * U i j).
Proof.
  intros HU. pose proof (grid_sum_sq_shift_x HU) as Hsq.
  assert (2 * grid_sum n (fun i j => U i j * U (i + 1) j)
          <= grid_sum n (fun i j => U i j * U i j)
             + grid_sum n (fun i j => U (i + 1) j * U (i + 1) j)); [|lia].
  unfold grid_sum. rewrite <- sum_range_add.
  rewrite <- (Z.add_diag (sum_range _ _)), <- sum_range_add.
  apply sum_range_le. intros k _. cbv beta.
  pose proof (Z.square_nonneg (U (k mod n) (k / n) - U (k mod n + 1) (k / n))).
  lia.
Qed.

Lemma grid_sum_cross_y :
  (forall i, U i n = 0) ->
  grid_sum n (fun i j => U i j * U i (j + 1))
  <= grid_sum n (fun i j => U i j * U i j).
Proof.
  intros HU. pose proof (grid_sum_sq_shift_y HU) as Hsq.
  assert (2 * grid_sum n (fun i j => U i j * U i (j + 1))
          <= grid_sum n (fun i j => U i j * U i j)
             + grid_sum n (fun i j => U i (j + 1) * U i (j + 1))); [|lia].
  unfold grid_sum. rewrite <- sum_range_add.
  rewrite <- (Z.add_diag (sum_range _ _)), <- sum_range_add.
  apply sum_range_le. intros k _. cbv beta.
  pose proof (Z.square_nonneg (U (k mod n) (k / n) - U (k mod n) (k / n + 1))).
  lia.
Qed.

End energy.

(** The tiled evaluator is positive semidefinite, in exact arithmetic: for
    every interior vector [u] and every [omega], [u . (A~ u) >= 0]. *)
Theorem eval_gpu_2_positive N omega u garbage order :
  3 <= N -> Z.of_nat (length u) = (N - 2) * (N - 2) ->
  order ≡ₚ block_threads ->
  exists fu,
    eval_gpu_2 N omega u garbage order = Ok (Some <$> fu) /\ 0 <= dot u fu.
Proof.
  intros HN3 Hu Hperm. assert (2 <= N) as HN by lia.
  eexists. split; [by apply eval_gpu_2_run|].
  rewrite dot_tiled_out by (done || lia).
  assert (0 < N - 2) as Hn by lia.
  set (U := padded (N - 2) u).
  assert (forall j, U (N - 2) j = 0) as Hx
    by (intros; apply padded_outside; lia).
  assert (forall i, U i (N - 2) = 0) as Hy
    by (intros; apply padded_outside; lia).
  assert (forall j, U (-1) j = 0) as Hx'
    by (intros; apply padded_outside; lia).
  assert (forall i, U i (-1) = 0) as Hy'
    by (intros; apply padded_outside; lia).
  rewrite <- (grid_sum_shift_x (N - 2) Hn U U Hx Hx').
  rewrite <- (grid_sum_shift_y (N - 2) Hn U U Hy Hy').
  pose proof (grid_sum_cross_x (N - 2) Hn U Hx) as Hcx.
  pose proof (grid_sum_cross_y (N - 2) Hn U Hy) as Hcy.
  assert (0 <= grid_sum (N - 2) (fun i j => U i j * U i j)) as HA.
  { apply sum_range_nonneg. intros k _. apply Z.square_nonneg. }
  apply Z.add_nonneg_nonneg.
  - apply Z.mul_nonneg_nonneg; [apply Z.pow_even_nonneg; by exists 1|lia].
  - apply Z.mul_nonneg_nonneg; [apply Z.pow_even_nonneg; by exists 1|lia].
Qed.

Lemma eval_gpu_2_positive_witness :
  3 <= 5 /\
  Z.of_nat (length [1; -2; 3; -4; 5; -6; 7; -8; 9]) = (5 - 2) * (5 - 2) /\
  exists fu,
    eval_gpu_2 5 0 [1; -2; 3; -4; 5; -6; 7; -8; 9] (fun _ _ _ => 1)
      block_threads = Ok (Some <$> fu) /\
    0 <= dot [1; -2; 3; -4; 5; -6; 7; -8; 9] fu.
Proof.
  split; [lia|]. split; [reflexivity|].
  apply (eval_gpu_2_positive 5 0 [1; -2; 3; -4; 5; -6; 7; -8; 9]
           (fun _ _ _ => 1) block_threads); [lia|reflexivity|reflexivity].
Defined.

(** * The padder and the slicing of the validation cell *)

Lemma length_setslice (a : ndarray) lo hi v :
  length (setslice a lo hi v) = length a.
Proof. unfold setslice. by rewrite length_imap. Qed.

Lemma lookup_setslice (a : ndarray) lo hi v idx :
  setslice a lo hi v !! idx
  = (fun x => if (slice_bound (Z.of_nat (length a)) lo <=? Z.of_nat idx)
                 && (Z.of_nat idx <? slice_bound (Z.of_nat (length a)) hi)
              then Some v else x) <$> a !! idx.
Proof. unfold setslice. by rewrite list_lookup_imap. Qed.

(** With pad widths [(a, b)], [a >= 0] and [b > 0], the padder keeps the
    length of [vector], overwrites its first [a] and its last [b] entries
    with the pad value and leaves the entries between them as they are.  The
    pad value is [kwargs['padder']], and [0] when [kwargs] has no such
    key. *)
Theorem pad_with_vector_edges vector a b iaxis kwargs idx :
  0 <= a -> 0 < b -> (idx < length vector)%nat ->
  length (pad_with_vector vector (a, b) iaxis kwargs) = length vector /\
  pad_with_vector vector (a, b) iaxis kwargs !! idx
  = if (Z.of_nat idx <? a) || (Z.of_nat (length vector) - b <=? Z.of_nat idx)
    then Some (Some (default 0 (kwargs !! "padder"%string)))
    else vector !! idx.
Proof.
  intros Ha Hb Hidx. unfold pad_with_vector. cbn [fst snd]. cbv zeta.
  split; [by rewrite !length_setslice|].
  rewrite !lookup_setslice, !length_setslice.
  destruct (lookup_lt_is_Some_2 vector idx Hidx) as [x ->].
  cbn [fmap option_fmap option_map]. unfold slice_bound.
  set (len := Z.of_nat (length vector)). assert (Z.of_nat idx < len) by lia.
  destruct (Z.ltb_spec 0 0); [lia|]. destruct (Z.ltb_spec a 0); [lia|].
  destruct (Z.ltb_spec (- b) 0); [|lia]. destruct (Z.ltb_spec len 0); [lia|].
  destruct (Z.ltb_spec (Z.of_nat idx) a),
    (Z.leb_spec (len - b) (Z.of_nat idx)),
    (Z.leb_spec (0 `max` (len `min` 0)) (Z.of_nat idx)),
    (Z.ltb_spec (Z.of_nat idx) (0 `max` (len `min` a))),
    (Z.leb_spec (0 `max` (len `min` (- b + len))) (Z.of_nat idx)),
    (Z.ltb_spec (Z.of_nat idx) (0 `max` (len `min` len)));
    cbn [andb orb]; (done || lia).
Qed.

Lemma pad_with_vector_edges_witness :
  0 <= 1 /\ 0 < 2 /\ (3 < length [Some 1; Some 2; Some 3; Some 4; Some 5])%nat /\
  length (pad_with_vector [Some 1; Some 2; Some 3; Some 4; Some 5] (1, 2) 0
            {[ "padder"%string := 9 ]})
  = length [Some 1; Some 2; Some 3; Some 4; Some 5] /\
  pad_with_vector [Some 1; Some 2; Some 3; Some 4; Some 5] (1, 2) 0
    {[ "padder"%string := 9 ]} !! 3%nat
  = if (Z.of_nat 3 <? 1)
       || (Z.of_nat (length [Some 1; Some 2; Some 3; Some 4; Some 5]) - 2
           <=? Z.of_nat 3)
    then Some (Some (default 0
                       (({[ "padder"%string := 9 ]} : gmap string Z)
                          !! "padder"%string)))
    else [Some 1; Some 2; Some 3; Some 4; Some 5] !! 3%nat.
Proof.
  split; [lia|]. split; [lia|]. split; [simpl; lia|].
  apply (pad_with_vector_edges [Some 1; Some 2; Some 3; Some 4; Some 5] 1 2 0
           {[ "padder"%string := 9 ]} 3); [lia|lia|simpl; lia].
Defined.

Example pad_with_vector_default :
  pad_with_vector [Some 1; Some 2; Some 3; Some 4; Some 5] (1, 2) 0 ∅
  = [Some 0; Some 2; Some 3; Some 0; Some 0].
Proof. reflexivity. Qed.

(** With a pad width of [0] after the data the padder overwrites the whole
    of [vector] with the pad value, whatever the width before: [vector[-0:]]
    is [vector[0:]]. *)
Theorem pad_with_vector_zero_after vector a iaxis kwargs :
  pad_with_vector vector (a, 0) iaxis kwargs
  = replicate (length vector) (Some (default 0 (kwargs !! "padder"%string))).
Proof.
  unfold pad_with_vector. cbn [fst snd]. cbv zeta. apply list_eq. intros idx.
  rewrite !lookup_setslice, !length_setslice.
  destruct (decide (idx < length vector)%nat) as [Hidx|Hidx].
  - destruct (lookup_lt_is_Some_2 vector idx Hidx) as [x ->].
    rewrite lookup_replicate_2 by done.
    cbn [fmap option_fmap option_map]. unfold slice_bound.
    set (len := Z.of_nat (length vector)). assert (Z.of_nat idx < len) by lia.
    change (- 0) with 0. destruct (Z.ltb_spec 0 0); [lia|].
    destruct (Z.ltb_spec len 0); [lia|].
    destruct (Z.leb_spec (0 `max` (len `min` 0)) (Z.of_nat idx)); [|lia].
    destruct (Z.ltb_spec (Z.of_nat idx) (0 `max` (len `min` len))); [|lia].
    by rewrite andb_true_r.
  - rewrite (lookup_ge_None_2 vector) by lia.
    cbn [fmap option_fmap option_map]. symmetry.
    apply lookup_replicate_None. lia.
Qed.

Lemma fmap_vec_get_range (u : list Z) n :
  Z.of_nat (length u) = n -> vec_get u <$> range n = u.
Proof.
  intros Hu. apply list_eq. intros idx. rewrite list_lookup_fmap. unfold range.
  destruct (decide (Z.of_nat idx < n)) as [Hlt|Hge].
  - rewrite lookup_seqZ_lt by done. cbn [fmap option_fmap option_map].
    rewrite Z.add_0_l. replace idx with (Z.to_nat (Z.of_nat idx)) at 2 by lia.
    by rewrite vec_get_lookup by lia.
  - rewrite lookup_seqZ_ge by lia. by rewrite lookup_ge_None_2 by lia.
Qed.

(** Slicing the interior out of a zero-padded grid gives the interior
    vector back: [np.pad(r, 1, pad_with)[1:N-1, 1:N-1].flatten()] is
    [r.flatten()]. *)
Theorem interior_pad_with N r :
  2 <= N -> Z.of_nat (length r) = (N - 2) * (N - 2) ->
  interior N (pad_with N r) = r.
Proof.
  intros HN Hr. rewrite <- (fmap_vec_get_range r _ Hr) at 2.
  unfold interior. apply Forall_fmap_ext, Forall_forall.
  intros pk Hpk%elem_of_seqZ. cbv zeta.
  destruct (grid_split (N - 2) ltac:(nia) pk ltac:(lia)) as (Hi & Hj & Hdm).
  rewrite pad_with_padded by lia. symmetry. by apply padded_eq_in.
Qed.

Lemma interior_pad_with_witness :
  2 <= 4 /\ Z.of_nat (length [7; 8; 9; 10]) = (4 - 2) * (4 - 2) /\
  interior 4 (pad_with 4 [7; 8; 9; 10]) = [7; 8; 9; 10].
Proof.
  split; [lia|]. split; [reflexivity|].
  apply (interior_pad_with 4 [7; 8; 9; 10]); [lia|reflexivity].
Defined.

Lemma vec_get_interior N (u : list Z) i j :
  2 <= N -> 0 < i < N - 1 -> 0 < j < N - 1 ->
  vec_get (interior N u) ((j - 1) * (N - 2) + (i - 1)) = vec_get u (j * N + i).
Proof.
  intros HN Hi Hj. unfold interior. rewrite vec_get_fmap_range by nia.
  cbv zeta.
  destruct (flat_div_mod (N - 2) (j - 1) (i - 1) ltac:(lia)) as [-> ->].
  f_equal. ring.
Qed.

(** Padding the interior of a full-grid vector that is zero on the boundary
    gives the vector back. *)
Theorem pad_with_interior N u :
  2 <= N -> Z.of_nat (length u) = N * N ->
  (forall k, 0 <= k < N * N -> on_boundary N k = true -> vec_get u k = 0) ->
  pad_with N (interior N u) = u.
Proof.
  intros HN Hu Hzero. rewrite <- (fmap_vec_get_range u _ Hu) at 2.
  unfold pad_with. apply Forall_fmap_ext, Forall_forall.
  intros k Hk%elem_of_seqZ. cbv zeta.
  destruct (grid_split N ltac:(lia) k ltac:(lia)) as (Hi & Hj & Hdm).
  pose proof (Hzero k ltac:(lia)) as Hz. unfold on_boundary in Hz.
  cbv zeta in Hz.
  destruct (Z.ltb_spec 0 (k mod N)), (Z.ltb_spec (k mod N) (N - 1)),
    (Z.ltb_spec 0 (k / N)), (Z.ltb_spec (k / N) (N - 1)); cbn [andb];
    [rewrite vec_get_interior by lia; f_equal; lia|..];
    symmetry; apply Hz;
    destruct (Z.eqb_spec (k mod N) 0), (Z.eqb_spec (k mod N) (N - 1)),
      (Z.eqb_spec (k / N) 0), (Z.eqb_spec (k / N) (N - 1)); cbn [orb];
      (done || lia).
Qed.

Lemma pad_with_interior_witness :
  2 <= 3 /\ Z.of_nat (length [0; 0; 0; 0; 5; 0; 0; 0; 0]) = 3 * 3 /\
  (forall k, 0 <= k < 3 * 3 -> on_boundary 3 k = true ->
             vec_get [0; 0; 0; 0; 5; 0; 0; 0; 0] k = 0) /\
  pad_with 3 (interior 3 [0; 0; 0; 0; 5; 0; 0; 0; 0])
  = [0; 0; 0; 0; 5; 0; 0; 0; 0].
Proof.
  assert (forall k, 0 <= k < 3 * 3 -> on_boundary 3 k = true ->
                    vec_get [0; 0; 0; 0; 5; 0; 0; 0; 0] k = 0) as Hz.
  { intros k Hk Hb.
    assert (k = 0 \/ k = 1 \/ k = 2 \/ k = 3 \/ k = 4 \/ k = 5 \/ k = 6
            \/ k = 7 \/ k = 8) as Hcases by lia.
    repeat destruct Hcases as [->|Hcases]; try subst k; (done || reflexivity). }
  split; [lia|]. split; [reflexivity|]. split; [exact Hz|].
  apply (pad_with_interior 3 [0; 0; 0; 0; 5; 0; 0; 0; 0]);
    [lia|reflexivity|exact Hz].
Defined.

(** The comparison of the validation cell, in exact arithmetic: for every [N]
    from 3 to 4096 and [omega = 0], the zero-padded result of the tiled
    evaluator is [A @ u] on the whole grid, boundary rows included, where
    [u] is the zero-padded input. *)
Theorem padded_tiled_is_matvec N u garbage order :
  3 <= N <= 4096 -> Z.of_nat (length u) = (N - 2) * (N - 2) ->
  order ≡ₚ block_threads ->
  exists st A f,
    discretise_poisson N = Ok st /\ coo_matrix st = Some A /\
    eval_gpu_2 N 0 u garbage order = Ok (Some <$> f) /\
    pad_with N f = matvec (N * N) A (pad_with N u).
Proof.
  intros HN3 Hu Hperm. assert (2 <= N <= 4096) as HN by lia.
  destruct (discretise_poisson_small N HN) as [Hrun Hcoo].
  eexists _, _, _. split; [exact Hrun|]. split; [exact Hcoo|].
  split; [apply eval_gpu_2_run; (done || lia)|].
  rewrite matvec_stencil by lia. unfold pad_with at 1.
  apply Forall_fmap_ext, Forall_forall. intros k Hk%elem_of_seqZ. cbv zeta.
  destruct (grid_split N ltac:(lia) k ltac:(lia)) as (Hi & Hj & Hdm).
  destruct (Z.ltb_spec 0 (k mod N)), (Z.ltb_spec (k mod N) (N - 1)),
    (Z.ltb_spec 0 (k / N)), (Z.ltb_spec (k / N) (N - 1)); cbn [andb].
  1:{ rewrite vec_get_fmap_range by nia. rewrite tiled_out_naive by nia.
      destruct (flat_div_mod (N - 2) (k / N - 1) (k mod N - 1) ltac:(lia))
        as [-> ->].
      replace ((k / N - 1 + 1) * N + (k mod N - 1 + 1)) with k by lia.
      change (0 ^ 2) with 0. ring. }
  all: rewrite Hdm at 1;
    rewrite naive_out_boundary by lia;
    replace (k / N * N + k mod N) with ((k / N - 1 + 1) * N + (k mod N - 1 + 1))
      by ring;
    rewrite pad_with_padded by lia; symmetry; apply padded_outside; lia.
Qed.

Lemma padded_tiled_is_matvec_witness :
  3 <= 4 <= 4096 /\ Z.of_nat (length [1; 2; 3; 4]) = (4 - 2) * (4 - 2) /\
  exists st A f,
    discretise_poisson 4 = Ok st /\ coo_matrix st = Some A /\
    eval_gpu_2 4 0 [1; 2; 3; 4] (fun _ _ _ => 5) block_threads
    = Ok (Some <$> f) /\
    pad_with 4 f = matvec (4 * 4) A (pad_with 4 [1; 2; 3; 4]).
Proof.
  split; [lia|]. split; [reflexivity|].
  apply (padded_tiled_is_matvec 4 [1; 2; 3; 4] (fun _ _ _ => 5) block_threads);
    [lia|reflexivity|reflexivity].
Defined.

(** * Memory traffic and races *)

Lemma global_reads_app tr1 tr2 :
  global_reads (tr1 ++ tr2) = global_reads tr1 + global_reads tr2.
Proof.
  unfold global_reads. induction tr1 as [|[] tr1 IH]; cbn [foldr app]; lia.
Qed.

Lemma global_reads_load_trace N i j pi pj :
  pi < N - 2 -> pj < N - 2 ->
  global_reads (load_trace N i j pi pj)
  = 1 + Z.b2z ((i =? 0) && negb (pi =? 0))
      + Z.b2z ((j =? 0) && negb (pj =? 0))
      + Z.b2z ((i =? SX - 1) && negb (pi =? (N - 2) - 1))
      + Z.b2z ((j =? SY - 1) && negb (pj =? (N - 2) - 1)).
Proof.
  intros Hpi Hpj. unfold load_trace.
  destruct (Z.leb_spec (N - 2) pi); [lia|].
  destruct (Z.leb_spec (N - 2) pj); [lia|]. cbn [orb].
  rewrite !global_reads_app.
  destruct ((i =? 0) && negb (pi =? 0)), ((j =? 0) && negb (pj =? 0)),
    ((i =? SX - 1) && negb (pi =? (N - 2) - 1)),
    ((j =? SY - 1) && negb (pj =? (N - 2) - 1)),
    (pi =? 0), (pj =? 0), (pi =? (N - 2) - 1), (pj =? (N - 2) - 1);
    reflexivity.
Qed.

(** A thread of the tiled kernel that lies on the grid reads global memory
    between one and three times, all before the barrier, and exactly once
    when it does not sit on an edge of its tile; after the barrier it reads
    the shared array only. *)
Theorem tiled_global_reads N omega u bx by_ i j d :
  0 <= bx -> 0 <= by_ -> 0 <= i < 32 -> 0 <= j < 32 ->
  bx * 32 + i < N - 2 -> by_ * 32 + j < N - 2 ->
  Z.of_nat (length u) = (N - 2) * (N - 2) ->
  Z.of_nat (length (out d)) = (N - 2) * (N - 2) ->
  exists d1 d2 tr1 tr2,
    exec (discretise_poisson_gpu_2_load N u i j (bx * 32 + i) (by_ * 32 + j)) d
    = Ok d1 /\
    trace d1 = trace d ++ tr1 /\
    exec (discretise_poisson_gpu_2_compute N omega i j
            (bx * 32 + i) (by_ * 32 + j)) d1 = Ok d2 /\
    trace d2 = trace d1 ++ tr2 /\
    1 <= global_reads tr1 <= 3 /\
    (0 < i < 31 -> 0 < j < 31 -> global_reads tr1 = 1) /\
    global_reads tr2 = 0.
Proof.
  intros Hbx Hby Hi Hj Hpi Hpj Hu Ho.
  destruct (load_thread_from N u bx by_ i j (fun _ _ => False) d [] d)
    as (d1 & Hrun & Hout & _ & Htr & _); [done..| |].
  { apply loading_start. intros a c []. }
  rewrite app_nil_l in Htr.
  pose proof (compute_thread_eq N omega i j (bx * 32 + i) (by_ * 32 + j) d1
                Hi Hj ltac:(lia) ltac:(lia) ltac:(by rewrite Hout)) as Hc.
  eexists d1, _, _, _. split; [exact Hrun|]. split; [exact Htr|].
  split; [apply exec_eq, Hc|]. cbn [trace]. split; [reflexivity|].
  rewrite global_reads_load_trace by done. unfold SX, SY.
  split; [|split; [|reflexivity]].
  - destruct (Z.eqb_spec i 0), (Z.eqb_spec i (32 - 1)), (Z.eqb_spec j 0),
      (Z.eqb_spec j (32 - 1));
      destruct (bx * 32 + i =? 0), (by_ * 32 + j =? 0),
        (bx * 32 + i =? N - 2 - 1), (by_ * 32 + j =? N - 2 - 1);
      cbn [andb negb Z.b2z]; lia.
  - intros Hi' Hj'.
    destruct (Z.eqb_spec i 0), (Z.eqb_spec i (32 - 1)), (Z.eqb_spec j 0),
      (Z.eqb_spec j (32 - 1)); cbn [andb Z.b2z]; lia.
Qed.

Lemma tiled_global_reads_witness :
  0 <= 1 /\ 0 <= 0 < 32 /\ 1 * 32 + 0 < 40 - 2 /\
  Z.of_nat (length (seqZ 0 1444)) = (40 - 2) * (40 - 2) /\
  exists d1 d2 tr1 tr2,
    exec (discretise_poisson_gpu_2_load 40 (seqZ 0 1444) 0 0
            (1 * 32 + 0) (1 * 32 + 0))
      {| out := replicate 1444 None; local_u := fun _ _ => 0; trace := [] |}
    = Ok d1 /\
    trace d1 = [] ++ tr1 /\
    exec (discretise_poisson_gpu_2_compute 40 3 0 0 (1 * 32 + 0) (1 * 32 + 0))
      d1 = Ok d2 /\
    trace d2 = trace d1 ++ tr2 /\
    1 <= global_reads tr1 <= 3 /\
    (0 < 0 < 31 -> 0 < 0 < 31 -> global_reads tr1 = 1) /\
    global_reads tr2 = 0.
Proof.
  split; [lia|]. split; [lia|]. split; [lia|]. split; [reflexivity|].
  apply (tiled_global_reads 40 3 (seqZ 0 1444) 1 1 0 0
           {| out := replicate 1444 None; local_u := fun _ _ => 0;
              trace := [] |}); try lia; reflexivity.
Defined.

Lemma elem_of_if {A : Type} (c : bool) (l : list A) x :
  x ∈ (if c then l else []) <-> c = true /\ x ∈ l.
Proof.
  destruct c; [by intuition|]. rewrite elem_of_nil. by intuition.
Qed.

Ltac split_trace H :=
  repeat match type of H with
  | _ \/ _ => destruct H as [H|H]
  | _ /\ _ => let Hc := fresh "Hc" in destruct H as [Hc H]
  | False => destruct H
  | SRead _ _ = _ => discriminate H
  | SWrite _ _ = GRead _ => discriminate H
  | SWrite _ _ = SWrite _ _ => injection H as -> ->
  end.

Lemma load_trace_no_sread N i j pi pj a c :
  SRead a c ∉ load_trace N i j pi pj.
Proof.
  unfold load_trace. destruct ((N - 2 <=? pi) || (N - 2 <=? pj));
    [apply not_elem_of_nil|].
  rewrite !elem_of_app, !elem_of_if, !elem_of_cons, !elem_of_nil.
  intros H. split_trace H.
Qed.

Ltac pick_load :=
  first [ lia
        | left; lia
        | right; left; lia
        | right; right; left; lia
        | right; right; right; left; lia
        | right; right; right; right; lia ].

Lemma load_trace_loads N bx by_ i j a c :
  0 <= bx -> 0 <= by_ -> 0 <= i < 32 -> 0 <= j < 32 ->
  SWrite a c ∈ load_trace N i j (bx * 32 + i) (by_ * 32 + j) ->
  loads N (bx, by_) (i, j) a c.
Proof.
  intros Hbx Hby Hi Hj. unfold load_trace, loads, haloSX, haloSY, SX, SY.
  cbn [fst snd].
  destruct (Z.leb_spec (N - 2) (bx * 32 + i)); [by intros ?%elem_of_nil|].
  destruct (Z.leb_spec (N - 2) (by_ * 32 + j)); [by intros ?%elem_of_nil|].
  cbn [orb]. rewrite !elem_of_app, !elem_of_if, !elem_of_cons, !elem_of_nil.
  intros Hin. split; [lia|]. split; [lia|].
  split_trace Hin;
    repeat match goal with
    | H : _ && _ = true |- _ => apply andb_true_iff in H as [? ?]
    | H : (_ =? _) = true |- _ => apply Z.eqb_eq in H
    end;
    pick_load.
Qed.

Lemma loads_one_thread N b t t' a c :
  0 <= fst b -> 0 <= snd b ->
  0 <= fst t < 32 -> 0 <= snd t < 32 -> 0 <= fst t' < 32 -> 0 <= snd t' < 32 ->
  loads N b t a c -> loads N b t' a c -> t = t'.
Proof.
  destruct b as [bx by_], t as [i j], t' as [i' j']. unfold loads.
  cbn [fst snd]. intros Hbx Hby Hi Hj Hi' Hj' (Hp & Hq & H) (Hp' & Hq' & H').
  assert (i = i' /\ j = j') as [-> ->]; [|done].
  destruct H as [H|[H|[H|[H|H]]]], H' as [H'|[H'|[H'|[H'|H']]]]; lia.
Qed.

(** The shared array of a block has no data race: before the barrier no
    thread reads it and no cell is written by two different threads, and
    after the barrier no thread writes it. *)
Theorem shared_array_race_free N omega u bx by_ i j i' j' d dc :
  0 <= bx -> 0 <= by_ ->
  0 <= i < 32 -> 0 <= j < 32 -> 0 <= i' < 32 -> 0 <= j' < 32 ->
  bx * 32 + i < N - 2 -> by_ * 32 + j < N - 2 ->
  Z.of_nat (length u) = (N - 2) * (N - 2) ->
  Z.of_nat (length (out dc)) = (N - 2) * (N - 2) ->
  exists d1 d1' d2 tr tr' tr2,
    exec (discretise_poisson_gpu_2_load N u i j (bx * 32 + i) (by_ * 32 + j)) d
    = Ok d1 /\ trace d1 = trace d ++ tr /\
    exec (discretise_poisson_gpu_2_load N u i' j'
            (bx * 32 + i') (by_ * 32 + j')) d
    = Ok d1' /\ trace d1' = trace d ++ tr' /\
    exec (discretise_poisson_gpu_2_compute N omega i j
            (bx * 32 + i) (by_ * 32 + j)) dc
    = Ok d2 /\ trace d2 = trace dc ++ tr2 /\
    (forall a c, SRead a c ∉ tr) /\
    (forall a c, SWrite a c ∈ tr -> SWrite a c ∈ tr' -> i = i' /\ j = j') /\
    (forall a c, SWrite a c ∉ tr2).
Proof.
  intros Hbx Hby Hi Hj Hi' Hj' Hpi Hpj Hu Ho.
  destruct (load_thread_from N u bx by_ i j (fun _ _ => False) d [] d)
    as (d1 & Hrun & _ & _ & Htr & _); [done..| |].
  { apply loading_start. intros a c []. }
  destruct (load_thread_from N u bx by_ i' j' (fun _ _ => False) d [] d)
    as (d1' & Hrun' & _ & _ & Htr' & _); [done..| |].
  { apply loading_start. intros a c []. }
  rewrite app_nil_l in Htr, Htr'.
  pose proof (compute_thread_eq N omega i j (bx * 32 + i) (by_ * 32 + j) dc
                Hi Hj ltac:(lia) ltac:(lia) Ho) as Hc.
  eexists d1, d1', _, _, _, _.
  split; [exact Hrun|]. split; [exact Htr|].
  split; [exact Hrun'|]. split; [exact Htr'|].
  split; [apply exec_eq, Hc|]. cbn [trace]. split; [reflexivity|].
  split; [|split].
  - intros a c. apply load_trace_no_sread.
  - intros a c Hw Hw'.
    apply load_trace_loads in Hw; [|done..].
    apply load_trace_loads in Hw'; [|done..].
    pose proof (loads_one_thread N (bx, by_) (i, j) (i', j') a c) as Hone.
    cbn [fst snd] in Hone. specialize (Hone Hbx Hby Hi Hj Hi' Hj' Hw Hw').
    by injection Hone as -> ->.
  - intros a c. rewrite !elem_of_cons, elem_of_nil.
    intros H; repeat destruct H as [H|H]; done.
Qed.

Lemma shared_array_race_free_witness :
  0 <= 0 /\ 0 <= 31 < 32 /\ 0 <= 30 < 32 /\ 0 * 32 + 31 < 40 - 2 /\
  Z.of_nat (length (seqZ 0 1444)) = (40 - 2) * (40 - 2) /\
  exists d1 d1' d2 tr tr' tr2,
    exec (discretise_poisson_gpu_2_load 40 (seqZ 0 1444) 31 5
            (0 * 32 + 31) (0 * 32 + 5))
      {| out := replicate 1444 None; local_u := fun _ _ => 0; trace := [] |}
    = Ok d1 /\ trace d1 = [] ++ tr /\
    exec (discretise_poisson_gpu_2_load 40 (seqZ 0 1444) 30 5
            (0 * 32 + 30) (0 * 32 + 5))
      {| out := replicate 1444 None; local_u := fun _ _ => 0; trace := [] |}
    = Ok d1' /\ trace d1' = [] ++ tr' /\
    exec (discretise_poisson_gpu_2_compute 40 2 31 5 (0 * 32 + 31) (0 * 32 + 5))
      {| out := replicate 1444 None; local_u := fun _ _ => 0; trace := [] |}
    = Ok d2 /\ trace d2 = [] ++ tr2 /\
    (forall a c, SRead a c ∉ tr) /\
    (forall a c, SWrite a c ∈ tr -> SWrite a c ∈ tr' -> 31 = 30 /\ 5 = 5) /\
    (forall a c, SWrite a c ∉ tr2).
Proof.
  split; [lia|]. split; [lia|]. split; [lia|]. split; [lia|].
  split; [reflexivity|].
  apply (shared_array_race_free 40 2 (seqZ 0 1444) 0 0 31 5 30 5
           {| out := replicate 1444 None; local_u := fun _ _ => 0;
              trace := [] |}
           {| out := replicate 1444 None; local_u := fun _ _ => 0;
              trace := [] |}); try lia; reflexivity.
Defined.

Lemma writes_slot_iff (m : kernel unit) d d' tr k :
  exec m d = Ok d' -> trace d' = trace d ++ tr ->
  writes_slot m d k <-> GWrite k ∈ tr.
Proof.
  intros Hrun Htr. split.
  - intros (d1 & tr1 & Hrun1 & Htr1 & Hk).
    rewrite Hrun in Hrun1. injection Hrun1 as <-.
    rewrite Htr in Htr1. by apply app_inv_head in Htr1 as ->.
  - intros Hk. by exists d', tr.
Qed.

Lemma naive_thread_writes N u i j d k :
  0 <= i -> 0 <= j ->
  Z.of_nat (length u) = N * N -> Z.of_nat (length (out d)) = N * N ->
  writes_slot (discretise_poisson_gpu N u i j) d k
  <-> i < N /\ j < N /\ k = j * N + i.
Proof.
  intros Hi Hj Hu Ho.
  destruct (decide (N <= i \/ N <= j)) as [Hoff|Hin].
  - rewrite (writes_slot_iff _ d d []);
      [|by apply exec_eq, naive_thread_off|by rewrite app_nil_r].
    rewrite elem_of_nil. lia.
  - destruct (decide (i = 0 \/ i = N - 1 \/ j = 0 \/ j = N - 1)) as [Hb|Hb].
    + erewrite writes_slot_iff;
        [|apply exec_eq, naive_thread_boundary; (done || lia)|reflexivity].
      rewrite !elem_of_cons, elem_of_nil. split.
      * intros [H|[H|[]]]; [done|]. injection H as ->. lia.
      * intros (_ & _ & ->). right. by left.
    + erewrite writes_slot_iff;
        [|apply exec_eq, naive_thread_interior; (done || lia)|reflexivity].
      rewrite !elem_of_cons, elem_of_nil. split.
      * intros H. repeat destruct H as [H|H]; try done.
        injection H as ->. lia.
      * intros (_ & _ & ->). do 5 right. by left.
Qed.

(** Every slot of the output of the naive evaluator is written by exactly
    one thread of the launch: no slot is skipped and no two threads write the
    same slot. *)
Theorem naive_slot_written_once N u d k :
  1 <= N -> Z.of_nat (length u) = N * N ->
  Z.of_nat (length (out d)) = N * N -> 0 <= k < N * N ->
  exists b t,
    b ∈ blocks ((N + 31) / 32) /\ t ∈ block_threads /\
    writes_slot (discretise_poisson_gpu N u (fst b * 32 + fst t)
                   (snd b * 32 + snd t)) d k /\
    forall b' t',
      b' ∈ blocks ((N + 31) / 32) -> t' ∈ block_threads ->
      writes_slot (discretise_poisson_gpu N u (fst b' * 32 + fst t')
                     (snd b' * 32 + snd t')) d k ->
      b' = b /\ t' = t.
Proof.
  intros HN1 Hu Ho Hk. assert (0 <= N) as HN by lia.
  destruct (launch_covers N k HN Hk) as ([bx by_] & Hb & [i j] & Ht & Hpi & Hpj & ->).
  cbn [fst snd] in *. exists (bx, by_), (i, j).
  pose proof Hb as [Hbx Hby]%elem_of_blocks.
  pose proof Ht as [Hi Hj]%elem_of_block_threads.
  split; [done|]. split; [done|]. cbn [fst snd]. split.
  - apply naive_thread_writes; (done || lia).
  - intros [bx' by'] [i' j'] [Hbx' Hby']%elem_of_blocks
      [Hi' Hj']%elem_of_block_threads. cbn [fst snd].
    intros (Hpi' & Hpj' & Heq)%naive_thread_writes; [|lia|lia|done|done].
    apply flat_index_inj in Heq as [Hy Hx]; [|lia|lia].
    split; f_equal; lia.
Qed.

Lemma naive_slot_written_once_witness :
  1 <= 40 /\ Z.of_nat (length (seqZ 0 1600)) = 40 * 40 /\ 0 <= 1357 < 40 * 40 /\
  exists b t,
    b ∈ blocks ((40 + 31) / 32) /\ t ∈ block_threads /\
    writes_slot (discretise_poisson_gpu 40 (seqZ 0 1600) (fst b * 32 + fst t)
                   (snd b * 32 + snd t))
      {| out := replicate 1600 None; local_u := fun _ _ => 0; trace := [] |}
      1357 /\
    forall b' t',
      b' ∈ blocks ((40 + 31) / 32) -> t' ∈ block_threads ->
      writes_slot (discretise_poisson_gpu 40 (seqZ 0 1600)
                     (fst b' * 32 + fst t') (snd b' * 32 + snd t'))
        {| out := replicate 1600 None; local_u := fun _ _ => 0; trace := [] |}
        1357 ->
      b' = b /\ t' = t.
Proof.
  split; [lia|]. split; [reflexivity|]. split; [lia|].
  apply (naive_slot_written_once 40 (seqZ 0 1600)
           {| out := replicate 1600 None; local_u := fun _ _ => 0;
              trace := [] |} 1357); try lia; reflexivity.
Defined.

Lemma compute_thread_writes N omega i j pi pj d k :
  0 <= i < 32 -> 0 <= j < 32 -> 0 <= pi -> 0 <= pj ->
  Z.of_nat (length (out d)) = (N - 2) * (N - 2) ->
  writes_slot (discretise_poisson_gpu_2_compute N omega i j pi pj) d k
  <-> pi < N - 2 /\ pj < N - 2 /\ k = pj * (N - 2) + pi.
Proof.
  intros Hi Hj Hpi Hpj Ho.
  destruct (decide (N - 2 <= pi \/ N - 2 <= pj)) as [Hoff|Hin].
  - rewrite (writes_slot_iff _ d d []);
      [|by apply exec_eq, compute_thread_off|by rewrite app_nil_r].
    rewrite elem_of_nil. lia.
  - erewrite writes_slot_iff;
      [|apply exec_eq, compute_thread_eq; (done || lia)|reflexivity].
    rewrite !elem_of_cons, elem_of_nil. split.
    + intros H. repeat destruct H as [H|H]; try done.
      injection H as ->. lia.
    + intros (_ & _ & ->). do 5 right. by left.
Qed.

Lemma load_trace_no_gwrite N i j pi pj k :
  GWrite k ∉ load_trace N i j pi pj.
Proof.
  unfold load_trace. destruct ((N - 2 <=? pi) || (N - 2 <=? pj));
    [apply not_elem_of_nil|].
  rewrite !elem_of_app, !elem_of_if, !elem_of_cons, !elem_of_nil.
  intros H.
  repeat match type of H with
  | _ \/ _ => destruct H as [H|H]
  | _ /\ _ => let Hc := fresh "Hc" in destruct H as [Hc H]
  | False => destruct H
  | GWrite _ = _ => discriminate H
  end.
Qed.

(** Every slot of the output of the tiled evaluator is written by exactly
    one thread of the launch, after the barrier; before the barrier no
    thread writes the output. *)
Theorem tiled_slot_written_once N omega u d k :
  3 <= N -> Z.of_nat (length u) = (N - 2) * (N - 2) ->
  Z.of_nat (length (out d)) = (N - 2) * (N - 2) ->
  0 <= k < (N - 2) * (N - 2) ->
  exists b t,
    b ∈ blocks ((N - 2 + 31) / 32) /\ t ∈ block_threads /\
    writes_slot (discretise_poisson_gpu_2_compute N omega (fst t) (snd t)
                   (fst b * 32 + fst t) (snd b * 32 + snd t)) d k /\
    forall b' t',
      b' ∈ blocks ((N - 2 + 31) / 32) -> t' ∈ block_threads ->
      ~ writes_slot (discretise_poisson_gpu_2_load N u (fst t') (snd t')
                       (fst b' * 32 + fst t') (snd b' * 32 + snd t')) d k /\
      (writes_slot (discretise_poisson_gpu_2_compute N omega (fst t') (snd t')
                      (fst b' * 32 + fst t') (snd b' * 32 + snd t')) d k ->
       b' = b /\ t' = t).
Proof.
  intros HN3 Hu Ho Hk. assert (2 <= N) as HN by lia.
  destruct (launch_covers (N - 2) k ltac:(lia) Hk)
    as ([bx by_] & Hb & [i j] & Ht & Hpi & Hpj & ->).
  cbn [fst snd] in *. exists (bx, by_), (i, j).
  pose proof Hb as [Hbx Hby]%elem_of_blocks.
  pose proof Ht as [Hi Hj]%elem_of_block_threads.
  split; [done|]. split; [done|]. cbn [fst snd]. split.
  - apply compute_thread_writes; (done || lia).
  - intros [bx' by'] [i' j'] [Hbx' Hby']%elem_of_blocks
      [Hi' Hj']%elem_of_block_threads. cbn [fst snd]. split.
    + destruct (load_thread_from N u bx' by' i' j' (fun _ _ => False) d [] d)
        as (d1 & Hrun & _ & _ & Htr & _); [lia..|done| |].
      { apply loading_start. intros a c []. }
      rewrite (writes_slot_iff _ d d1 _ _ Hrun Htr). rewrite app_nil_l.
      apply load_trace_no_gwrite.
    + intros (Hpi' & Hpj' & Heq)%compute_thread_writes; [|lia..|done].
      apply flat_index_inj in Heq as [Hy Hx]; [|lia|lia].
      split; f_equal; lia.
Qed.

Lemma tiled_slot_written_once_witness :
  3 <= 40 /\ Z.of_nat (length (seqZ 0 1444)) = (40 - 2) * (40 - 2) /\
  0 <= 1300 < (40 - 2) * (40 - 2) /\
  exists b t,
    b ∈ blocks ((40 - 2 + 31) / 32) /\ t ∈ block_threads /\
    writes_slot (discretise_poisson_gpu_2_compute 40 2 (fst t) (snd t)
                   (fst b * 32 + fst t) (snd b * 32 + snd t))
      {| out := replicate 1444 None; local_u := fun _ _ => 0; trace := [] |}
      1300 /\
    forall b' t',
      b' ∈ blocks ((40 - 2 + 31) / 32) -> t' ∈ block_threads ->
      ~ writes_slot (discretise_poisson_gpu_2_load 40 (seqZ 0 1444)
                       (fst t') (snd t')
                       (fst b' * 32 + fst t') (snd b' * 32 + snd t'))
          {| out := replicate 1444 None; local_u := fun _ _ => 0;
             trace := [] |} 1300 /\
      (writes_slot (discretise_poisson_gpu_2_compute 40 2 (fst t') (snd t')
                      (fst b' * 32 + fst t') (snd b' * 32 + snd t'))
         {| out := replicate 1444 None; local_u := fun _ _ => 0;
            trace := [] |} 1300 ->
       b' = b /\ t' = t).
Proof.
  split; [lia|]. split; [reflexivity|]. split; [lia|].
  apply (tiled_slot_written_once 40 2 (seqZ 0 1444)
           {| out := replicate 1444 None; local_u := fun _ _ => 0;
              trace := [] |} 1300); try lia; reflexivity.
Defined.

(** ** The corners of the shared array *)









